(** * WebScraper: a shallow embedding of webscraper/webscraper.py

    The crawl orchestrator of the repository is embedded as executable
    Rocq functions: the [url_metadata] table of the SQLite metadata store is a
    finite map keyed by URL, the frontier is a list of [(url, depth)] pairs,
    the in-memory [visited] set is a finite set, and the methods of the
    [WebScraper] class are computations in a state-and-exception monad whose
    state is the object ([self]) together with the external resources it
    owns (the database connection, the queue file, the Chroma collection).

    External collaborators (the headless browser, the HTML parser, the
    embedding API, pickle, the completion order of the thread pool) are the
    fields of an environment record [Env].

    Modelling choices:
    - every round trip to SQLite may raise; which ones do is decided by a
      tape of booleans in the state, consumed one entry per call (an empty
      tape is a connection that never fails); a statement can also raise on
      its own: an integer parameter outside the signed 64-bit range, more
      host parameters than the library allows;
    - the connection is made by the main thread with the default
      [check_same_thread=True], so every call on it from a thread of the
      pool raises;
    - writing the queue file always succeeds, so the [except] branch of
      [save_queue] is not modelled; an unreadable file is modelled
      ([pickle_loads] returns [None]);
    - the tasks of the thread pool run one at a time, in the order in which
      the environment says they complete (statements about a batch give
      the pages fetched up to their order);
    - the [logger.error] records of the handlers around the database, the
      parser, the index and the crawl loops are kept; those of the browser
      and of the embedding API, [print], [logger.info] and [logger.debug]
      are not;
    - a Python string is the sequence of the bytes of its UTF-8 encoding,
      and the depth of a frontier entry is an integer of any size. *)

From Stdlib Require Import ZArith List String Ascii Bool Lia.
From Stdlib.Strings Require Import Byte.
From stdpp Require Import gmap strings list.

Open Scope Z_scope.

(** ** Python values that flow through [process_url] *)

(** [process_url] returns a tuple whose components are either [None] or a
    string; tuples are lists, so that the arity of a tuple is data, as it is
    in Python. *)
Inductive PyVal : Type :=
  | PNone
  | PStr (s : string).

Definition pytuple : Type := list PyVal.

Inductive Exn : Type :=
  | SqliteError       (* sqlite3.Error: OperationalError, ProgrammingError, ... *)
  | OverflowError     (* an int that does not fit an SQLite INTEGER *)
  | ValueError        (* wrong number of values to unpack, max_workers <= 0 *)
  | TypeError         (* BeautifulSoup(None, ...) *)
  | ParserRejectedMarkup (* html.parser gave up on the markup *)
  | AttributeError    (* a method call on None *)
  | IndexError        (* tuple index out of range, pop from an empty deque *)
  | ChromaError.      (* collection.add or collection.get failed *)

(** Truthiness, as [if x:] evaluates it. *)
Definition str_truthy (s : string) : bool :=
  match s with
  | EmptyString => false
  | String _ _ => true
  end.

Definition truthy (v : PyVal) : bool :=
  match v with
  | PNone => false
  | PStr s => str_truthy s
  end.

Definition tuple_truthy (t : pytuple) : bool :=
  match t with
  | [] => false
  | _ :: _ => true
  end.

Definition of_option (o : option string) : PyVal :=
  match o with
  | None => PNone
  | Some s => PStr s
  end.

(** ** Data model *)

(** A row of [url_metadata]; the key column [url] is the key of the map. *)
Record URLRecord : Type := mkRecord {
  content_hash : Z;
  depth : Z;
  title : option string;
  processed : bool
}.

(** A frontier entry and the frontier (a [deque], used first-in first-out). *)
Definition Entry : Type := (string * Z)%type.
Definition Frontier : Type := list Entry.

(** What [BeautifulSoup(html, "html.parser")] exposes to the scraper. *)
Record Soup : Type := mkSoup {
  soup_title : option (option string);  (* no <title> | title.string, stripped *)
  paragraphs : list string;             (* get_text(strip=True) of every <p> *)
  anchors : list string                 (* a["href"] of every <a href=...> *)
}.

Inductive LogRecord : Type :=
  | ErrCheckBulk (e : Exn)
  | ErrMarkProcessed (e : Exn)
  | ErrLoadQueue
  | ErrExtractLinks (e : Exn)
  | ErrExtractInfo (e : Exn)
  | ErrUrlCheck (e : Exn)
  | ErrIndexingCheck (e : Exn)
  | ErrStoreChroma (url : string) (e : Exn)
  | ErrProcessing (url : string) (e : Exn)
  | ErrCrawling (e : Exn).

(** The collaborators outside the repository. *)
Record Env : Type := mkEnv {
  (* driver.get(url); driver.page_source, for the n-th call of the browser;
     None when the browser raised *)
  browser : nat -> string -> option string;
  (* the tree html.parser builds; None when it rejects the markup *)
  html_parser : string -> option Soup;
  (* the built-in hash of a string, before it is cut to a Py_hash_t *)
  hash : string -> Z;
  (* SQLITE_MAX_VARIABLE_NUMBER of the SQLite library in use *)
  sqlite_max_variables : nat;
  (* embedding_fn(text): the length of the vector, None when the API raised *)
  embedding_fn : string -> option nat;
  (* whether collection.add accepts the document with this id *)
  chroma_accepts : string -> bool;
  (* whether collection.get answers when asked for this id *)
  chroma_answers : string -> bool;
  pickle_dumps : Frontier -> list byte;
  pickle_loads : list byte -> option Frontier;
  (* the order in which the futures of a batch complete: a permutation of
     the submitted tasks *)
  as_completed : list Entry -> list Entry
}.

(** The constructor arguments of [WebScraper], fixed for the life of the
    object. *)
Record Config : Type := mkConfig {
  start_url : string;
  max_links : Z;
  max_depth : Z;
  max_threads : Z;
  skip_embedding : bool
}.

(** The mutable part of [self] and of the resources it owns. *)
Record State : Type := mkState {
  visited : gset string;
  link_count : Z;
  queue : Frontier;
  table : gmap string URLRecord;     (* url_metadata, through self.conn *)
  faults : list bool;                (* which of the coming sqlite calls raise *)
  queue_file : option (list byte);   (* the pickle file; None: no such file *)
  collection : option (gset string); (* ids in the Chroma collection *)
  fetch_log : list string;           (* every URL handed to the browser *)
  log : list LogRecord               (* logger.error records, oldest first *)
}.

Definition set_visited (v : gset string) (s : State) : State :=
  mkState v (link_count s) (queue s) (table s) (faults s) (queue_file s)
          (collection s) (fetch_log s) (log s).
Definition set_link_count (n : Z) (s : State) : State :=
  mkState (visited s) n (queue s) (table s) (faults s) (queue_file s)
          (collection s) (fetch_log s) (log s).
Definition set_queue (q : Frontier) (s : State) : State :=
  mkState (visited s) (link_count s) q (table s) (faults s) (queue_file s)
          (collection s) (fetch_log s) (log s).
Definition set_table (t : gmap string URLRecord) (s : State) : State :=
  mkState (visited s) (link_count s) (queue s) t (faults s) (queue_file s)
          (collection s) (fetch_log s) (log s).
Definition set_faults (f : list bool) (s : State) : State :=
  mkState (visited s) (link_count s) (queue s) (table s) f (queue_file s)
          (collection s) (fetch_log s) (log s).
Definition set_queue_file (f : option (list byte)) (s : State) : State :=
  mkState (visited s) (link_count s) (queue s) (table s) (faults s) f
          (collection s) (fetch_log s) (log s).
Definition set_collection (c : option (gset string)) (s : State) : State :=
  mkState (visited s) (link_count s) (queue s) (table s) (faults s)
          (queue_file s) c (fetch_log s) (log s).
Definition set_fetch_log (l : list string) (s : State) : State :=
  mkState (visited s) (link_count s) (queue s) (table s) (faults s)
          (queue_file s) (collection s) l (log s).
Definition set_log (l : list LogRecord) (s : State) : State :=
  mkState (visited s) (link_count s) (queue s) (table s) (faults s)
          (queue_file s) (collection s) (fetch_log s) l.

(** ** The state-and-exception monad *)

Inductive Res (A : Type) : Type :=
  | Ok (a : A)
  | Raise (e : Exn).
Arguments Ok {A} a.
Arguments Raise {A} e.

(** A computation over a state [St]; the state survives an exception, as the
    mutations of a Python method do. *)
Definition M (St A : Type) : Type := St -> Res A * St.

Definition ret {St A} (a : A) : M St A := fun s => (Ok a, s).

Definition bind {St A B} (m : M St A) (k : A -> M St B) : M St B :=
  fun s =>
    match m s with
    | (Ok a, s') => k a s'
    | (Raise e, s') => (Raise e, s')
    end.

Definition raise {St A} (e : Exn) : M St A := fun s => (Raise e, s).

(** [try: m  except Exception as e: h e] *)
Definition try_except {St A} (m : M St A) (h : Exn -> M St A) : M St A :=
  fun s =>
    match m s with
    | (Ok a, s') => (Ok a, s')
    | (Raise e, s') => h e s'
    end.

Definition get {St} : M St St := fun s => (Ok s, s).
Definition modify {St} (f : St -> St) : M St unit := fun s => (Ok tt, f s).

Declare Scope py_scope.
Delimit Scope py_scope with py.
Notation "x <- m ;; k" := (bind m (fun x => k))
  (at level 100, m at next level, right associativity) : py_scope.
Notation "m ;; k" := (bind m (fun _ => k))
  (at level 100, right associativity) : py_scope.
Open Scope py_scope.

(** [for x in l: body x] *)
Fixpoint for_each {St A} (l : list A) (body : A -> M St unit) : M St unit :=
  match l with
  | [] => ret tt
  | x :: l' => body x ;; for_each l' body
  end.

(** A method of [self] called from a function that has local variables of
    type [L] next to it. *)
Definition on_self {L A} (m : M State A) : M (L * State) A :=
  fun f =>
    match m (snd f) with
    | (r, s') => (r, (fst f, s'))
    end.

Definition logger_error (r : LogRecord) : M State unit :=
  modify (fun s => set_log (log s ++ [r]) s).

(** ** Metadata store *)

Module Sql.

(** INSERT OR IGNORE INTO url_metadata (url, content_hash, depth, title);
    [processed] takes its default, 0. *)
Definition insert_or_ignore (url : string) (h d : Z) (t : option string)
    (tbl : gmap string URLRecord) : gmap string URLRecord :=
  match tbl !! url with
  | Some _ => tbl
  | None => <[url := mkRecord h d t false]> tbl
  end.

(** UPDATE url_metadata SET processed = 1 WHERE url = ? *)
Definition update_processed (url : string)
    (tbl : gmap string URLRecord) : gmap string URLRecord :=
  alter (fun r => mkRecord (content_hash r) (depth r) (title r) true) url tbl.

(** SELECT 1 FROM url_metadata WHERE url = ?, then [fetchone() is not None] *)
Definition select_one (url : string) (tbl : gmap string URLRecord) : bool :=
  match tbl !! url with
  | Some _ => true
  | None => false
  end.

(** SELECT url FROM url_metadata WHERE url IN (...), collected in a set *)
Definition select_in (urls : list string)
    (tbl : gmap string URLRecord) : gset string :=
  filter (fun u => u ∈ urls) (dom tbl).

End Sql.

(** One round trip to SQLite through [self.conn]: it raises when the next
    entry of the fault tape says so, and otherwise runs the statement, which
    reads or updates the table or raises on its own. *)
Definition sqlite_exec {A}
    (f : gmap string URLRecord -> Res A * gmap string URLRecord) : M State A :=
  fun s =>
    match faults s with
    | true :: tape => (Raise SqliteError, set_faults tape s)
    | false :: tape =>
        let (r, tbl) := f (table s) in (r, set_table tbl (set_faults tape s))
    | [] =>
        let (r, tbl) := f (table s) in (r, set_table tbl s)
    end.

(** A round trip whose statement cannot raise on its own. *)
Definition sqlite_call {A} (f : gmap string URLRecord -> A * gmap string URLRecord)
    : M State A :=
  sqlite_exec (fun tbl => let (a, tbl') := f tbl in (Ok a, tbl')).

(** The integers sqlite3 binds to a parameter: those of an SQLite INTEGER,
    64 bits with a sign. *)
Definition sqlite_int (z : Z) : bool :=
  (- 2 ^ 63 <=? z) && (z <? 2 ^ 63).

(** [cursor.execute(query, (url, content_hash, depth, title))] and the
    commit; binding [content_hash] or [depth] raises OverflowError when
    the integer is not an SQLite INTEGER, and then no row is written. *)
Definition save_url_metadata (url : string) (h d : Z) (t : option string)
    : M State unit :=
  sqlite_exec
    (fun tbl =>
       if sqlite_int h && sqlite_int d
       then (Ok tt, Sql.insert_or_ignore url h d t tbl)
       else (Raise OverflowError, tbl)).

Definition mark_url_processed (url : string) : M State unit :=
  try_except
    (sqlite_call (fun tbl => (tt, Sql.update_processed url tbl)))
    (fun e => logger_error (ErrMarkProcessed e)).

Definition is_url_visited (url : string) : M State bool :=
  sqlite_call (fun tbl => (Sql.select_one url tbl, tbl)).

(** The query has one host parameter per URL; SQLite refuses a statement
    with more of them than its limit ("too many SQL variables"). *)
Definition check_bulk_links (E : Env) (urls : list string)
    : M State (list string * list string) :=
  try_except
    (result_set <- sqlite_exec
                     (fun tbl =>
                        if (List.length urls <=? sqlite_max_variables E)%nat
                        then (Ok (Sql.select_in urls tbl), tbl)
                        else (Raise SqliteError, tbl)) ;;
     ret (filter (fun u => u ∈ result_set) urls,
          filter (fun u => u ∉ result_set) urls))
    (fun e => logger_error (ErrCheckBulk e) ;; ret ([], [])).

(** ** Tuples *)

(** [a, b = t] *)
Definition unpack2 {St} (t : pytuple) : M St (PyVal * PyVal) :=
  match t with
  | [a; b] => ret (a, b)
  | _ => raise ValueError
  end.

(** [a, b, c = t] *)
Definition unpack3 {St} (t : pytuple) : M St (PyVal * PyVal * PyVal) :=
  match t with
  | [a; b; c] => ret (a, b, c)
  | _ => raise ValueError
  end.

(** [t[i]] *)
Definition tuple_item {St} (t : pytuple) (i : nat) : M St PyVal :=
  match nth_error t i with
  | Some v => ret v
  | None => raise IndexError
  end.

Section Scraper.

Variable E : Env.
Variable cfg : Config.

(** ** Frontier persistence *)

(** [pickle.dump(queue, f)] on the file opened with "wb"; the disk is
    taken to accept the write, so the [except] branch is not reached. *)
Definition save_queue (q : Frontier) : M State unit :=
  modify (set_queue_file (Some (pickle_dumps E q))).

Definition load_queue : M State Frontier :=
  s <- get ;;
  match queue_file s with
  | Some bytes =>
      match pickle_loads E bytes with
      | Some q => ret q
      | None => logger_error ErrLoadQueue ;; ret []
      end
  | None => ret []
  end.

(** [os.path.exists(self.queue_file)] and [os.remove(self.queue_file)] *)
Definition queue_file_exists (s : State) : bool :=
  match queue_file s with
  | Some _ => true
  | None => false
  end.

Definition remove_queue_file : M State unit :=
  modify (set_queue_file None).

(** ** Fetching and extraction *)

Definition fetch_with_headless_browser (url : string) : M State PyVal :=
  s <- get ;;
  modify (set_fetch_log (fetch_log s ++ [url])) ;;
  ret (of_option (browser E (List.length (fetch_log s)) url)).

Definition BeautifulSoup (markup : PyVal) : M State Soup :=
  match markup with
  | PNone => raise TypeError
  | PStr html =>
      match html_parser E html with
      | Some soup => ret soup
      | None => raise ParserRejectedMarkup
      end
  end.

Definition nonempty {A} (l : list A) : bool :=
  match l with
  | [] => false
  | _ :: _ => true
  end.

Definition extract_links (html_content : PyVal) : M State (list string) :=
  try_except
    (soup <- BeautifulSoup html_content ;;
     let all_links := anchors soup in
     let links := List.filter (String.prefix (start_url cfg)) all_links in
     (if nonempty links
      then (partition <- check_bulk_links E links ;; ret tt)
      else ret tt) ;;
     ret links)
    (fun e => logger_error (ErrExtractLinks e) ;; ret []).

Definition extract_info (soup : Soup) : M State (string * string) :=
  try_except
    (title <- match soup_title soup with
              | None => ret "No title"%string
              | Some (Some t) => ret t
              | Some None => raise AttributeError
              end ;;
     let content := String.concat " " (firstn 5 (paragraphs soup)) in
     ret (title, content))
    (fun e => logger_error (ErrExtractInfo e) ;; ret ("No title"%string, ""%string)).

(** ** Indexing *)

Definition generate_embedding (text : string) : M State (option nat) :=
  ret (embedding_fn E text).

Definition embedding_truthy (e : option nat) : bool :=
  match e with
  | Some (S _) => true
  | _ => false
  end.

(** The two [try] blocks of [is_already_indexed]: the second, the query of
    the collection, is reached when the first did not return. *)
Definition is_already_indexed (url : string) : M State bool :=
  s <- get ;;
  match collection s with
  | None => ret false
  | Some ids =>
      seen <- try_except (is_url_visited url)
                (fun e => logger_error (ErrUrlCheck e) ;; ret false) ;;
      if seen then ret true
      else
        try_except
          (if chroma_answers E url
           then ret (bool_decide (url ∈ ids))
           else raise ChromaError)
          (fun e => logger_error (ErrIndexingCheck e) ;; ret false)
  end.

(** [self.collection.add(..., ids=[url])] *)
Definition collection_add (url : string) : M State unit :=
  s <- get ;;
  match collection s with
  | None => raise AttributeError
  | Some ids =>
      if chroma_accepts E url
      then modify (set_collection (Some ({[url]} ∪ ids)))
      else raise ChromaError
  end.

Definition store_in_chroma (title content url : string) (depth content_hash : Z)
    : M State unit :=
  indexed <- (if negb (depth =? 0) then is_already_indexed url else ret false) ;;
  if indexed then ret tt
  else
    try_except
      (embedding <- (if negb (skip_embedding cfg)
                     then generate_embedding content
                     else ret None) ;;
       save_url_metadata url content_hash depth (Some title) ;;
       if skip_embedding cfg || embedding_truthy embedding
       then collection_add url ;; mark_url_processed url
       else ret tt)
      (fun e => logger_error (ErrStoreChroma url e)).

(** ** Processing one URL *)

(** [hash(content)]: a [Py_hash_t], the collaborator's value cut to 64 bits
    with a sign. *)
Definition str_hash (content : string) : Z :=
  (hash E content + 2 ^ 63) mod 2 ^ 64 - 2 ^ 63.

Definition process_url (url : string) (depth : Z) : M State pytuple :=
  skip <- (if negb (depth =? 0) then is_url_visited url else ret false) ;;
  if skip then ret [PNone; PNone; PNone]
  else
    html_content <- fetch_with_headless_browser url ;;
    if truthy html_content
    then
      soup <- BeautifulSoup html_content ;;
      info <- extract_info soup ;;
      let '(title, content) := info in
      let content_hash := str_hash content in
      save_url_metadata url content_hash depth None ;;
      store_in_chroma title content url depth content_hash ;;
      ret [PStr title; PStr content; html_content]
    else ret [PNone; PNone; html_content].

(** ** The sequential crawl loop *)

(** The local variable [results] of [comprehensive_crawler], next to
    [self]. *)
Definition Frame : Type := (list pytuple * State)%type.

Definition append_result (r : pytuple) : M Frame unit :=
  modify (fun f : Frame => (fst f ++ [r], snd f)).

(** [self.queue.append((link, depth))] *)
Definition queue_append {L} (e : Entry) : M (L * State) unit :=
  on_self (modify (fun s => set_queue (queue s ++ [e]) s)).

(** The [if] inside [for link in links] of the sequential loop; the
    conjunction is evaluated left to right and stops at the first false
    operand. *)
Definition consider_link (link : string) (depth : Z) : M Frame unit :=
  f <- get ;;
  if bool_decide (link ∉ visited (snd f))
  then
    known <- on_self (is_url_visited link) ;;
    f <- get ;;
    if negb known && (link_count (snd f) <? max_links cfg)
    then queue_append (link, depth + 1)
    else ret tt
  else ret tt.

(** [if result:] unpack it, count it and append it to [results]. *)
Definition record_result (result : pytuple) : M Frame unit :=
  if tuple_truthy result
  then
    t <- unpack3 result ;;
    let '(title, content, html_content) := t in
    on_self (modify (fun s => set_link_count (link_count s + 1) s)) ;;
    append_result [title; content; html_content]
  else ret tt.

(** [if self.link_count < self.max_links and depth + 1 <= self.max_depth:]
    extract the links of the page and consider each of them. *)
Definition follow_links (result : pytuple) (depth : Z) : M Frame unit :=
  f <- get ;;
  if (link_count (snd f) <? max_links cfg) && (depth + 1 <=? max_depth cfg)
  then
    page <- (if tuple_truthy result
             then tuple_item result 2
             else ret (PStr "")) ;;
    links <- on_self (extract_links page) ;;
    for_each links (fun link => consider_link link depth)
  else ret tt.

(** The body of [while self.queue and self.link_count < self.max_links];
    [continue] is the early [ret tt]. *)
Definition crawl_iter : M Frame unit :=
  f <- get ;;
  match queue (snd f) with
  | [] => raise IndexError
  | (url, depth) :: rest =>
      on_self (modify (set_queue rest)) ;;
      if depth >? max_depth cfg then ret tt
      else if bool_decide (url ∈ visited (snd f)) then ret tt
      else
        on_self (modify (fun s => set_visited ({[url]} ∪ visited s) s)) ;;
        result <- on_self (process_url url 0) ;;
        record_result result ;;
        follow_links result depth ;;
        f <- get ;;
        on_self (save_queue (queue (snd f)))
  end.

Definition loop_guard (f : Frame) : bool :=
  nonempty (queue (snd f)) && (link_count (snd f) <? max_links cfg).

(** The [while] loop; [None] when the fuel runs out before the guard
    turns false or an exception leaves the loop. *)
Fixpoint crawl_loop (fuel : nat) (f : Frame) : option (Res unit * Frame) :=
  if loop_guard f
  then
    match fuel with
    | O => None
    | S fuel' =>
        match crawl_iter f with
        | (Ok _, f') => crawl_loop fuel' f'
        | (Raise e, f') => Some (Raise e, f')
        end
    end
  else Some (Ok tt, f).

(** The statements before the loop, the same in both crawl loops: load
    the queue, and seed it with the start URL when it is empty. *)
Definition crawl_start {L} : M (L * State) unit :=
  q <- on_self load_queue ;;
  on_self (modify (set_queue q)) ;;
  if nonempty q then ret tt
  else queue_append (start_url cfg, 0).

(** The statements of the [try] block after the loop. *)
Definition crawl_finish : M Frame unit :=
  f <- get ;;
  if negb (nonempty (queue (snd f))) && queue_file_exists (snd f)
  then on_self remove_queue_file
  else ret tt.

(** [except Exception as e: ...; return results] *)
Definition crawl_except (e : Exn) (f : Frame) : Frame :=
  (fst f, set_log (log (snd f) ++ [ErrCrawling e]) (snd f)).

(** [comprehensive_crawler]: the returned list and the state it leaves. *)
Definition comprehensive_crawler (fuel : nat) (s : State) : option Frame :=
  match crawl_start ([], s) with
  | (Raise e, f1) => Some (crawl_except e f1)
  | (Ok _, f1) =>
      match crawl_loop fuel f1 with
      | None => None
      | Some (Raise e, f2) => Some (crawl_except e f2)
      | Some (Ok _, f2) =>
          match crawl_finish f2 with
          | (Raise e, f3) => Some (crawl_except e f3)
          | (Ok _, f3) => Some f3
          end
      end
  end.

(** ** The concurrent crawl loop *)

(** The local state of the generator: the items it has yielded. *)
Definition GenFrame : Type := (list (PyVal * PyVal) * State)%type.

Definition yield (item : PyVal * PyVal) : M GenFrame unit :=
  modify (fun f : GenFrame => (fst f ++ [item], snd f)).

(** [ThreadPoolExecutor(max_workers)] *)
Definition ThreadPoolExecutor {St} (max_workers : Z) : M St unit :=
  if max_workers <=? 0 then raise ValueError else ret tt.

(** What a thread of the pool sees of [self.conn]: the connection belongs
    to the main thread, so each of its calls raises
    sqlite3.ProgrammingError before it reaches the database.
    [process_url] makes at most five calls (and on such a thread it stops
    at the first, which is outside any [try]). *)
Definition foreign_thread_tape : list bool := repeat true 5.

(** A worker runs [process_url] on a thread of the pool; what it returns or
    raises is kept in the future.  Its calls on the connection do not
    reach the database, so the tape of the connection is as it was when
    the worker is done. *)
Definition run_in_pool (task : Entry) : M GenFrame (Res pytuple) :=
  fun f =>
    match process_url (fst task) (snd task)
            (set_faults foreign_thread_tape (snd f)) with
    | (r, s') => (Ok r, (fst f, set_faults (faults (snd f)) s'))
    end.

(** [future.result()] *)
Definition future_result {St} (r : Res pytuple) : M St pytuple :=
  match r with
  | Ok t => ret t
  | Raise e => raise e
  end.

Definition enqueue_link (link : string) (depth : Z) : M GenFrame unit :=
  f <- get ;;
  if bool_decide (link ∉ visited (snd f)) && (link_count (snd f) <? max_links cfg)
  then queue_append (link, depth + 1)
  else ret tt.

(** The body of [for future in as_completed(futures)], after
    [futures.pop(future)]. *)
Definition on_completed (task : Entry) (outcome : Res pytuple) : M GenFrame unit :=
  let '(url, depth) := task in
  try_except
    (result <- future_result outcome ;;
     if tuple_truthy result
     then
       t <- unpack2 result ;;
       let '(title, content) := t in
       on_self (modify (fun s => set_link_count (link_count s + 1) s)) ;;
       yield (title, content) ;;
       f <- get ;;
       if (link_count (snd f) <? max_links cfg) && (depth + 1 <=? max_depth cfg)
       then
         page <- tuple_item result 1 ;;
         links <- on_self (extract_links page) ;;
         for_each links (fun link => enqueue_link link depth)
       else ret tt
     else ret tt)
    (fun e => on_self (logger_error (ErrProcessing url e))).

(** [comprehensive_crawler_threaded], driven to exhaustion.  The tasks of
    the batch are run one after the other in the order in which they
    complete, each followed by the handling of its result. *)
Definition comprehensive_crawler_threaded : M GenFrame unit :=
  crawl_start ;;
  ThreadPoolExecutor (max_threads cfg) ;;
  f <- get ;;
  let futures := queue (snd f) in
  (if nonempty futures
   then
     for_each (as_completed E futures)
       (fun task =>
          outcome <- run_in_pool task ;;
          on_completed task outcome) ;;
     f <- get ;;
     on_self (save_queue (queue (snd f)))
   else ret tt) ;;
  f <- get ;;
  if negb (nonempty (queue (snd f))) && queue_file_exists (snd f)
  then on_self remove_queue_file
  else ret tt.

End Scraper.

(** ** A reference serializer

    Any pair of functions can stand for [pickle.dumps] and [pickle.loads] in
    [Env]; this one is a small self-delimiting byte format, used to run the
    model on concrete inputs. *)

Module RefPickle.

Fixpoint dump_nat (n : nat) : list byte :=
  match n with
  | O => [x00]
  | S n' => x01 :: dump_nat n'
  end.

Fixpoint dump_str (s : string) : list byte :=
  match s with
  | EmptyString => [x00]
  | String c s' => x01 :: byte_of_ascii c :: dump_str s'
  end.

Definition dump_int (z : Z) : list byte :=
  (if z <? 0 then x01 else x00) :: dump_nat (Z.abs_nat z).

Fixpoint dumps (q : Frontier) : list byte :=
  match q with
  | [] => [x00]
  | (url, d) :: q' => x01 :: dump_str url ++ dump_int d ++ dumps q'
  end.

Fixpoint load_nat (bs : list byte) : option (nat * list byte) :=
  match bs with
  | x00 :: rest => Some (O, rest)
  | x01 :: rest =>
      match load_nat rest with
      | Some (n, rest') => Some (S n, rest')
      | None => None
      end
  | _ => None
  end.

Fixpoint load_str (bs : list byte) : option (string * list byte) :=
  match bs with
  | x00 :: rest => Some (EmptyString, rest)
  | x01 :: c :: rest =>
      match load_str rest with
      | Some (s, rest') => Some (String (ascii_of_byte c) s, rest')
      | None => None
      end
  | _ => None
  end.

Definition load_int (bs : list byte) : option (Z * list byte) :=
  match bs with
  | x00 :: rest =>
      match load_nat rest with
      | Some (n, rest') => Some (Z.of_nat n, rest')
      | None => None
      end
  | x01 :: rest =>
      match load_nat rest with
      | Some (n, rest') => Some (- Z.of_nat n, rest')
      | None => None
      end
  | _ => None
  end.

Fixpoint load_entries (fuel : nat) (bs : list byte) : option Frontier :=
  match fuel with
  | O => None
  | S fuel' =>
      match bs with
      | [x00] => Some []
      | x01 :: rest =>
          match load_str rest with
          | Some (url, rest1) =>
              match load_int rest1 with
              | Some (d, rest2) =>
                  match load_entries fuel' rest2 with
                  | Some q => Some ((url, d) :: q)
                  | None => None
                  end
              | None => None
              end
          | None => None
          end
      | _ => None
      end
  end.

Definition loads (bs : list byte) : option Frontier :=
  load_entries (List.length bs) bs.

End RefPickle.

(** ** A small web, to run the model on *)

Module Demo.

Definition root : string := "https://ex.com".

Definition home_html : string := "<a>a</a><a>b</a><a>c</a>".

Definition home_soup : Soup :=
  mkSoup (Some (Some "Home"%string)) ["Welcome"%string; "to ex.com"%string]
         ["https://ex.com/a"%string; "https://other.com/b"%string;
          "https://ex.com/c"%string].

Definition leaf_soup : Soup := mkSoup None [] [].

(** Every page under the root exists; the home page links to three
    others, every other page is empty. *)
Definition browser (n : nat) (url : string) : option string :=
  if String.eqb url root then Some home_html
  else if String.prefix root url then Some ("<p>" ++ url ++ "</p>")%string
  else None.

Definition html_parser (html : string) : option Soup :=
  if String.eqb html home_html then Some home_soup else Some leaf_soup.

Definition env : Env :=
  mkEnv browser html_parser (fun s => Z.of_nat (String.length s)) 999%nat
        (fun _ => Some 3%nat) (fun _ => true) (fun _ => true)
        RefPickle.dumps RefPickle.loads (fun tasks => rev tasks).

(** The same collaborators over an SQLite library that allows two host
    parameters in a statement. *)
Definition strict_env : Env :=
  mkEnv browser html_parser (fun s => Z.of_nat (String.length s)) 2%nat
        (fun _ => Some 3%nat) (fun _ => true) (fun _ => true)
        RefPickle.dumps RefPickle.loads (fun tasks => rev tasks).

Definition config (links depth : Z) : Config :=
  mkConfig root links depth 3 true.

(** A freshly constructed scraper: nothing visited, an empty table, no
    queue file. *)
Definition fresh : State :=
  mkState ∅ 0 [] ∅ [] None (Some ∅) [] [].

(** A fresh scraper whose metadata store already has a record for [url]. *)
Definition seen (url : string) : State :=
  set_table {[ url := mkRecord 0 0 None false ]} fresh.

(** A fresh scraper that finds the snapshot [q] on disk. *)
Definition resumed (q : Frontier) : State :=
  set_queue_file (Some (RefPickle.dumps q)) fresh.

End Demo.

(** ** The link filter as the specification words it *)

(** Keep the hrefs that start with the root prefix, drop those the metadata
    store already knows, keep the order. *)
Definition filterLinks_spec (rawHrefs : list string) (rootPrefix : string)
    (store : gmap string URLRecord) : list string :=
  List.filter
    (fun href => String.prefix rootPrefix href && negb (Sql.select_one href store))
    rawHrefs.

(** A new [WebScraper] object over the resources a previous one left behind:
    [__init__] resets the session, the database and the files stay. *)
Definition restart (s : State) : State :=
  set_queue [] (set_link_count 0 (set_visited ∅ s)).

(** ** Predicates used in the statements *)

(** The URLs for which the completion handler of the concurrent loop logged
    "Error processing ...", oldest first. *)
Fixpoint processing_errors (l : list LogRecord) : list string :=
  match l with
  | [] => []
  | ErrProcessing url _ :: l' => url :: processing_errors l'
  | _ :: l' => processing_errors l'
  end.

(** [m] relates every state to the state it leaves, whether it returns or
    raises. *)
Definition keeps {St A} (R : St -> St -> Prop) (m : M St A) : Prop :=
  forall s, R s (snd (m s)).

(** The session ([visited], [link_count], [queue]), the queue file and the
    "Error processing" records are untouched. *)
Definition session_kept (s s' : State) : Prop :=
  visited s' = visited s /\
  link_count s' = link_count s /\
  queue s' = queue s /\
  queue_file s' = queue_file s /\
  processing_errors (log s') = processing_errors (log s).

(** As [session_kept], but entries may have been appended to the queue. *)
Definition frontier_grows (s s' : State) : Prop :=
  visited s' = visited s /\
  link_count s' = link_count s /\
  (exists l, queue s' = queue s ++ l) /\
  queue_file s' = queue_file s /\
  processing_errors (log s') = processing_errors (log s).

(** The browser was called for [url] only, if at all. *)
Definition fetches_only (url : string) (s s' : State) : Prop :=
  exists l, fetch_log s' = fetch_log s ++ l /\ Forall (eq url) l.

(** A relation on [self], lifted to a function that leaves its local
    variables alone. *)
Definition locals_kept {L} (R : State -> State -> Prop) (f f' : L * State) : Prop :=
  fst f' = fst f /\ R (snd f) (snd f').

(** Every value [m] returns satisfies [P]. *)
Definition returns {St A} (P : A -> Prop) (m : M St A) : Prop :=
  forall s a s', m s = (Ok a, s') -> P a.

(** The frontier a crawl starts from: the restored snapshot, or the seed
    alone when there is no usable snapshot or it is empty. *)
Definition initial_frontier (E : Env) (cfg : Config) (s : State) : Frontier :=
  queue (snd (snd (crawl_start E cfg (@nil pytuple, s)))).

(** [iterates E cfg f f']: the [while] loop of the sequential crawler,
    entered with the frame [f], is back at its head with the frame [f']
    after some iterations that ran to their end. *)
Inductive iterates (E : Env) (cfg : Config) : Frame -> Frame -> Prop :=
  | iterates_here f : iterates E cfg f f
  | iterates_step f f1 f2 :
      loop_guard cfg f = true ->
      crawl_iter E cfg f = (Ok tt, f1) ->
      iterates E cfg f1 f2 ->
      iterates E cfg f f2.

(** A row keeps its content hash, depth and title; [processed] can only
    turn true. *)
Definition row_kept (r r' : URLRecord) : Prop :=
  content_hash r' = content_hash r /\
  depth r' = depth r /\
  title r' = title r /\
  (processed r = true -> processed r' = true).

(** No row of [url_metadata] is removed or overwritten. *)
Definition store_grows (s s' : State) : Prop :=
  forall u r, table s !! u = Some r ->
    exists r', table s' !! u = Some r' /\ row_kept r r'.

(** No row is created for a URL other than [url]. *)
Definition adds_only (url : string) (s s' : State) : Prop :=
  forall u, u <> url -> table s !! u = None -> table s' !! u = None.

(** A relation on [self], seen from a function with local variables. *)
Definition on_state {L} (R : State -> State -> Prop) (f f' : L * State) : Prop :=
  R (snd f) (snd f').

(** The queue a crawl starts from when it loads [q]. *)
Definition seeded (cfg : Config) (q : Frontier) : Frontier :=
  if nonempty q then q else [(start_url cfg, 0)].

(** Every exception [m] raises satisfies [P]. *)
Definition raises_only {St A} (P : Exn -> Prop) (m : M St A) : Prop :=
  forall s e s', m s = (Raise e, s') -> P e.

(** The table of the metadata store is untouched. *)
Definition table_kept (s s' : State) : Prop := table s' = table s.

(** The browser was not called. *)
Definition fetch_log_kept (s s' : State) : Prop := fetch_log s' = fetch_log s.

(** What the statements of the loop body after [process_url] leave alone:
    the table, the collection, the fetch log and [visited]. *)
Definition crawl_tail_kept (s s' : State) : Prop :=
  table s' = table s /\
  fetch_log s' = fetch_log s /\
  visited s' = visited s /\
  collection s' = collection s.

(** Rows are kept, and every row that is new has depth 0 and no title. *)
Definition records_at_depth_zero (s s' : State) : Prop :=
  store_grows s s' /\
  forall u r', table s !! u = None -> table s' !! u = Some r' ->
    depth r' = 0 /\ title r' = None.

(** The browser was called for pairwise distinct URLs, none of which was in
    [visited] before and all of which are in [visited] now. *)
Definition fetches_fresh (s s' : State) : Prop :=
  (visited s ⊆ visited s') /\
  exists l, fetch_log s' = fetch_log s ++ l /\
            NoDup l /\
            forall u, u ∈ l -> (u ∉ visited s) /\ (u ∈ visited s').

(** As many calls of the browser as links counted. *)
Definition fetches_counted (s s' : State) : Prop :=
  Z.of_nat (List.length (fetch_log s')) - Z.of_nat (List.length (fetch_log s))
  = link_count s' - link_count s.

(** The queue that [load_queue] finds on disk. *)
Definition stored_frontier (E : Env) (s : State) : Frontier :=
  match queue_file s with
  | Some bytes =>
      match pickle_loads E bytes with
      | Some q => q
      | None => []
      end
  | None => []
  end.


(** Entries were appended to the queue, all of which satisfy [P]. *)
Definition appends (P : Entry -> Prop) (s s' : State) : Prop :=
  exists l, queue s' = queue s ++ l /\ Forall P l.

(** A link discovered on a page of depth [d]: it starts with [start_url],
    it is one level deeper than the page, and that is within [max_depth]. *)
Definition discovered (cfg : Config) (d : Z) (e : Entry) : Prop :=
  String.prefix (start_url cfg) (fst e) = true /\
  snd e = d + 1 /\
  d + 1 <= max_depth cfg.

(** An entry of the frontier the run started from, or a link in scope and
    within [max_depth]. *)
Definition entry_ok (cfg : Config) (q0 : Frontier) (e : Entry) : Prop :=
  e ∈ q0 \/
  (String.prefix (start_url cfg) (fst e) = true /\ snd e <= max_depth cfg).

(** The items of [results] and the links counted go together. *)
Definition results_counted (f f' : Frame) : Prop :=
  Z.of_nat (List.length (fst f')) - Z.of_nat (List.length (fst f))
  = link_count (snd f') - link_count (snd f).

(** The frame a run of the sequential crawler on the demo web ends in
    (the start frame when the fuel does not suffice). *)
Definition demo_run (cfg : Config) (fuel : nat) (s : State) : Frame :=
  default ([], s) (comprehensive_crawler Demo.env cfg fuel s).

(** The hrefs of a page: those of the tree the parser builds, none when it
    rejects the markup. *)
Definition page_anchors (E : Env) (html : string) : list string :=
  match html_parser E html with
  | Some soup => anchors soup
  | None => []
  end.


(** The URLs of the entries of depth 0, in the order of the entries. *)
Definition seeds (tasks : list Entry) : list string :=
  map fst (List.filter (fun task : Entry => snd task =? 0) tasks).

(** ** The script scrape.py *)

(** The arguments scrape.py constructs its scraper with. *)
Definition scrape_config : Config :=
  mkConfig "https://www.mindtickle.com" 5 5 3 true.

(** scrape.py: construct a scraper over whatever the disk, the database and
    Chroma hold, and call [comprehensive_crawler]. *)
Definition scrape (E : Env) (fuel : nat) (world : State) : option Frame :=
  comprehensive_crawler E scrape_config fuel (restart world).

(** * Properties *)

(** ** Generic facts about the monad *)

Ltac unfold_m :=
  unfold bind, ret, raise, try_except, get, modify, on_self, logger_error in *.

Lemma bind_ok {St A B} (m : M St A) (k : A -> M St B) s a s' :
  m s = (Ok a, s') -> bind m k s = k a s'.
Proof. intros H. unfold bind. now rewrite H. Qed.

Lemma bind_raise {St A B} (m : M St A) (k : A -> M St B) s e s' :
  m s = (Raise e, s') -> bind m k s = (Raise e, s').
Proof. intros H. unfold bind. now rewrite H. Qed.

(** What one SQLite round trip can do to the state: consume an entry of the
    fault tape and, when it does not raise, run the statement. *)
Lemma sqlite_exec_cases {A}
    (f : gmap string URLRecord -> Res A * gmap string URLRecord) s :
  (exists tape, sqlite_exec f s = (Raise SqliteError, set_faults tape s)) \/
  (exists tape, sqlite_exec f s =
     (fst (f (table s)), set_table (snd (f (table s))) (set_faults tape s))).
Proof.
  unfold sqlite_exec. destruct s as [v n q t fl qf c fe lg]; simpl.
  destruct fl as [|[] tape]; simpl.
  - right. exists []. now destruct (f t).
  - left. now exists tape.
  - right. exists tape. now destruct (f t).
Qed.

Lemma sqlite_exec_healthy {A}
    (f : gmap string URLRecord -> Res A * gmap string URLRecord) s :
  faults s = [] ->
  sqlite_exec f s = (fst (f (table s)), set_table (snd (f (table s))) s).
Proof.
  intros H. unfold sqlite_exec. rewrite H. now destruct (f (table s)).
Qed.

Lemma sqlite_call_cases {A} (f : gmap string URLRecord -> A * gmap string URLRecord) s :
  (exists tape, sqlite_call f s = (Raise SqliteError, set_faults tape s)) \/
  (exists tape, sqlite_call f s =
     (Ok (fst (f (table s))), set_table (snd (f (table s))) (set_faults tape s))).
Proof.
  unfold sqlite_call.
  destruct (sqlite_exec_cases (fun tbl => let (a, tbl') := f tbl in (Ok a, tbl')) s)
    as [[tape H]|[tape H]]; [left|right]; exists tape; rewrite H; [reflexivity|].
  now destruct (f (table s)).
Qed.

Lemma sqlite_call_healthy {A} (f : gmap string URLRecord -> A * gmap string URLRecord) s :
  faults s = [] ->
  sqlite_call f s = (Ok (fst (f (table s))), set_table (snd (f (table s))) s).
Proof.
  intros H. unfold sqlite_call. rewrite sqlite_exec_healthy by exact H.
  now destruct (f (table s)).
Qed.

(** A string hash is an integer SQLite can store. *)
Lemma str_hash_sqlite_int E content : sqlite_int (str_hash E content) = true.
Proof.
  unfold sqlite_int, str_hash.
  pose proof (Z.mod_pos_bound (hash E content + 2 ^ 63) (2 ^ 64) eq_refl).
  apply andb_true_iff. split; [apply Z.leb_le | apply Z.ltb_lt]; lia.
Qed.

(** ** Metadata store *)

Lemma insert_or_ignore_idem url h1 d1 t1 h2 d2 t2 (tbl : gmap string URLRecord) :
  Sql.insert_or_ignore url h2 d2 t2 (Sql.insert_or_ignore url h1 d1 t1 tbl)
  = Sql.insert_or_ignore url h1 d1 t1 tbl.
Proof.
  unfold Sql.insert_or_ignore.
  destruct (tbl !! url) eqn:Hl.
  - now rewrite Hl.
  - now rewrite lookup_insert_eq.
Qed.

Lemma insert_or_ignore_lookup url h d t (tbl : gmap string URLRecord) :
  Sql.insert_or_ignore url h d t tbl !! url
  = Some (match tbl !! url with
          | Some r => r
          | None => mkRecord h d t false
          end).
Proof.
  unfold Sql.insert_or_ignore.
  destruct (tbl !! url) eqn:Hl.
  - exact Hl.
  - apply lookup_insert_eq.
Qed.

Lemma insert_or_ignore_other url url' h d t (tbl : gmap string URLRecord) :
  url <> url' ->
  Sql.insert_or_ignore url h d t tbl !! url' = tbl !! url'.
Proof.
  intros Hne. unfold Sql.insert_or_ignore.
  destruct (tbl !! url); [reflexivity|].
  now apply lookup_insert_ne.
Qed.

Lemma save_url_metadata_healthy url h d t s :
  faults s = [] ->
  sqlite_int h = true ->
  sqlite_int d = true ->
  save_url_metadata url h d t s
  = (Ok tt, set_table (Sql.insert_or_ignore url h d t (table s)) s).
Proof.
  intros H Hh Hd. unfold save_url_metadata.
  rewrite sqlite_exec_healthy by exact H. now rewrite Hh, Hd.
Qed.

(** What a call of [save_url_metadata] can do: raise and leave the table
    alone, or return after the insert. *)
Lemma save_url_metadata_cases url h d t s :
  exists tape,
    (exists e, save_url_metadata url h d t s = (Raise e, set_faults tape s)) \/
    (sqlite_int h = true /\ sqlite_int d = true /\
     save_url_metadata url h d t s
     = (Ok tt, set_table (Sql.insert_or_ignore url h d t (table s))
                 (set_faults tape s))).
Proof.
  unfold save_url_metadata.
  match goal with |- context [sqlite_exec ?f0] => set (f := f0) end.
  destruct (sqlite_exec_cases f s) as [[tape H]|[tape H]]; exists tape.
  - left. now exists SqliteError.
  - rewrite H. subst f. cbv beta.
    destruct (sqlite_int h && sqlite_int d) eqn:Hb; simpl.
    + right. apply andb_true_iff in Hb. tauto.
    + left. exists OverflowError. now destruct s.
Qed.

(** An integer that SQLite cannot store: the call raises OverflowError on a
    connection that does not fail, and no row is written. *)
Lemma save_url_metadata_overflow url h d t s :
  faults s = [] ->
  sqlite_int h && sqlite_int d = false ->
  save_url_metadata url h d t s = (Raise OverflowError, s).
Proof.
  intros H Hb. unfold save_url_metadata.
  rewrite sqlite_exec_healthy by exact H. rewrite Hb. simpl.
  f_equal. now destruct s.
Qed.

(** C5 (as amended): on a connection that does not fail, two calls of
    [save_url_metadata] for the same URL, with content hashes and depths
    that SQLite can store (integers of 64 bits with a sign), both return
    without an error, the second one changes nothing, and the table holds
    one record for the URL: the values of the first call when the table
    held no record for the URL before, and the record it already held
    otherwise.  (With an integer outside that range the call raises
    OverflowError and writes nothing: [save_url_metadata_overflow].) *)
Theorem save_url_metadata_twice url h1 d1 t1 h2 d2 t2 s :
  faults s = [] ->
  sqlite_int h1 = true -> sqlite_int d1 = true ->
  sqlite_int h2 = true -> sqlite_int d2 = true ->
  let s1 := snd (save_url_metadata url h1 d1 t1 s) in
  let s2 := snd (save_url_metadata url h2 d2 t2 s1) in
  fst (save_url_metadata url h1 d1 t1 s) = Ok tt /\
  fst (save_url_metadata url h2 d2 t2 s1) = Ok tt /\
  s2 = s1 /\
  table s2 !! url = Some (match table s !! url with
                          | Some r => r
                          | None => mkRecord h1 d1 t1 false
                          end).
Proof.
  intros Hf Hh1 Hd1 Hh2 Hd2 s1 s2. subst s2 s1.
  rewrite (save_url_metadata_healthy url h1 d1 t1 s Hf Hh1 Hd1). simpl.
  rewrite save_url_metadata_healthy by (trivial; destruct s; exact Hf). simpl.
  repeat split.
  - destruct s; simpl. unfold set_table; simpl. f_equal.
    apply insert_or_ignore_idem.
  - rewrite insert_or_ignore_idem. apply insert_or_ignore_lookup.
Qed.

Lemma save_url_metadata_twice_witness :
  faults Demo.fresh = [] /\
  sqlite_int 7 = true /\ sqlite_int 0 = true /\
  sqlite_int 9 = true /\ sqlite_int 1 = true /\
  table (snd (save_url_metadata Demo.root 9 1 (Some "Later"%string)
           (snd (save_url_metadata Demo.root 7 0 None Demo.fresh)))) !! Demo.root
  = Some (mkRecord 7 0 None false).
Proof.
  repeat (split; [reflexivity|]).
  exact (proj2 (proj2 (proj2
    (save_url_metadata_twice Demo.root 7 0 None 9 1 (Some "Later"%string)
       Demo.fresh eq_refl eq_refl eq_refl eq_refl eq_refl)))).
Defined.

(** C5 (as stated) fails on a store that already holds the URL: after two
    calls the record still has the values it had before the first call, not
    the values the first call passed. *)
Lemma save_url_metadata_keeps_earlier_record :
  let s0 := set_table {[ Demo.root := mkRecord 1 0 None false ]} Demo.fresh in
  let s1 := snd (save_url_metadata Demo.root 2 5 (Some "Home"%string) s0) in
  let s2 := snd (save_url_metadata Demo.root 2 5 (Some "Home"%string) s1) in
  table s2 !! Demo.root = Some (mkRecord 1 0 None false) /\
  table s2 !! Demo.root <> Some (mkRecord 2 5 (Some "Home"%string) false).
Proof.
  assert (H : table (snd (save_url_metadata Demo.root 2 5 (Some "Home"%string)
                (snd (save_url_metadata Demo.root 2 5 (Some "Home"%string)
                   (set_table {[ Demo.root := mkRecord 1 0 None false ]} Demo.fresh)))))
              !! Demo.root = Some (mkRecord 1 0 None false)) by (vm_compute; reflexivity).
  cbv zeta. split; [exact H|]. rewrite H. discriminate.
Qed.

Lemma is_url_visited_cases url s :
  (exists tape, is_url_visited url s = (Raise SqliteError, set_faults tape s)) \/
  (exists tape, is_url_visited url s
     = (Ok (Sql.select_one url (table s)), set_faults tape s)).
Proof.
  unfold is_url_visited.
  destruct (sqlite_call_cases (fun tbl => (Sql.select_one url tbl, tbl)) s)
    as [[tape H]|[tape H]]; [left|right]; exists tape; rewrite H; simpl.
  - reflexivity.
  - now destruct s.
Qed.

(** ** Processing one URL *)

Section ProcessUrl.

Variable E : Env.
Variable cfg : Config.

(** The short-circuit test at the head of [process_url] touches nothing
    but the fault tape. *)
Lemma process_url_guard_cases url (d : Z) s :
  let guard : M State bool :=
    if negb (d =? 0) then is_url_visited url else ret false in
  exists tape,
    snd (guard s) = set_faults tape s /\
    (fst (guard s) = Raise SqliteError \/
     fst (guard s) = Ok (negb (d =? 0) && Sql.select_one url (table s))).
Proof.
  simpl. destruct (d =? 0); simpl.
  - exists (faults s). split; [now destruct s | now right].
  - destruct (is_url_visited_cases url s) as [[tape H]|[tape H]];
      exists tape; rewrite H; simpl; auto.
Qed.

(** C6: when the browser returns no content for the URL (it raised, or the
    page source is empty), [process_url] leaves the [url_metadata] table
    and the Chroma collection as they were; in particular a URL without a
    record still has none. *)
Theorem process_url_fetch_failure_records_nothing url (d : Z) s :
  truthy (of_option (browser E (List.length (fetch_log s)) url)) = false ->
  table (snd (process_url E cfg url d s)) = table s /\
  collection (snd (process_url E cfg url d s)) = collection s /\
  (table s !! url = None -> table (snd (process_url E cfg url d s)) !! url = None).
Proof.
  intros Hfail.
  assert (Hmain : table (snd (process_url E cfg url d s)) = table s /\
                  collection (snd (process_url E cfg url d s)) = collection s).
  { unfold process_url.
    destruct (process_url_guard_cases url d s) as (tape & Hs & Hr).
    cbv zeta in Hs, Hr.
    match goal with |- context [bind _ ?k0] => set (k := k0) end.
    unfold bind.
    destruct ((if negb (d =? 0) then is_url_visited url else ret false) s)
      as [r s1] eqn:Hg.
    simpl in Hs, Hr. subst s1.
    destruct Hr as [-> | ->].
    - now destruct s.
    - subst k. cbv beta.
      destruct (negb (d =? 0) && Sql.select_one url (table s)).
      + now destruct s.
      + unfold fetch_with_headless_browser. unfold_m. simpl.
        replace (fetch_log (set_faults tape s)) with (fetch_log s)
          by now destruct s.
        rewrite Hfail. now destruct s. }
  destruct Hmain as [Ht Hc]. repeat split; trivial.
  intros Hnone. now rewrite Ht.
Qed.

(** C3 (as amended): [process_url] called with a depth other than 0 for a
    URL that has a record in the metadata store does not call the browser
    and changes neither the table nor the collection. *)
Theorem process_url_skips_recorded_url url (d : Z) s r :
  d <> 0 ->
  table s !! url = Some r ->
  fetch_log (snd (process_url E cfg url d s)) = fetch_log s /\
  table (snd (process_url E cfg url d s)) = table s /\
  collection (snd (process_url E cfg url d s)) = collection s /\
  (fst (process_url E cfg url d s) = Ok [PNone; PNone; PNone] \/
   fst (process_url E cfg url d s) = Raise SqliteError).
Proof.
  intros Hd Hrec.
  unfold process_url.
  destruct (process_url_guard_cases url d s) as (tape & Hs & Hr).
  cbv zeta in Hs, Hr.
  match goal with |- context [bind _ ?k0] => set (k := k0) end.
  unfold bind.
  destruct ((if negb (d =? 0) then is_url_visited url else ret false) s)
    as [g s1] eqn:Hg.
  simpl in Hs, Hr. subst s1.
  assert (Hsel : negb (d =? 0) && Sql.select_one url (table s) = true).
  { unfold Sql.select_one. rewrite Hrec.
    destruct (Z.eqb_spec d 0); [contradiction|reflexivity]. }
  rewrite Hsel in Hr.
  destruct Hr as [-> | ->]; subst k; simpl; destruct s; simpl; auto 6.
Qed.

End ProcessUrl.

Lemma process_url_fetch_failure_witness :
  truthy (of_option (browser Demo.env 0 "https://other.com/b")) = false /\
  table (snd (process_url Demo.env (Demo.config 30 10) "https://other.com/b" 1 Demo.fresh))
    !! "https://other.com/b" = None.
Proof.
  split; [reflexivity|].
  apply (process_url_fetch_failure_records_nothing Demo.env (Demo.config 30 10)
           "https://other.com/b" 1 Demo.fresh eq_refl).
  reflexivity.
Defined.

Lemma process_url_skips_recorded_url_witness :
  1 <> 0 /\
  table (Demo.seen "https://ex.com/a") !! "https://ex.com/a"
    = Some (mkRecord 0 0 None false) /\
  fetch_log (snd (process_url Demo.env (Demo.config 30 10) "https://ex.com/a" 1
                    (Demo.seen "https://ex.com/a"))) = [].
Proof.
  assert (Hd : 1 <> 0) by discriminate.
  assert (Hr : table (Demo.seen "https://ex.com/a") !! "https://ex.com/a"
               = Some (mkRecord 0 0 None false)) by (vm_compute; reflexivity).
  split; [exact Hd|]. split; [exact Hr|].
  exact (proj1 (process_url_skips_recorded_url Demo.env (Demo.config 30 10)
                  "https://ex.com/a" 1 (Demo.seen "https://ex.com/a") _ Hd Hr)).
Defined.

(** A second scraper object, created over the database the first crawl
    filled, fetches the seed again although the store has its record. *)
Lemma later_run_refetches_seed :
  let cfg := Demo.config 30 10 in
  let run s := snd <$> comprehensive_crawler Demo.env cfg 5 s in
  fetch_log <$> run Demo.fresh
    = Some [Demo.root; "https://ex.com/a"; "https://ex.com/c"]%string /\
  (fun s1 => Sql.select_one Demo.root (table s1)) <$> run Demo.fresh = Some true /\
  fetch_log <$> (run Demo.fresh ≫= fun s1 => run (restart s1))
    = Some [Demo.root; "https://ex.com/a"; "https://ex.com/c"; Demo.root]%string.
Proof.
  cbv zeta. split; [|split]; vm_compute; reflexivity.
Qed.

(** C3 (as stated) fails for an entry processed at depth 0: the seed URL
    has a record in the store, and [process_url] hands it to the browser
    anyway. *)
Lemma process_url_refetches_recorded_seed :
  is_Some (table (Demo.seen Demo.root) !! Demo.root) /\
  fetch_log (Demo.seen Demo.root) = [] /\
  fetch_log (snd (process_url Demo.env (Demo.config 30 10) Demo.root 0
                    (Demo.seen Demo.root))) = [Demo.root].
Proof.
  split; [|split].
  - exists (mkRecord 0 0 None false). vm_compute. reflexivity.
  - reflexivity.
  - vm_compute. reflexivity.
Qed.

(** ** Link filtering *)


Lemma elem_of_select_in u urls (tbl : gmap string URLRecord) :
  u ∈ Sql.select_in urls tbl <-> u ∈ urls /\ Sql.select_one u tbl = true.
Proof.
  unfold Sql.select_in, Sql.select_one.
  rewrite elem_of_filter, elem_of_dom.
  destruct (tbl !! u); split; intros [H1 H2]; split; auto.
  - now destruct H2.
  - discriminate.
Qed.

(** X1: On a connection that does not fail, [check_bulk_links] called with
    no more URLs than SQLite allows host parameters splits its argument
    into the URLs that have a record and those that have none, both in the
    order of the argument, and changes nothing; called with more, it logs
    the error of the query and returns two empty lists. *)
Lemma check_bulk_links_healthy E urls s :
  faults s = [] ->
  check_bulk_links E urls s
  = if (List.length urls <=? sqlite_max_variables E)%nat
    then (Ok (List.filter (fun u => Sql.select_one u (table s)) urls,
              List.filter (fun u => negb (Sql.select_one u (table s))) urls), s)
    else (Ok ([], []), set_log (log s ++ [ErrCheckBulk SqliteError]) s).
Proof.
  intros Hf. unfold check_bulk_links, try_except, bind.
  rewrite sqlite_exec_healthy by exact Hf.
  destruct (List.length urls <=? sqlite_max_variables E)%nat;
    [|unfold_m; simpl; now destruct s].
  simpl. unfold ret.
  replace (set_table (table s) s) with s by now destruct s.
  assert (Hgen : forall l : list string, (forall u, u ∈ l -> u ∈ urls) ->
    filter (fun u => u ∈ Sql.select_in urls (table s)) l
      = List.filter (fun u => Sql.select_one u (table s)) l /\
    filter (fun u => u ∉ Sql.select_in urls (table s)) l
      = List.filter (fun u => negb (Sql.select_one u (table s))) l).
  { induction l as [|u l IH]; intros Hsub; [split; reflexivity|].
    destruct IH as [IH1 IH2].
    { intros v Hv. apply Hsub. now right. }
    assert (Hu : u ∈ urls) by (apply Hsub; now left).
    rewrite !filter_cons. simpl.
    destruct (Sql.select_one u (table s)) eqn:Hsel; simpl.
    - rewrite decide_True by (apply elem_of_select_in; auto).
      rewrite decide_False
        by (intros Hn; apply Hn; apply elem_of_select_in; auto).
      now rewrite IH1, IH2.
    - rewrite decide_False
        by (intros Hin; apply elem_of_select_in in Hin; destruct Hin; congruence).
      rewrite decide_True
        by (intros Hin; apply elem_of_select_in in Hin; destruct Hin; congruence).
      now rewrite IH1, IH2. }
  destruct (Hgen urls) as [H1 H2]; [auto|]. now rewrite H1, H2.
Qed.


(** C1: on the hrefs of the specification's example, with the first of them
    already in the metadata store, [check_bulk_links] reports it as known,
    the filter the specification describes returns the third href only, and
    [extract_links] returns the first and the third. *)
Theorem extract_links_keeps_recorded_link :
  let a := "https://ex.com/a"%string in
  let b := "https://other.com/b"%string in
  let c := "https://ex.com/c"%string in
  let s := Demo.seen a in
  let cfg := Demo.config 30 10 in
  page_anchors Demo.env Demo.home_html = [a; b; c] /\
  is_Some (table s !! a) /\
  fst (check_bulk_links Demo.env [a; c] s) = Ok ([a], [c]) /\
  filterLinks_spec [a; b; c] (start_url cfg) (table s) = [c] /\
  fst (extract_links Demo.env cfg (PStr Demo.home_html) s) = Ok [a; c].
Proof.
  cbv zeta. split; [|split; [|split; [|split]]].
  - reflexivity.
  - exists (mkRecord 0 0 None false). vm_compute. reflexivity.
  - vm_compute. reflexivity.
  - vm_compute. reflexivity.
  - vm_compute. reflexivity.
Qed.

(** ** Frontier persistence *)

(** C4: a frontier written by [save_queue] and read back by [load_queue]
    is the same sequence of [(url, depth)] pairs, in the same order,
    whenever unpickling inverts pickling on it. *)
Theorem load_queue_after_save_queue E (F : Frontier) s :
  pickle_loads E (pickle_dumps E F) = Some F ->
  load_queue E (snd (save_queue E F s)) = (Ok F, snd (save_queue E F s)).
Proof.
  intros Hp. unfold load_queue, save_queue. unfold_m. simpl.
  now rewrite Hp.
Qed.

Lemma load_queue_after_save_queue_witness :
  let F := [("https://ex.com/a"%string, 1); ("https://ex.com/c"%string, 1)] in
  pickle_loads Demo.env (pickle_dumps Demo.env F) = Some F /\
  fst (load_queue Demo.env (snd (save_queue Demo.env F Demo.fresh))) = Ok F.
Proof.
  cbv zeta.
  assert (Hp : pickle_loads Demo.env
                 (pickle_dumps Demo.env
                    [("https://ex.com/a"%string, 1); ("https://ex.com/c"%string, 1)])
               = Some [("https://ex.com/a"%string, 1); ("https://ex.com/c"%string, 1)])
    by (vm_compute; reflexivity).
  split; [exact Hp|].
  rewrite (load_queue_after_save_queue Demo.env _ Demo.fresh Hp). reflexivity.
Defined.

(** ** Frame rules *)

Section Keeps.

Context {St : Type} (R : St -> St -> Prop) `{!PreOrder R}.

Lemma keeps_ret {A} (a : A) : keeps R (ret a).
Proof. intros s. simpl. reflexivity. Qed.

Lemma keeps_raise {A} (e : Exn) : keeps R (@raise St A e).
Proof. intros s. simpl. reflexivity. Qed.

Lemma keeps_get : keeps R (@get St).
Proof. intros s. simpl. reflexivity. Qed.

Lemma keeps_bind {A B} (m : M St A) (k : A -> M St B) :
  keeps R m -> (forall a, keeps R (k a)) -> keeps R (bind m k).
Proof.
  intros Hm Hk s. unfold bind.
  specialize (Hm s). destruct (m s) as [[a|e] s1]; simpl in *.
  - etransitivity; [exact Hm | apply Hk].
  - exact Hm.
Qed.

Lemma keeps_try {A} (m : M St A) (h : Exn -> M St A) :
  keeps R m -> (forall e, keeps R (h e)) -> keeps R (try_except m h).
Proof.
  intros Hm Hh s. unfold try_except.
  specialize (Hm s). destruct (m s) as [[a|e] s1]; simpl in *.
  - exact Hm.
  - etransitivity; [exact Hm | apply Hh].
Qed.

Lemma keeps_for_each {A} (l : list A) (body : A -> M St unit) :
  (forall x, keeps R (body x)) -> keeps R (for_each l body).
Proof.
  intros Hb. induction l as [|x l IH]; simpl.
  - apply keeps_ret.
  - apply keeps_bind; auto.
Qed.

End Keeps.

Lemma keeps_on_self {L A} (R : State -> State -> Prop) (m : M State A) :
  keeps R m -> keeps (@locals_kept L R) (on_self m).
Proof.
  intros Hm [l s]. unfold on_self. simpl.
  specialize (Hm s). destruct (m s) as [r s1]. simpl in *. now split.
Qed.

#[local] Instance session_kept_preorder : PreOrder session_kept.
Proof.
  split.
  - intros s. unfold session_kept. auto.
  - intros s1 s2 s3 (A1 & A2 & A3 & A4 & A5) (B1 & B2 & B3 & B4 & B5).
    unfold session_kept. repeat split; congruence.
Qed.

#[local] Instance frontier_grows_preorder : PreOrder frontier_grows.
Proof.
  split.
  - intros s. unfold frontier_grows. repeat split; auto.
    exists []. now rewrite app_nil_r.
  - intros s1 s2 s3 (A1 & A2 & (l1 & A3) & A4 & A5) (B1 & B2 & (l2 & B3) & B4 & B5).
    unfold frontier_grows. repeat split; try congruence.
    exists (l1 ++ l2). rewrite B3, A3. now rewrite app_assoc.
Qed.

#[local] Instance fetches_only_preorder url : PreOrder (fetches_only url).
Proof.
  split.
  - intros s. exists []. split; [now rewrite app_nil_r | constructor].
  - intros s1 s2 s3 (l1 & A1 & A2) (l2 & B1 & B2).
    exists (l1 ++ l2). split.
    + rewrite B1, A1. now rewrite app_assoc.
    + apply Forall_app. now split.
Qed.

#[local] Instance locals_kept_preorder {L} (R : State -> State -> Prop)
  `{!PreOrder R} : PreOrder (@locals_kept L R).
Proof.
  split.
  - intros f. split; reflexivity.
  - intros f1 f2 f3 [A1 A2] [B1 B2]. split; [congruence|].
    etransitivity; eassumption.
Qed.

Lemma session_kept_grows s s' : session_kept s s' -> frontier_grows s s'.
Proof.
  intros (A1 & A2 & A3 & A4 & A5). repeat split; auto.
  exists []. now rewrite app_nil_r.
Qed.

Lemma processing_errors_app l1 l2 :
  processing_errors (l1 ++ l2) = processing_errors l1 ++ processing_errors l2.
Proof.
  induction l1 as [|r l1 IH]; simpl; [reflexivity|].
  destruct r; simpl; now rewrite ?IH.
Qed.

Ltac keeps_tac prim :=
  repeat first
    [ match goal with
      | |- keeps _ (ret _) => refine (keeps_ret _ _)
      | |- keeps _ (raise _) => refine (keeps_raise _ _)
      | |- keeps _ get => refine (keeps_get _)
      | |- keeps _ (bind _ _) => refine (keeps_bind _ _ _ _ _); [| intros ?]
      | |- keeps _ (try_except _ _) => refine (keeps_try _ _ _ _ _); [| intros ?]
      | |- keeps _ (for_each _ _) => refine (keeps_for_each _ _ _ _); intros ?
      end
    | prim
    | match goal with
      | |- keeps _ (if ?b then _ else _) => destruct b
      | |- keeps _ (match ?x with _ => _ end) => destruct x
      end ].

(** The methods below the crawl loops, for any relation that the updates of
    the database, of the collection, of the log (other than "Error
    processing") and of the fetch log respect. *)
Section Methods.

Variable E : Env.
Variable cfg : Config.
Variable R : State -> State -> Prop.
Context `{!PreOrder R}.

Hypothesis R_faults : forall s tape, R s (set_faults tape s).
Hypothesis R_table : forall s t, R s (set_table t s).
Hypothesis R_collection : forall s c, R s (set_collection c s).
Hypothesis R_log : forall s r,
  processing_errors [r] = [] -> R s (set_log (log s ++ [r]) s).

Lemma keeps_sqlite_exec {A}
    (f : gmap string URLRecord -> Res A * gmap string URLRecord) :
  keeps R (sqlite_exec f).
Proof.
  intros s.
  destruct (sqlite_exec_cases f s) as [[tape H]|[tape H]]; rewrite H; simpl.
  - apply R_faults.
  - etransitivity; [apply (R_faults s tape) | apply R_table].
Qed.

Lemma keeps_sqlite_call {A} (f : gmap string URLRecord -> A * gmap string URLRecord) :
  keeps R (sqlite_call f).
Proof. apply keeps_sqlite_exec. Qed.

Lemma keeps_logger_error r :
  processing_errors [r] = [] -> keeps R (logger_error r).
Proof. intros Hr s. unfold logger_error, modify. simpl. now apply R_log. Qed.

Ltac prim :=
  first [ apply keeps_sqlite_call
        | apply keeps_sqlite_exec
        | apply keeps_logger_error; reflexivity ].

Lemma keeps_is_url_visited url : keeps R (is_url_visited url).
Proof. unfold is_url_visited. prim. Qed.

Lemma keeps_save_url_metadata url h d t : keeps R (save_url_metadata url h d t).
Proof. unfold save_url_metadata. prim. Qed.

Lemma keeps_mark_url_processed url : keeps R (mark_url_processed url).
Proof. unfold mark_url_processed. keeps_tac prim. Qed.

Lemma keeps_check_bulk_links urls : keeps R (check_bulk_links E urls).
Proof. unfold check_bulk_links. keeps_tac prim. Qed.

Lemma keeps_extract_links page : keeps R (extract_links E cfg page).
Proof.
  unfold extract_links, BeautifulSoup.
  keeps_tac ltac:(first [prim | apply keeps_check_bulk_links]).
Qed.

Lemma keeps_extract_info soup : keeps R (extract_info soup).
Proof. unfold extract_info. keeps_tac prim. Qed.

Lemma keeps_is_already_indexed url : keeps R (is_already_indexed E url).
Proof.
  unfold is_already_indexed.
  keeps_tac ltac:(first [prim | apply keeps_is_url_visited]).
Qed.

Lemma keeps_collection_add url : keeps R (collection_add E url).
Proof.
  unfold collection_add.
  keeps_tac ltac:(first [prim | intros s; apply R_collection]).
Qed.

Lemma keeps_store_in_chroma t c url d h : keeps R (store_in_chroma E cfg t c url d h).
Proof.
  unfold store_in_chroma, generate_embedding.
  keeps_tac ltac:(first [ prim
                        | apply keeps_is_already_indexed
                        | apply keeps_save_url_metadata
                        | apply keeps_collection_add
                        | apply keeps_mark_url_processed ]).
Qed.

Variable url0 : string.
Hypothesis R_fetch : forall s,
  R s (set_fetch_log (fetch_log s ++ [url0]) s).

Lemma keeps_fetch : keeps R (fetch_with_headless_browser E url0).
Proof.
  intros s. unfold fetch_with_headless_browser. unfold_m. simpl.
  apply R_fetch.
Qed.

Lemma keeps_process_url d : keeps R (process_url E cfg url0 d).
Proof.
  unfold process_url, BeautifulSoup.
  keeps_tac ltac:(first [ prim
                        | apply keeps_is_url_visited
                        | apply keeps_fetch
                        | apply keeps_extract_info
                        | apply keeps_save_url_metadata
                        | apply keeps_store_in_chroma ]).
Qed.

End Methods.

Lemma session_kept_faults s tape : session_kept s (set_faults tape s).
Proof. destruct s. unfold session_kept. simpl. auto. Qed.

Lemma session_kept_table s t : session_kept s (set_table t s).
Proof. destruct s. unfold session_kept. simpl. auto. Qed.

Lemma session_kept_collection s c : session_kept s (set_collection c s).
Proof. destruct s. unfold session_kept. simpl. auto. Qed.

Lemma session_kept_fetch s url : session_kept s (set_fetch_log (fetch_log s ++ [url]) s).
Proof. destruct s. unfold session_kept. simpl. auto. Qed.

Lemma session_kept_log s r :
  processing_errors [r] = [] -> session_kept s (set_log (log s ++ [r]) s).
Proof.
  intros Hr. destruct s. unfold session_kept. simpl.
  rewrite processing_errors_app, Hr, app_nil_r. auto.
Qed.

Lemma process_url_session E cfg url d : keeps session_kept (process_url E cfg url d).
Proof.
  apply keeps_process_url; try typeclasses eauto;
    auto using session_kept_faults, session_kept_table, session_kept_collection,
               session_kept_log, session_kept_fetch.
Qed.

Lemma extract_links_session E cfg page : keeps session_kept (extract_links E cfg page).
Proof.
  apply keeps_extract_links; try typeclasses eauto;
    auto using session_kept_faults, session_kept_table, session_kept_log.
Qed.

Lemma is_url_visited_session url : keeps session_kept (is_url_visited url).
Proof.
  apply keeps_is_url_visited; try typeclasses eauto;
    auto using session_kept_faults, session_kept_table.
Qed.

Lemma process_url_fetches_only E cfg url d :
  keeps (fetches_only url) (process_url E cfg url d).
Proof.
  apply keeps_process_url; try typeclasses eauto.
  - intros s tape. exists []. destruct s; simpl. now rewrite app_nil_r.
  - intros s t. exists []. destruct s; simpl. now rewrite app_nil_r.
  - intros s c. exists []. destruct s; simpl. now rewrite app_nil_r.
  - intros s r _. exists []. destruct s; simpl. now rewrite app_nil_r.
  - intros s. exists [url]. destruct s; simpl. split; [reflexivity|].
    repeat constructor.
Qed.

(** ** Return values *)

Lemma returns_ret {St A} (P : A -> Prop) (a : A) : P a -> returns P (@ret St A a).
Proof. intros Hp s a' s' H. unfold ret in H. congruence. Qed.

Lemma returns_bind {St A B} (P : B -> Prop) (m : M St A) (k : A -> M St B) :
  (forall a, returns P (k a)) -> returns P (bind m k).
Proof.
  intros Hk s b s' H. unfold bind in H.
  destruct (m s) as [[a|e] s1]; [|discriminate].
  eapply Hk; eassumption.
Qed.

(** [process_url] returns a tuple of three components on every path. *)
Lemma process_url_arity E cfg url d :
  returns (fun t : pytuple => exists a b c, t = [a; b; c]) (process_url E cfg url d).
Proof.
  unfold process_url.
  apply returns_bind; intros skip. destruct skip.
  - apply returns_ret. eauto.
  - apply returns_bind; intros html. destruct (truthy html).
    + apply returns_bind; intros soup.
      apply returns_bind; intros [t c].
      apply returns_bind; intros _.
      apply returns_bind; intros _.
      apply returns_ret. eauto.
    + apply returns_ret. eauto.
Qed.

(** ** The concurrent crawl loop *)

Section Threaded.

Variable E : Env.
Variable cfg : Config.

(** Whatever the future holds, an exception or a tuple of three, the
    completion handler ends in its [except] branch: [future.result()]
    re-raises, and a tuple of three does not unpack into two names. *)
Lemma on_completed_always_fails task outcome ys s :
  (forall t, outcome = Ok t -> exists a b c, t = [a; b; c]) ->
  exists e,
    on_completed E cfg task outcome (ys, s)
    = (Ok tt, (ys, set_log (log s ++ [ErrProcessing (fst task) e]) s)).
Proof.
  intros Harity. destruct task as [url d]. destruct outcome as [t|e].
  - destruct (Harity t eq_refl) as (a & b & c & ->).
    exists ValueError. reflexivity.
  - exists e. reflexivity.
Qed.

Lemma extract_info_cases soup s :
  exists t c s',
    extract_info soup s = (Ok (t, c), s') /\
    (s' = s \/ s' = set_log (log s ++ [ErrExtractInfo AttributeError]) s).
Proof.
  unfold extract_info, try_except, bind.
  destruct (soup_title soup) as [[t|]|]; unfold_m; do 3 eexists;
    (split; [reflexivity|]); auto.
Qed.

(** On a thread whose calls on the connection raise, [process_url] makes
    at most one of them: it changes neither the table nor the collection,
    it calls the browser exactly when the depth is 0, and it returns only
    when the fetch has failed. *)
Lemma process_url_foreign_thread url d s tape :
  faults s = true :: tape ->
  exists r s',
    process_url E cfg url d s = (r, s') /\
    table s' = table s /\
    collection s' = collection s /\
    fetch_log s' = fetch_log s ++ (if d =? 0 then [url] else []) /\
    (faults s' = true :: tape \/ faults s' = tape) /\
    (forall t, r = Ok t -> d = 0 /\ exists html, truthy html = false /\
                                   t = [PNone; PNone; html]).
Proof.
  intros Hf. unfold process_url.
  destruct (d =? 0) eqn:Hd; cbn [negb].
  - apply Z.eqb_eq in Hd.
    unfold bind at 1. unfold ret at 1.
    unfold bind at 1. unfold fetch_with_headless_browser.
    unfold bind at 1. unfold get at 1. unfold bind at 1. unfold modify at 1.
    unfold ret at 1.
    set (s1 := set_fetch_log (fetch_log s ++ [url]) s).
    set (html := of_option (browser E (List.length (fetch_log s)) url)).
    assert (Hs1 : table s1 = table s /\ collection s1 = collection s /\
                  fetch_log s1 = fetch_log s ++ [url] /\
                  faults s1 = true :: tape) by (destruct s; simpl in *; auto).
    destruct Hs1 as (T1 & C1 & L1 & F1). clearbody s1.
    destruct (truthy html) eqn:Ht.
    + unfold BeautifulSoup. destruct html as [|page]; [discriminate|].
      destruct (html_parser E page) as [soup|].
      * unfold bind at 1. unfold ret at 1.
        destruct (extract_info_cases soup s1) as (t & c & s2 & Hi & Hs2).
        unfold bind at 1. rewrite Hi.
        assert (Hs2' : table s2 = table s /\ collection s2 = collection s /\
                       fetch_log s2 = fetch_log s ++ [url] /\
                       faults s2 = true :: tape).
        { destruct Hs2 as [->| ->]; [auto|]. destruct s1; simpl in *; auto. }
        destruct Hs2' as (T2 & C2 & L2 & F2). clear Hs2 Hi.
        unfold bind at 1. unfold save_url_metadata, sqlite_exec. rewrite F2.
        do 2 eexists. split; [reflexivity|].
        destruct s2; simpl in *. repeat split; auto; congruence.
      * unfold bind at 1. unfold raise at 1.
        do 2 eexists. split; [reflexivity|]. repeat split; auto; congruence.
    + unfold ret. do 2 eexists. split; [reflexivity|].
      split; [exact T1|]. split; [exact C1|]. split; [exact L1|].
      split; [now left|].
      intros t0 [= <-]. split; [exact Hd|]. eauto.
  - unfold bind at 1. unfold is_url_visited, sqlite_call, sqlite_exec. rewrite Hf.
    do 2 eexists. split; [reflexivity|].
    destruct s; simpl in *. rewrite app_nil_r. repeat split; auto; congruence.
Qed.

(** One task of the batch: the worker's [process_url], then the completion
    handler on the main thread. *)
Lemma pool_step task ys s :
  exists s',
    (outcome <- run_in_pool E cfg task ;; on_completed E cfg task outcome) (ys, s)
      = (Ok tt, (ys, s')) /\
    visited s' = visited s /\
    link_count s' = link_count s /\
    queue s' = queue s /\
    queue_file s' = queue_file s /\
    processing_errors (log s') = processing_errors (log s) ++ [fst task] /\
    fetch_log s' = fetch_log s ++ seeds [task] /\
    table s' = table s /\
    collection s' = collection s /\
    faults s' = faults s.
Proof.
  unfold bind at 1. unfold run_in_pool. cbn [snd fst].
  set (s0 := set_faults foreign_thread_tape s).
  pose proof (process_url_session E cfg (fst task) (snd task) s0) as Hs.
  pose proof (process_url_arity E cfg (fst task) (snd task) s0) as Ha.
  destruct (process_url_foreign_thread (fst task) (snd task) s0 (repeat true 4))
    as (r & s1 & Hp & T1 & C1 & L1 & _); [now destruct s|].
  rewrite Hp in Hs, Ha. rewrite Hp.
  cbn [snd] in Hs.
  destruct (on_completed_always_fails task r ys (set_faults (faults s) s1)) as [e He].
  { intros t ->. eapply Ha. reflexivity. }
  rewrite He. eexists. split; [reflexivity|].
  destruct Hs as (A1 & A2 & A3 & A4 & A5).
  unfold seeds. cbn [List.filter].
  subst s0. destruct s, s1; simpl in *.
  repeat split; auto.
  - rewrite processing_errors_app, A5. reflexivity.
  - rewrite L1. now destruct (snd task =? 0).
Qed.

Lemma seeds_cons task tasks : seeds (task :: tasks) = seeds [task] ++ seeds tasks.
Proof. unfold seeds. simpl. now destruct (snd task =? 0). Qed.

Lemma pool_batch tasks ys s :
  exists s',
    for_each tasks
      (fun task =>
         outcome <- run_in_pool E cfg task ;; on_completed E cfg task outcome)
      (ys, s)
      = (Ok tt, (ys, s')) /\
    visited s' = visited s /\
    link_count s' = link_count s /\
    queue s' = queue s /\
    queue_file s' = queue_file s /\
    processing_errors (log s') = processing_errors (log s) ++ map fst tasks /\
    fetch_log s' = fetch_log s ++ seeds tasks /\
    table s' = table s /\
    collection s' = collection s /\
    faults s' = faults s.
Proof.
  revert s. induction tasks as [|task tasks IH]; intros s.
  - exists s. unfold seeds. simpl. rewrite !app_nil_r. repeat split; auto.
  - destruct (pool_step task ys s)
      as (s1 & H1 & A1 & A2 & A3 & A4 & A5 & A6 & A7 & A8 & A9).
    destruct (IH s1) as (s2 & H2 & B1 & B2 & B3 & B4 & B5 & B6 & B7 & B8 & B9).
    exists s2. cbn [for_each]. unfold bind at 1. rewrite H1, H2.
    split; [reflexivity|].
    repeat split; try congruence.
    + rewrite B5, A5. rewrite <- app_assoc. reflexivity.
    + rewrite B6, A6, (seeds_cons task tasks). now rewrite app_assoc.
Qed.

End Threaded.

Lemma on_self_eq {L A} (m : M State A) (l : L) s r s' :
  m s = (r, s') -> on_self m (l, s) = (r, (l, s')).
Proof. intros H. unfold on_self. simpl. now rewrite H. Qed.

Lemma load_queue_cases E s :
  exists q s1,
    load_queue E s = (Ok q, s1) /\
    (s1 = s \/ s1 = set_log (log s ++ [ErrLoadQueue]) s).
Proof.
  unfold load_queue. unfold_m.
  destruct (queue_file s) as [bytes|].
  - destruct (pickle_loads E bytes) as [q|]; eauto.
  - eauto.
Qed.

(** The statements before the loop, shared by both crawl loops: the run
    starts from a non-empty queue, and nothing but the queue (and the log,
    when the snapshot is unreadable) has changed. *)
Lemma crawl_start_spec E cfg {L} (l : L) s :
  exists s1,
    crawl_start E cfg (l, s) = (Ok tt, (l, s1)) /\
    queue s1 = match fst (load_queue E s) with
               | Ok (e :: q) => e :: q
               | _ => [(start_url cfg, 0)]
               end /\
    nonempty (queue s1) = true /\
    visited s1 = visited s /\
    link_count s1 = link_count s /\
    queue_file s1 = queue_file s /\
    table s1 = table s /\
    fetch_log s1 = fetch_log s /\
    processing_errors (log s1) = processing_errors (log s).
Proof.
  destruct (load_queue_cases E s) as (q & s0 & Hl & Hs0).
  unfold crawl_start.
  rewrite (bind_ok _ _ _ _ _ (on_self_eq _ l _ _ _ Hl)).
  unfold bind at 1. unfold on_self at 1. unfold modify at 1. cbn [fst snd].
  assert (Hlog : processing_errors (log s0) = processing_errors (log s)).
  { destruct Hs0 as [->| ->]; [reflexivity|]. destruct s; simpl.
    rewrite processing_errors_app. simpl. now rewrite app_nil_r. }
  rewrite Hl. cbn [fst].
  destruct q as [|e q]; cbn [nonempty].
  - eexists. split; [reflexivity|].
    destruct Hs0 as [->| ->]; destruct s; simpl in *; auto 10.
  - eexists. split; [reflexivity|].
    destruct Hs0 as [->| ->]; destruct s; simpl in *; auto 10.
Qed.

Lemma initial_frontier_nonempty E cfg s :
  nonempty (initial_frontier E cfg s) = true.
Proof.
  unfold initial_frontier.
  destruct (crawl_start_spec E cfg (@nil pytuple) s) as (s1 & H & _ & Hne & _).
  rewrite H. exact Hne.
Qed.

(** C10: a run of [comprehensive_crawler_threaded] yields nothing, leaves
    [link_count], the queue it started from and the table unchanged, and
    hands to the pool exactly the tasks made from that queue.  When the pool
    can be made ([max_threads > 0]) each task ends in the "Error
    processing" record of the completion handler: the worker's calls on the
    connection raise, and a tuple of three components, the only kind
    [process_url] returns, does not unpack into two names; the browser is
    called once for each task of depth 0 and for no other, and the queue
    written to disk at the end is the queue the run started from.  When it cannot,
    the constructor of the pool raises before any task is made, and
    nothing is fetched, logged or saved. *)
Theorem threaded_crawler_yields_nothing E cfg s :
  let q0 := initial_frontier E cfg s in
  (forall url d s0 t s1,
      process_url E cfg url d s0 = (Ok t, s1) -> List.length t = 3%nat) /\
  exists r s',
    comprehensive_crawler_threaded E cfg ([], s) = (r, ([], s')) /\
    link_count s' = link_count s /\
    queue s' = q0 /\
    table s' = table s /\
    if max_threads cfg <=? 0
    then
      r = Raise ValueError /\
      queue_file s' = queue_file s /\
      processing_errors (log s') = processing_errors (log s) /\
      fetch_log s' = fetch_log s
    else
      r = Ok tt /\
      queue_file s' = Some (pickle_dumps E q0) /\
      processing_errors (log s')
        = processing_errors (log s) ++ map fst (as_completed E q0) /\
      exists l, fetch_log s' = fetch_log s ++ l /\
                l ≡ₚ seeds (as_completed E q0).
Proof.
  intros q0. split.
  { intros url d s0 t s1 H.
    destruct (process_url_arity E cfg url d s0 t s1 H) as (a & b & c & ->).
    reflexivity. }
  destruct (crawl_start_spec E cfg (@nil pytuple) s) as (s1' & Hst' & Hq' & _).
  assert (Hq0 : q0 = queue s1').
  { subst q0. unfold initial_frontier. now rewrite Hst'. }
  destruct (crawl_start_spec E cfg (@nil (PyVal * PyVal)) s)
    as (s1 & Hst & Hq & Hne & A1 & A2 & A3 & A4 & A5 & A6).
  rewrite <- Hq in Hq'. rewrite Hq' in Hq0. clear s1' Hst' Hq'.
  unfold comprehensive_crawler_threaded.
  rewrite (bind_ok _ _ _ _ _ Hst).
  unfold bind at 1. unfold ThreadPoolExecutor.
  destruct (max_threads cfg <=? 0).
  { unfold raise. do 2 eexists. split; [reflexivity|].
    subst q0. rewrite Hq0. repeat split; auto. }
  unfold ret at 1.
  unfold bind at 1. unfold get at 1. cbn [snd].
  rewrite Hne.
  destruct (pool_batch E cfg (as_completed E (queue s1)) [] s1)
    as (s2 & Hb & B1 & B2 & B3 & B4 & B5 & B6 & B7 & B8 & B9).
  unfold bind at 1. unfold bind at 1. rewrite Hb.
  unfold save_queue. unfold_m. cbn [fst snd].
  replace (nonempty (queue (set_queue_file (Some (pickle_dumps E (queue s2))) s2)))
    with true by (destruct s2; simpl in *; congruence).
  cbn [negb andb].
  do 2 eexists. split; [reflexivity|].
  subst q0. rewrite Hq0.
  destruct s2; simpl in *.
  split; [congruence|]. split; [congruence|]. split; [congruence|].
  split; [reflexivity|]. split; [congruence|]. split; [congruence|].
  exists (seeds (as_completed E (queue s1))). split; [congruence|reflexivity].
Qed.

(** C2: the concurrent loop hands every entry of the queue to the pool
    without a test of its depth or of the budget.  With [max_depth = -1]
    it fetches the seed, of depth 0, where the sequential loop fetches
    nothing; resumed from a snapshot of three entries of depth 0 with
    [max_links = 1] it fetches all three, where the sequential loop fetches
    one; and resumed from a snapshot that holds an entry of depth 7 with
    [max_depth = 2] it runs a task for the entry, which fails on the
    worker's first call on the connection and is logged, where the
    sequential loop drops the entry and logs nothing.  Nothing is counted
    or recorded by the concurrent loop in any of the three runs. *)
Theorem threaded_crawler_ignores_depth_and_budget :
  let a := "https://ex.com/a"%string in
  let c := "https://ex.com/c"%string in
  let d := "https://ex.com/d"%string in
  let deep := "https://ex.com/deep"%string in
  let run cfg s :=
    snd (snd (comprehensive_crawler_threaded Demo.env cfg ([], s))) in
  let sequential cfg s :=
    (fun f => (fetch_log (snd f), log (snd f)))
      <$> comprehensive_crawler Demo.env cfg 5 s in
  let s1 := run (Demo.config 30 (-1)) Demo.fresh in
  let s2 := run (Demo.config 1 10) (Demo.resumed [(a, 0); (c, 0); (d, 0)]) in
  let s3 := run (Demo.config 30 2) (Demo.resumed [(deep, 7)]) in
  fetch_log s1 = [Demo.root] /\
  sequential (Demo.config 30 (-1)) Demo.fresh = Some ([], []) /\
  fetch_log s2 ≡ₚ [a; c; d] /\
  sequential (Demo.config 1 10) (Demo.resumed [(a, 0); (c, 0); (d, 0)])
    = Some ([a], []) /\
  (fetch_log s3 = [] /\ processing_errors (log s3) = [deep]) /\
  sequential (Demo.config 30 2) (Demo.resumed [(deep, 7)]) = Some ([], []) /\
  Forall (fun s => link_count s = 0 /\ table s = ∅) [s1; s2; s3].
Proof.
  cbv zeta.
  split; [|split; [|split; [|split; [|split; [split|split]]]]];
    try (vm_compute; reflexivity).
  - match goal with |- ?l ≡ₚ _ =>
      replace l with (rev ["https://ex.com/a"; "https://ex.com/c"; "https://ex.com/d"]%string)
        by (vm_compute; reflexivity)
    end.
    symmetry. apply Permutation_rev.
  - repeat constructor; vm_compute; reflexivity.
Qed.

(** C7: started without a snapshot and with [max_links = 30], the concurrent
    loop ends after its only batch with the seed still in the queue and
    [link_count = 0], and leaves a snapshot that holds the seed; the
    sequential loop on the same input ends with an empty queue and no
    snapshot file. *)
Theorem threaded_crawler_exits_with_work_left :
  let cfg := Demo.config 30 10 in
  let s' := snd (snd (comprehensive_crawler_threaded Demo.env cfg ([], Demo.fresh))) in
  queue s' = [(Demo.root, 0)] /\
  link_count s' = 0 /\
  fetch_log s' = [Demo.root] /\
  queue_file s' = Some (pickle_dumps Demo.env [(Demo.root, 0)]) /\
  (fun f => (queue (snd f), queue_file (snd f)))
    <$> comprehensive_crawler Demo.env cfg 5 Demo.fresh
    = Some ([], None).
Proof.
  cbv zeta. split; [|split; [|split; [|split]]]; vm_compute; reflexivity.
Qed.

(** C8: resumed from a snapshot of two entries, the concurrent loop runs a
    task for each of them (both end in the "Error processing" record of the
    completion handler, neither page is fetched because the worker's first
    call on the connection raises) and then saves a snapshot that still
    holds both; started without a snapshot, it fetches the seed and then
    saves a snapshot that holds the seed.  The snapshot that the first
    iteration of the sequential loop saves no longer holds the entry it has
    processed. *)
Theorem threaded_crawler_snapshot_holds_processed_entries :
  let cfg := Demo.config 30 10 in
  let a := "https://ex.com/a"%string in
  let c := "https://ex.com/c"%string in
  let q := [(a, 1); (c, 1)] in
  let run s := snd (snd (comprehensive_crawler_threaded Demo.env cfg ([], s))) in
  (processing_errors (log (run (Demo.resumed q))) = [c; a] /\
   fetch_log (run (Demo.resumed q)) = [] /\
   (queue_file (run (Demo.resumed q)) ≫= pickle_loads Demo.env) = Some q) /\
  (processing_errors (log (run Demo.fresh)) = [Demo.root] /\
   fetch_log (run Demo.fresh) = [Demo.root] /\
   (queue_file (run Demo.fresh) ≫= pickle_loads Demo.env) = Some [(Demo.root, 0)]) /\
  (let s1 := snd (snd (crawl_iter Demo.env cfg ([], set_queue q Demo.fresh))) in
   fetch_log s1 = [a] /\
   (queue_file s1 ≫= pickle_loads Demo.env) = Some [(c, 1)]).
Proof.
  cbv zeta. repeat split; vm_compute; reflexivity.
Qed.

(** ** The sequential crawl loop *)

Lemma keeps_mono {St A} (R R' : St -> St -> Prop) (m : M St A) :
  (forall s s', R s s' -> R' s s') -> keeps R m -> keeps R' m.
Proof. intros Hi Hm s. apply Hi, Hm. Qed.

Section Sequential.

Variable E : Env.
Variable cfg : Config.

Lemma extract_links_returns page s :
  exists links s', extract_links E cfg page s = (Ok links, s').
Proof.
  unfold extract_links, try_except.
  match goal with |- context [match ?m s with _ => _ end] =>
    destruct (m s) as [[links|e] s1] end.
  - eauto.
  - unfold_m. eauto.
Qed.

Lemma queue_append_grows {L} e :
  keeps (@locals_kept L frontier_grows) (queue_append e).
Proof.
  intros [l s]. unfold queue_append, on_self, modify. simpl.
  split; [reflexivity|]. destruct s; unfold frontier_grows; simpl.
  repeat split; eauto.
Qed.

Lemma on_self_session_grows {L A} (m : M State A) :
  keeps session_kept m -> keeps (@locals_kept L frontier_grows) (on_self m).
Proof.
  intros Hm. apply keeps_mono with (R := locals_kept session_kept).
  - intros f f' [H1 H2]. split; [exact H1 | now apply session_kept_grows].
  - now apply keeps_on_self.
Qed.

Lemma consider_link_grows link d :
  keeps (locals_kept frontier_grows) (consider_link cfg link d).
Proof.
  unfold consider_link.
  keeps_tac ltac:(first [ apply queue_append_grows
                        | apply on_self_session_grows, is_url_visited_session ]).
Qed.

Lemma follow_links_grows result d :
  keeps (locals_kept frontier_grows) (follow_links E cfg result d).
Proof.
  unfold follow_links, tuple_item.
  keeps_tac ltac:(first [ apply consider_link_grows
                        | apply on_self_session_grows, extract_links_session ]).
Qed.

(** X16: An entry beyond [max_depth], or one whose URL is in [visited], is
    dropped from the queue and nothing else happens: no fetch, no record,
    no checkpoint. *)
Lemma crawl_iter_skip rs s url d rest :
  queue s = (url, d) :: rest ->
  (d >? max_depth cfg) || bool_decide (url ∈ visited s) = true ->
  crawl_iter E cfg (rs, s) = (Ok tt, (rs, set_queue rest s)).
Proof.
  intros Hq Hskip. unfold crawl_iter. unfold bind at 1. unfold get at 1.
  cbn [snd]. rewrite Hq. unfold bind at 1. unfold on_self at 1, modify at 1.
  cbn [fst snd].
  destruct (d >? max_depth cfg); [reflexivity|].
  simpl in Hskip. rewrite Hskip. reflexivity.
Qed.

(** X17: An entry that is processed: when the iteration runs to its end it has
    counted one more link, appended one result, appended links to the rest
    of the queue and saved that queue; when it raises, the queue file is
    as it was. *)
Lemma crawl_iter_process rs s url d rest :
  queue s = (url, d) :: rest ->
  (d >? max_depth cfg) || bool_decide (url ∈ visited s) = false ->
  exists r rs' s',
    crawl_iter E cfg (rs, s) = (r, (rs', s')) /\
    visited s' = {[url]} ∪ visited s /\
    (exists l, queue s' = rest ++ l) /\
    match r with
    | Ok _ =>
        link_count s' = link_count s + 1 /\
        (exists t, rs' = rs ++ [t]) /\
        queue_file s' = Some (pickle_dumps E (queue s'))
    | Raise _ =>
        queue_file s' = queue_file s /\
        (rs' = rs \/ exists t, rs' = rs ++ [t]) /\
        (link_count s' = link_count s \/ link_count s' = link_count s + 1)
    end.
Proof.
  intros Hq Hskip. apply orb_false_iff in Hskip. destruct Hskip as [Hd Hv].
  unfold crawl_iter. unfold bind at 1. unfold get at 1.
  cbn [snd]. rewrite Hq. unfold bind at 1. unfold on_self at 1, modify at 1.
  cbn [fst snd]. rewrite Hd, Hv.
  unfold bind at 1. unfold on_self at 1, modify at 1. cbn [fst snd].
  set (sA := set_visited _ _).
  assert (HA : visited sA = {[url]} ∪ visited s /\ queue sA = rest /\
               link_count sA = link_count s /\ queue_file sA = queue_file s).
  { subst sA. destruct s; simpl in *. auto. }
  destruct HA as (HA1 & HA2 & HA3 & HA4). clearbody sA.
  unfold bind at 1. unfold on_self at 1. cbn [fst snd].
  pose proof (process_url_session E cfg url 0 sA) as HB.
  pose proof (process_url_arity E cfg url 0 sA) as Har.
  destruct (process_url E cfg url 0 sA) as [[t|e] sB]; cbn [snd] in HB;
    destruct HB as (B1 & B2 & B3 & B4 & _).
  - destruct (Har t sB eq_refl) as (a & b & c & ->).
    unfold bind at 1.
    change (record_result [a; b; c] (rs, sB))
      with (@Ok unit tt, (rs ++ [[a; b; c]], set_link_count (link_count sB + 1) sB)).
    cbv iota beta.
    set (sC := set_link_count _ sB).
    assert (HC : visited sC = visited sB /\ queue sC = queue sB /\
                 link_count sC = link_count sB + 1 /\ queue_file sC = queue_file sB).
    { subst sC. destruct sB; simpl. auto. }
    destruct HC as (C1 & C2 & C3 & C4). clearbody sC.
    unfold bind at 1.
    pose proof (follow_links_grows [a; b; c] d (rs ++ [[a; b; c]], sC)) as HD.
    destruct (follow_links E cfg [a; b; c] d (rs ++ [[a; b; c]], sC))
      as [[[]|e] [rsD sD]]; unfold locals_kept, frontier_grows in HD;
      cbn [fst snd] in HD;
      destruct HD as (D0 & D1 & D2 & (l & D3) & D4 & _).
    + unfold save_queue. unfold_m. cbn [fst snd].
      do 3 eexists. split; [reflexivity|].
      destruct sD; simpl in *.
      repeat split; eauto; try congruence.
      exists l. rewrite D3, C2, B3, HA2. reflexivity.
    + do 3 eexists. split; [reflexivity|].
      repeat split; eauto.
      * rewrite D1, C1, B1, HA1. reflexivity.
      * exists l. rewrite D3, C2, B3, HA2. reflexivity.
      * rewrite D4, C4, B4, HA4. reflexivity.
      * right. rewrite D2, C3, B2, HA3. reflexivity.
  - do 3 eexists. split; [reflexivity|].
    split; [|split; [|split; [|split]]].
    + rewrite B1, HA1. reflexivity.
    + exists []. rewrite app_nil_r, B3, HA2. reflexivity.
    + rewrite B4, HA4. reflexivity.
    + now left.
    + left. rewrite B2, HA3. reflexivity.
Qed.

End Sequential.

Section SequentialLoop.

Variable E : Env.
Variable cfg : Config.

Lemma loop_guard_true f :
  loop_guard cfg f = true ->
  (exists url d rest, queue (snd f) = (url, d) :: rest) /\
  link_count (snd f) < max_links cfg.
Proof.
  unfold loop_guard. intros H. apply andb_true_iff in H. destruct H as [Hq Hl].
  split.
  - destruct (queue (snd f)) as [|[url d] rest]; [discriminate|eauto].
  - now apply Z.ltb_lt.
Qed.

Lemma loop_guard_false f :
  loop_guard cfg f = false ->
  queue (snd f) = [] \/ max_links cfg <= link_count (snd f).
Proof.
  unfold loop_guard. intros H. apply andb_false_iff in H. destruct H as [Hq|Hl].
  - left. now destruct (queue (snd f)).
  - right. now apply Z.ltb_ge.
Qed.

(** One iteration that runs to its end either drops the head of the queue
    and changes nothing else, or counts one more link. *)
Lemma crawl_iter_progress f f' :
  loop_guard cfg f = true ->
  crawl_iter E cfg f = (Ok tt, f') ->
  (link_count (snd f') = link_count (snd f) /\
   List.length (queue (snd f')) < List.length (queue (snd f)) /\
   fst f' = fst f /\
   queue_file (snd f') = queue_file (snd f) /\
   fetch_log (snd f') = fetch_log (snd f))%nat \/
  (link_count (snd f') = link_count (snd f) + 1 /\
   (exists t, fst f' = fst f ++ [t]) /\
   queue_file (snd f') = Some (pickle_dumps E (queue (snd f')))).
Proof.
  intros Hg Hit. destruct f as [rs s].
  destruct (loop_guard_true _ Hg) as [(url & d & rest & Hq) _]. cbn [snd] in Hq.
  destruct ((d >? max_depth cfg) || bool_decide (url ∈ visited s)) eqn:Hskip.
  - left. rewrite (crawl_iter_skip E cfg rs s url d rest Hq Hskip) in Hit.
    injection Hit as <-. cbn [fst snd]. rewrite Hq.
    destruct s; simpl. repeat split; auto.
  - right.
    destruct (crawl_iter_process E cfg rs s url d rest Hq Hskip)
      as (r & rs' & s' & H & _ & _ & Hr).
    rewrite H in Hit. injection Hit as -> <-.
    destruct Hr as (H1 & H2 & H3). cbn [fst snd]. auto.
Qed.

(** An iteration that raises has not written the queue file, and has
    appended at most its own result. *)
Lemma crawl_iter_raise f e f' :
  loop_guard cfg f = true ->
  crawl_iter E cfg f = (Raise e, f') ->
  queue_file (snd f') = queue_file (snd f) /\
  (fst f' = fst f \/ exists t, fst f' = fst f ++ [t]).
Proof.
  intros Hg Hit. destruct f as [rs s].
  destruct (loop_guard_true _ Hg) as [(url & d & rest & Hq) _]. cbn [snd] in Hq.
  destruct ((d >? max_depth cfg) || bool_decide (url ∈ visited s)) eqn:Hskip.
  - rewrite (crawl_iter_skip E cfg rs s url d rest Hq Hskip) in Hit. discriminate.
  - destruct (crawl_iter_process E cfg rs s url d rest Hq Hskip)
      as (r & rs' & s' & H & _ & _ & Hr).
    rewrite H in Hit. injection Hit as -> <-.
    destruct Hr as (H1 & H2 & _). cbn [fst snd]. auto.
Qed.

Lemma iterates_trans f1 f2 f3 :
  iterates E cfg f1 f2 -> iterates E cfg f2 f3 -> iterates E cfg f1 f3.
Proof.
  induction 1; intros H3; [exact H3|].
  eapply iterates_step; eauto.
Qed.

(** The loop ends normally only with its guard false, and with an
    exception only out of an iteration that started with the guard true. *)
Lemma crawl_loop_outcome fuel f r f' :
  crawl_loop E cfg fuel f = Some (r, f') ->
  match r with
  | Ok _ => iterates E cfg f f' /\ loop_guard cfg f' = false
  | Raise e =>
      exists f0, iterates E cfg f f0 /\ loop_guard cfg f0 = true /\
                 crawl_iter E cfg f0 = (Raise e, f')
  end.
Proof.
  revert f. induction fuel as [|fuel IH]; intros f H; simpl in H.
  - destruct (loop_guard cfg f) eqn:Hg; [discriminate|].
    injection H as <- <-. split; [constructor | exact Hg].
  - destruct (loop_guard cfg f) eqn:Hg.
    + destruct (crawl_iter E cfg f) as [[[]|e] f1] eqn:Hit.
      * specialize (IH f1 H). destruct r.
        -- destruct IH as [IH1 IH2]. split; [|exact IH2].
           eapply iterates_step; eauto.
        -- destruct IH as (f0 & I1 & I2 & I3). exists f0.
           split; [eapply iterates_step; eauto | auto].
      * injection H as <- <-. exists f. split; [constructor | auto].
    + injection H as <- <-. split; [constructor | exact Hg].
Qed.

(** The budget: [link_count] never passes [max_links]. *)
Lemma iterates_budget f f' :
  iterates E cfg f f' ->
  link_count (snd f) <= max_links cfg ->
  link_count (snd f') <= max_links cfg.
Proof.
  induction 1 as [f | f f1 f2 Hg Hit _ IH]; intros Hle; [exact Hle|].
  apply IH.
  destruct (loop_guard_true _ Hg) as [_ Hlt].
  destruct (crawl_iter_progress f f1 Hg Hit) as [(H1 & _) | (H1 & _)]; lia.
Qed.

(** Results are only ever appended. *)
Lemma iterates_results f f' :
  iterates E cfg f f' -> exists extra, fst f' = fst f ++ extra.
Proof.
  induction 1 as [f | f f1 f2 Hg Hit _ IH].
  - exists []. now rewrite app_nil_r.
  - destruct IH as [extra IH].
    destruct (crawl_iter_progress f f1 Hg Hit) as [(_ & _ & H1 & _) | (_ & [t H1] & _)].
    + exists extra. now rewrite IH, H1.
    + exists ([t] ++ extra). rewrite IH, H1. now rewrite <- app_assoc.
Qed.

(** The loop terminates: every processed entry uses up one unit of the
    budget, and every skipped entry shortens the queue. *)
Lemma crawl_loop_terminates f :
  exists fuel r f', crawl_loop E cfg fuel f = Some (r, f').
Proof.
  remember (Z.to_nat (max_links cfg - link_count (snd f))) as n eqn:Hn.
  assert (Hle : (Z.to_nat (max_links cfg - link_count (snd f)) <= n)%nat) by lia.
  clear Hn. revert f Hle.
  induction n as [|n IHn]; intros f Hle.
  - exists O. simpl. destruct (loop_guard cfg f) eqn:Hg; [|eauto].
    destruct (loop_guard_true _ Hg) as [_ Hlt]. lia.
  - remember (List.length (queue (snd f))) as m eqn:Hm.
    assert (Hlen : (List.length (queue (snd f)) <= m)%nat) by lia.
    clear Hm. revert f Hle Hlen.
    induction m as [|m IHm]; intros f Hle Hlen.
    + exists O. simpl. destruct (loop_guard cfg f) eqn:Hg; [|eauto].
      destruct (loop_guard_true _ Hg) as [(url & d & rest & Hq) _].
      rewrite Hq in Hlen. simpl in Hlen. lia.
    + destruct (loop_guard cfg f) eqn:Hg.
      * destruct (crawl_iter E cfg f) as [[[]|e] f1] eqn:Hit.
        -- destruct (loop_guard_true _ Hg) as [_ Hlt].
           destruct (crawl_iter_progress f f1 Hg Hit)
             as [(H1 & H2 & _) | (H1 & _)].
           ++ destruct (IHm f1) as (fuel & r & f' & H); [lia|lia|].
              exists (S fuel), r, f'. simpl. now rewrite Hg, Hit.
           ++ destruct (IHn f1) as (fuel & r & f' & H); [lia|].
              exists (S fuel), r, f'. simpl. now rewrite Hg, Hit.
        -- exists 1%nat, (Raise e), f1. simpl. now rewrite Hg, Hit.
      * exists O. simpl. rewrite Hg. eauto.
Qed.

(** X20: [comprehensive_crawler] returns for every state it is started in. *)
Lemma comprehensive_crawler_terminates s :
  exists fuel f, comprehensive_crawler E cfg fuel s = Some f.
Proof.
  unfold comprehensive_crawler.
  destruct (crawl_start E cfg ([], s)) as [[[]|e] f1]; [|exists O; eauto].
  destruct (crawl_loop_terminates f1) as (fuel & r & f2 & H).
  exists fuel. rewrite H. destruct r; [|eauto].
  destruct (crawl_finish f2) as [[[]|e] f3]; eauto.
Qed.

End SequentialLoop.

(** C9 (as amended): when an exception leaves the loop of
    [comprehensive_crawler], the call still returns: it returns the results
    accumulated so far, which are those of the iterations that ran to their
    end and at most one more, after logging the error.  Nothing is saved on
    this path: the queue file is what it was when the failing iteration
    began. *)
Theorem crawler_returns_results_on_error E cfg fuel s e f2 :
  let f1 := snd (crawl_start E cfg ([], s)) in
  crawl_loop E cfg fuel f1 = Some (Raise e, f2) ->
  comprehensive_crawler E cfg fuel s
    = Some (fst f2, set_log (log (snd f2) ++ [ErrCrawling e]) (snd f2)) /\
  exists f0,
    iterates E cfg f1 f0 /\
    crawl_iter E cfg f0 = (Raise e, f2) /\
    (fst f2 = fst f0 \/ exists t, fst f2 = fst f0 ++ [t]) /\
    queue_file (snd f2) = queue_file (snd f0).
Proof.
  intros f1 Hloop. split.
  - unfold comprehensive_crawler.
    destruct (crawl_start_spec E cfg (@nil pytuple) s) as (s1 & Hst & _).
    subst f1. rewrite Hst in *. cbn [snd] in Hloop. rewrite Hloop.
    reflexivity.
  - destruct (crawl_loop_outcome E cfg fuel f1 _ f2 Hloop) as (f0 & H1 & H2 & H3).
    exists f0. destruct (crawl_iter_raise E cfg f0 e f2 H2 H3) as [H4 H5].
    auto.
Qed.

Lemma crawler_returns_results_on_error_witness :
  let cfg := Demo.config 30 10 in
  let s := set_faults [false; false; false; false; false; false;
                       false; false; false; true] Demo.fresh in
  let f1 := snd (crawl_start Demo.env cfg ([], s)) in
  let f2 := snd (crawl_iter Demo.env cfg
                   (snd (crawl_iter Demo.env cfg
                           (snd (crawl_iter Demo.env cfg f1))))) in
  crawl_loop Demo.env cfg 5 f1 = Some (Raise SqliteError, f2) /\
  comprehensive_crawler Demo.env cfg 5 s
    = Some (fst f2, set_log (log (snd f2) ++ [ErrCrawling SqliteError]) (snd f2)).
Proof.
  cbv zeta.
  match goal with |- ?A /\ _ => assert (H : A) by (vm_compute; reflexivity) end.
  split; [exact H|].
  exact (proj1 (crawler_returns_results_on_error Demo.env (Demo.config 30 10) 5 _ _ _ H)).
Defined.

(** C9 (as stated) fails: a database error while the links of the first
    page are considered ends the crawl with one result returned and the
    error logged, the queue holds a link that was just discovered, and no
    queue file has been written. *)
Lemma crawler_error_leaves_frontier_unsaved :
  let cfg := Demo.config 30 10 in
  let s := set_faults [false; false; false; false; false; true] Demo.fresh in
  (fun f => (List.length (fst f), log (snd f), queue (snd f), queue_file (snd f)))
    <$> comprehensive_crawler Demo.env cfg 5 s
  = Some (1%nat, [ErrCrawling SqliteError], [("https://ex.com/a"%string, 1)], None).
Proof. vm_compute. reflexivity. Qed.

(** ** What the sequential loop guarantees *)

Section SequentialGuarantees.

Variable E : Env.
Variable cfg : Config.

(** X21: Started within the budget, a run of [comprehensive_crawler] ends
    within the budget. *)
Lemma sequential_crawler_budget fuel s f :
  comprehensive_crawler E cfg fuel s = Some f ->
  link_count s <= max_links cfg ->
  link_count (snd f) <= max_links cfg.
Proof.
  unfold comprehensive_crawler. intros H Hle.
  destruct (crawl_start_spec E cfg (@nil pytuple) s)
    as (s1 & Hst & _ & _ & _ & Hlc & _).
  rewrite Hst in H.
  destruct (crawl_loop E cfg fuel ([], s1)) as [[r f2]|] eqn:Hloop; [|discriminate].
  pose proof (crawl_loop_outcome E cfg fuel _ _ _ Hloop) as Hout.
  destruct r as [[]|e].
  - destruct Hout as [Hit _].
    pose proof (iterates_budget E cfg _ _ Hit) as Hb. cbn [snd] in Hb.
    assert (Hf2 : link_count (snd f2) <= max_links cfg) by (apply Hb; lia).
    unfold crawl_finish in H. unfold_m.
    destruct (negb (nonempty (queue (snd f2))) && queue_file_exists (snd f2));
      injection H as <-; destruct f2 as [rs [? ? ? ? ? ? ? ? ?]]; exact Hf2.
  - destruct Hout as (f0 & Hit & Hg & Hr).
    pose proof (iterates_budget E cfg _ _ Hit) as Hb. cbn [snd] in Hb.
    assert (Hf0 : link_count (snd f0) <= max_links cfg) by (apply Hb; lia).
    destruct (loop_guard_true cfg _ Hg) as [(url & d & rest & Hq) Hlt].
    injection H as <-.
    destruct f0 as [rs0 s0]. cbn [snd] in *.
    destruct ((d >? max_depth cfg) || bool_decide (url ∈ visited s0)) eqn:Hskip.
    + rewrite (crawl_iter_skip E cfg rs0 s0 url d rest Hq Hskip) in Hr. discriminate.
    + destruct (crawl_iter_process E cfg rs0 s0 url d rest Hq Hskip)
        as (r & rs' & s' & H & _ & _ & Hcase).
      rewrite H in Hr. injection Hr as -> <-.
      destruct Hcase as (_ & _ & [Hc|Hc]);
        unfold crawl_except; destruct s'; simpl in *; lia.
Qed.

(** X22: When the loop ends without an exception, the queue is empty or the
    budget is used up, and the queue file is removed exactly when the
    queue is empty. *)
Lemma sequential_crawler_exit fuel f1 f2 :
  crawl_loop E cfg fuel f1 = Some (Ok tt, f2) ->
  link_count (snd f1) <= max_links cfg ->
  (queue (snd f2) = [] \/ link_count (snd f2) = max_links cfg) /\
  exists f3,
    crawl_finish f2 = (Ok tt, f3) /\
    queue (snd f3) = queue (snd f2) /\
    (queue (snd f2) = [] -> queue_file (snd f3) = None) /\
    (queue (snd f2) <> [] -> queue_file (snd f3) = queue_file (snd f2)).
Proof.
  intros Hloop Hle.
  destruct (crawl_loop_outcome E cfg fuel _ _ _ Hloop) as [Hit Hg].
  pose proof (iterates_budget E cfg _ _ Hit Hle) as Hb.
  split.
  - destruct (loop_guard_false cfg _ Hg) as [Hq|Hl]; [now left | right; lia].
  - unfold crawl_finish. unfold_m. destruct f2 as [rs s2]. cbn [fst snd] in *.
    destruct (queue s2) as [|e q] eqn:Hq; cbn [nonempty negb andb].
    + destruct (queue_file_exists s2) eqn:Hex.
      * eexists. split; [reflexivity|]. unfold remove_queue_file. unfold_m.
        destruct s2; simpl in *. repeat split; auto. congruence.
      * eexists. split; [reflexivity|]. cbn [snd].
        repeat split; auto; try congruence.
        intros _. unfold queue_file_exists in Hex.
        now destruct (queue_file s2).
    + eexists. split; [reflexivity|]. cbn [snd].
      repeat split; auto; congruence.
Qed.

End SequentialGuarantees.

(** ** The reference serializer inverts itself *)

Module RefPickleFacts.

Import RefPickle.

Lemma load_nat_dump n rest : load_nat (dump_nat n ++ rest) = Some (n, rest).
Proof.
  induction n as [|n IH]; simpl; [reflexivity|]. now rewrite IH.
Qed.

Lemma load_str_dump s rest : load_str (dump_str s ++ rest) = Some (s, rest).
Proof.
  induction s as [|c s IH]; simpl; [reflexivity|].
  rewrite IH. now rewrite ascii_of_byte_of_ascii.
Qed.

Lemma load_int_dump z rest : load_int (dump_int z ++ rest) = Some (z, rest).
Proof.
  unfold dump_int, load_int.
  destruct (Z.ltb_spec z 0); simpl; rewrite load_nat_dump; do 2 f_equal; lia.
Qed.

Lemma load_entries_dumps (q : Frontier) fuel :
  (List.length q < fuel)%nat -> load_entries fuel (dumps q) = Some q.
Proof.
  revert fuel. induction q as [|[url d] q IH]; intros fuel Hlt.
  - destruct fuel; [lia|]. reflexivity.
  - destruct fuel; [simpl in Hlt; lia|].
    cbn [dumps load_entries].
    rewrite load_str_dump, load_int_dump, IH by (simpl in Hlt; lia).
    reflexivity.
Qed.

Lemma length_dumps (q : Frontier) : (List.length q < List.length (dumps q))%nat.
Proof.
  induction q as [|[url d] q IH]; [simpl; lia|].
  cbn [dumps List.length]. rewrite !length_app.
  unfold dump_int. cbn [List.length app]. rewrite ?length_app. lia.
Qed.

(** The contract [load_queue] relies on, for every frontier. *)
Lemma loads_dumps (q : Frontier) : loads (dumps q) = Some q.
Proof. unfold loads. apply load_entries_dumps, length_dumps. Qed.

End RefPickleFacts.

(** * Further properties of the metadata store and of extraction *)

Lemma check_bulk_links_healthy_witness :
  let urls := ["https://ex.com/a"; "https://ex.com/c"; "https://ex.com/a"]%string in
  let s := Demo.seen "https://ex.com/a" in
  faults s = [] /\
  check_bulk_links Demo.env urls s
  = (Ok (["https://ex.com/a"; "https://ex.com/a"]%string, ["https://ex.com/c"%string]), s) /\
  check_bulk_links Demo.strict_env urls s
  = (Ok ([], []), set_log [ErrCheckBulk SqliteError] s).
Proof.
  cbv zeta. split; [reflexivity|]. split.
  - rewrite (check_bulk_links_healthy Demo.env _ (Demo.seen "https://ex.com/a") eq_refl).
    vm_compute. reflexivity.
  - rewrite (check_bulk_links_healthy Demo.strict_env _ (Demo.seen "https://ex.com/a")
               eq_refl).
    reflexivity.
Defined.

(** X2: When the query of [check_bulk_links] raises, the error is logged and
    both lists come back empty: the URLs asked about are in neither. *)
Lemma check_bulk_links_on_error E urls s tape :
  faults s = true :: tape ->
  check_bulk_links E urls s
  = (Ok ([], []),
     set_log (log s ++ [ErrCheckBulk SqliteError]) (set_faults tape s)).
Proof.
  intros Hf. unfold check_bulk_links, try_except, bind, sqlite_exec.
  rewrite Hf. unfold_m. destruct s; reflexivity.
Qed.

Lemma check_bulk_links_on_error_witness :
  faults (set_faults [true] Demo.fresh) = [true] /\
  fst (check_bulk_links Demo.env ["https://ex.com/a"%string]
         (set_faults [true] Demo.fresh))
  = Ok ([], []).
Proof.
  split; [reflexivity|].
  now rewrite (check_bulk_links_on_error Demo.env _ (set_faults [true] Demo.fresh) []
                 eq_refl).
Defined.

(** X3: [mark_url_processed] never raises.  It touches no row but the one of its
    URL, creates none, and changes nothing but the [processed] flag, which it
    sets whenever the statement runs. *)
Lemma mark_url_processed_effect url s :
  exists s',
    mark_url_processed url s = (Ok tt, s') /\
    (forall u, u <> url -> table s' !! u = table s !! u) /\
    (table s !! url = None -> table s' !! url = None) /\
    (forall r, table s !! url = Some r ->
       table s' !! url = Some r \/
       table s' !! url = Some (mkRecord (content_hash r) (depth r) (title r) true)) /\
    (faults s = [] -> forall r, table s !! url = Some r ->
       table s' !! url = Some (mkRecord (content_hash r) (depth r) (title r) true)).
Proof.
  unfold mark_url_processed, try_except.
  destruct (sqlite_call_cases (fun tbl => (tt, Sql.update_processed url tbl)) s)
    as [[tape H]|[tape H]]; rewrite H.
  - eexists. unfold_m. split; [reflexivity|]. cbn [fst snd].
    destruct s; simpl. repeat split; auto.
    intros Hf. simpl in H. unfold sqlite_call in H. simpl in H. subst.
    discriminate.
  - eexists. split; [reflexivity|]. cbn [fst snd].
    assert (Ht : table (set_table (Sql.update_processed url (table s)) (set_faults tape s))
                 = Sql.update_processed url (table s)) by now destruct s.
    rewrite Ht. unfold Sql.update_processed.
    split; [|split; [|split]].
    + intros u Hu. now rewrite lookup_alter_ne.
    + intros Hn. rewrite lookup_alter_eq, Hn. reflexivity.
    + intros r Hr. right. rewrite lookup_alter_eq, Hr. reflexivity.
    + intros _ r Hr. rewrite lookup_alter_eq, Hr. reflexivity.
Qed.

(** X4: On a connection that does not fail, [is_url_visited] answers true
    exactly for the URLs that have a row.  After a call of
    [save_url_metadata] for a URL, whether it returned or raised, the URL is
    reported as visited exactly when the content hash and the depth passed
    are integers SQLite can store or the URL had a row before: a call that
    returns makes its URL visited, a call that raises OverflowError leaves
    it as it was. *)
Lemma is_url_visited_after_save url h d t u s :
  faults s = [] ->
  (fst (save_url_metadata url h d t s)
   = if sqlite_int h && sqlite_int d then Ok tt else Raise OverflowError) /\
  fst (is_url_visited url (snd (save_url_metadata url h d t s)))
  = Ok (sqlite_int h && sqlite_int d || bool_decide (is_Some (table s !! url))) /\
  fst (is_url_visited u s) = Ok (bool_decide (is_Some (table s !! u))).
Proof.
  intros Hf.
  assert (Hvis : forall v s0, faults s0 = [] ->
            fst (is_url_visited v s0) = Ok (bool_decide (is_Some (table s0 !! v)))).
  { intros v s0 Hf0. unfold is_url_visited. rewrite sqlite_call_healthy by exact Hf0.
    cbn [fst]. unfold Sql.select_one.
    destruct (table s0 !! v) eqn:Hl.
    - rewrite bool_decide_eq_true_2; eauto.
    - rewrite bool_decide_eq_false_2; [reflexivity|]. intros [x Hx]. discriminate. }
  destruct (sqlite_int h && sqlite_int d) eqn:Hb.
  - apply andb_true_iff in Hb. destruct Hb as [Hh Hd].
    rewrite save_url_metadata_healthy by assumption. cbn [fst snd].
    split; [reflexivity|]. split; [|now apply Hvis].
    rewrite Hvis by (now destruct s).
    replace (table (set_table (Sql.insert_or_ignore url h d t (table s)) s))
      with (Sql.insert_or_ignore url h d t (table s)) by now destruct s.
    rewrite insert_or_ignore_lookup.
    rewrite bool_decide_eq_true_2; eauto.
  - rewrite save_url_metadata_overflow by assumption. cbn [fst snd].
    split; [reflexivity|]. split; now apply Hvis.
Qed.

Lemma is_url_visited_after_save_witness :
  faults Demo.fresh = [] /\
  fst (is_url_visited Demo.root (snd (save_url_metadata Demo.root 7 0 None Demo.fresh)))
  = Ok true /\
  fst (is_url_visited Demo.root
         (snd (save_url_metadata Demo.root 7 (2 ^ 63) None Demo.fresh)))
  = Ok false.
Proof.
  split; [reflexivity|]. split.
  - exact (proj1 (proj2 (is_url_visited_after_save Demo.root 7 0 None Demo.root
                            Demo.fresh eq_refl))).
  - exact (proj1 (proj2 (is_url_visited_after_save Demo.root 7 (2 ^ 63) None Demo.root
                            Demo.fresh eq_refl))).
Defined.

(** X5: [save_url_metadata] for one URL leaves the rows of every other URL as
    they were, whether or not the call raises. *)
Lemma save_url_metadata_other url h d t u s :
  u <> url ->
  table (snd (save_url_metadata url h d t s)) !! u = table s !! u.
Proof.
  intros Hne.
  destruct (save_url_metadata_cases url h d t s) as (tape & [[e H]|(_ & _ & H)]);
    rewrite H; cbn [fst snd].
  - now destruct s.
  - replace (table (set_table (Sql.insert_or_ignore url h d t (table s)) (set_faults tape s)))
      with (Sql.insert_or_ignore url h d t (table s)) by now destruct s.
    apply insert_or_ignore_other. congruence.
Qed.

Lemma save_url_metadata_other_witness :
  "https://ex.com/a"%string <> Demo.root /\
  table (snd (save_url_metadata Demo.root 7 0 None (Demo.seen "https://ex.com/a")))
    !! "https://ex.com/a"%string
  = table (Demo.seen "https://ex.com/a") !! "https://ex.com/a"%string.
Proof.
  assert (H : "https://ex.com/a"%string <> Demo.root) by discriminate.
  split; [exact H|].
  exact (save_url_metadata_other Demo.root 7 0 None _ (Demo.seen "https://ex.com/a") H).
Defined.

(** X7: The summary made by [extract_info] uses the first five paragraphs only,
    and never raises. *)
Lemma extract_info_first_five ti ps links s :
  extract_info (mkSoup ti ps links) s
    = extract_info (mkSoup ti (firstn 5 ps) links) s /\
  exists t c s', extract_info (mkSoup ti ps links) s = (Ok (t, c), s').
Proof.
  split.
  - unfold extract_info. cbn [soup_title paragraphs].
    now rewrite firstn_firstn.
  - unfold extract_info, try_except, bind. cbn [soup_title paragraphs].
    destruct ti as [[t|]|]; unfold_m; eauto.
Qed.

(** A title element whose [string] is [None] makes [extract_info] fall back
    to its defaults for both components: the paragraphs are dropped as
    well. *)
Lemma extract_info_title_without_string ps links s :
  extract_info (mkSoup (Some None) ps links) s
  = (Ok ("No title"%string, ""%string),
     set_log (log s ++ [ErrExtractInfo AttributeError]) s).
Proof. reflexivity. Qed.

(** * Invariants of the store across [process_url] and the crawl loops *)

#[local] Instance row_kept_preorder : PreOrder row_kept.
Proof.
  split.
  - intros r. unfold row_kept. auto.
  - intros r1 r2 r3 (A1 & A2 & A3 & A4) (B1 & B2 & B3 & B4).
    unfold row_kept. repeat split; try congruence. auto.
Qed.

#[local] Instance store_grows_preorder : PreOrder store_grows.
Proof.
  split.
  - intros s u r H. exists r. split; [exact H | reflexivity].
  - intros s1 s2 s3 H12 H23 u r H.
    destruct (H12 u r H) as (r2 & H2 & K2).
    destruct (H23 u r2 H2) as (r3 & H3 & K3).
    exists r3. split; [exact H3 | etransitivity; eassumption].
Qed.

#[local] Instance adds_only_preorder url : PreOrder (adds_only url).
Proof.
  split.
  - intros s u _ H. exact H.
  - intros s1 s2 s3 H12 H23 u Hne H. apply H23; auto.
Qed.

#[local] Instance on_state_preorder {L} (R : State -> State -> Prop)
  `{!PreOrder R} : PreOrder (@on_state L R).
Proof.
  split.
  - intros f. unfold on_state. reflexivity.
  - intros f1 f2 f3 H12 H23. unfold on_state in *. etransitivity; eassumption.
Qed.

(** The methods that [process_url] is made of, for a relation that the
    statements it sends to SQLite for the URL [url0] respect. *)
Section StoreMethods.

Variable E : Env.
Variable cfg : Config.
Variable R : State -> State -> Prop.
Context `{!PreOrder R}.
Variable url0 : string.

Hypothesis R_faults : forall s tape, R s (set_faults tape s).
Hypothesis R_collection : forall s c, R s (set_collection c s).
Hypothesis R_log : forall s r,
  processing_errors [r] = [] -> R s (set_log (log s ++ [r]) s).
Hypothesis R_insert : forall s h d t,
  R s (set_table (Sql.insert_or_ignore url0 h d t (table s)) s).
Hypothesis R_update : forall s,
  R s (set_table (Sql.update_processed url0 (table s)) s).
Hypothesis R_fetch : forall s, R s (set_fetch_log (fetch_log s ++ [url0]) s).

Lemma inv_sqlite_exec_read {A}
    (f : gmap string URLRecord -> Res A * gmap string URLRecord) :
  (forall tbl, snd (f tbl) = tbl) -> keeps R (sqlite_exec f).
Proof.
  intros Hread s.
  destruct (sqlite_exec_cases f s) as [[tape H]|[tape H]];
    rewrite H; cbn [fst snd].
  - apply R_faults.
  - rewrite Hread.
    replace (set_table (table s) (set_faults tape s)) with (set_faults tape s)
      by now destruct s.
    apply R_faults.
Qed.

Lemma inv_sqlite_read {A} (q : gmap string URLRecord -> A) :
  keeps R (sqlite_call (fun tbl => (q tbl, tbl))).
Proof. apply inv_sqlite_exec_read. reflexivity. Qed.

Lemma inv_save_url_metadata h d t : keeps R (save_url_metadata url0 h d t).
Proof.
  intros s.
  destruct (save_url_metadata_cases url0 h d t s) as (tape & [[e H]|(_ & _ & H)]);
    rewrite H; cbn [fst snd].
  - apply R_faults.
  - etransitivity; [apply (R_faults s tape)|].
    apply (R_insert (set_faults tape s)).
Qed.

Lemma inv_logger_error r : processing_errors [r] = [] -> keeps R (logger_error r).
Proof. intros Hr s. unfold logger_error, modify. now apply R_log. Qed.

Lemma inv_mark_url_processed : keeps R (mark_url_processed url0).
Proof.
  unfold mark_url_processed.
  refine (keeps_try _ _ _ _ _); [|intros e; now apply inv_logger_error].
  intros s.
  destruct (sqlite_call_cases (fun tbl => (tt, Sql.update_processed url0 tbl)) s)
    as [[tape H]|[tape H]]; rewrite H; cbn [fst snd].
  - apply R_faults.
  - etransitivity; [apply (R_faults s tape)|].
    apply (R_update (set_faults tape s)).
Qed.

Ltac prim :=
  first [ apply inv_sqlite_read
        | apply inv_logger_error; reflexivity
        | apply inv_save_url_metadata
        | apply inv_mark_url_processed ].

Lemma inv_is_url_visited url : keeps R (is_url_visited url).
Proof. unfold is_url_visited. prim. Qed.

Lemma inv_check_bulk_links urls : keeps R (check_bulk_links E urls).
Proof.
  unfold check_bulk_links.
  keeps_tac ltac:(first [ prim
                        | apply inv_sqlite_exec_read; intros tbl;
                          now destruct (_ <=? _)%nat ]).
Qed.

Lemma inv_extract_links page : keeps R (extract_links E cfg page).
Proof.
  unfold extract_links, BeautifulSoup.
  keeps_tac ltac:(first [prim | apply inv_check_bulk_links]).
Qed.

Lemma inv_extract_info soup : keeps R (extract_info soup).
Proof. unfold extract_info. keeps_tac prim. Qed.

Lemma inv_is_already_indexed url : keeps R (is_already_indexed E url).
Proof.
  unfold is_already_indexed.
  keeps_tac ltac:(first [prim | apply inv_is_url_visited]).
Qed.

Lemma inv_collection_add url : keeps R (collection_add E url).
Proof.
  unfold collection_add.
  keeps_tac ltac:(first [prim | intros s; apply R_collection]).
Qed.

Lemma inv_store_in_chroma t c d h : keeps R (store_in_chroma E cfg t c url0 d h).
Proof.
  unfold store_in_chroma, generate_embedding.
  keeps_tac ltac:(first [ prim
                        | apply inv_is_already_indexed
                        | apply inv_collection_add ]).
Qed.

Lemma inv_fetch : keeps R (fetch_with_headless_browser E url0).
Proof.
  intros s. unfold fetch_with_headless_browser. unfold_m. simpl. apply R_fetch.
Qed.

Lemma inv_process_url d : keeps R (process_url E cfg url0 d).
Proof.
  unfold process_url, BeautifulSoup.
  keeps_tac ltac:(first [ prim
                        | apply inv_is_url_visited
                        | apply inv_fetch
                        | apply inv_extract_info
                        | apply inv_store_in_chroma ]).
Qed.

End StoreMethods.

(** The crawl loops, for a relation that every statement sent to SQLite and
    every update of the session respect. *)
Section LoopKeeps.

Variable E : Env.
Variable cfg : Config.
Variable R : State -> State -> Prop.
Context `{!PreOrder R}.

Hypothesis R_faults : forall s tape, R s (set_faults tape s).
Hypothesis R_collection : forall s c, R s (set_collection c s).
Hypothesis R_log : forall s r, R s (set_log (log s ++ [r]) s).
Hypothesis R_insert : forall s url h d t,
  R s (set_table (Sql.insert_or_ignore url h d t (table s)) s).
Hypothesis R_update : forall s url,
  R s (set_table (Sql.update_processed url (table s)) s).
Hypothesis R_fetch : forall s url, R s (set_fetch_log (fetch_log s ++ [url]) s).
Hypothesis R_queue : forall s q, R s (set_queue q s).
Hypothesis R_visited : forall s v, R s (set_visited v s).
Hypothesis R_link_count : forall s n, R s (set_link_count n s).
Hypothesis R_queue_file : forall s f, R s (set_queue_file f s).

Lemma loop_on_self {L A} (m : M State A) :
  keeps R m -> keeps (@on_state L R) (on_self m).
Proof.
  intros Hm [l s]. unfold on_self, on_state. cbn [fst snd].
  specialize (Hm s). now destruct (m s).
Qed.

Lemma loop_process_url {L} url d :
  keeps (@on_state L R) (on_self (process_url E cfg url d)).
Proof. apply loop_on_self. apply inv_process_url; auto. Qed.

Lemma loop_is_url_visited {L} url :
  keeps (@on_state L R) (on_self (is_url_visited url)).
Proof.
  apply loop_on_self. apply inv_is_url_visited; auto.
Qed.

Lemma loop_extract_links {L} page :
  keeps (@on_state L R) (on_self (extract_links E cfg page)).
Proof.
  apply loop_on_self. apply inv_extract_links; auto.
Qed.

Lemma loop_load_queue {L} : keeps (@on_state L R) (on_self (load_queue E)).
Proof.
  apply loop_on_self. unfold load_queue.
  keeps_tac ltac:(intros s; apply R_log).
Qed.

Lemma loop_modify_self {L} (g : State -> State) :
  (forall s, R s (g s)) -> keeps (@on_state L R) (on_self (modify g)).
Proof. intros Hg. apply loop_on_self. intros s. apply Hg. Qed.

Lemma loop_modify_locals {L} (g : L * State -> L * State) :
  (forall f, snd (g f) = snd f) -> keeps (on_state R) (modify g).
Proof.
  intros Hg f. unfold modify, on_state. cbn [snd]. rewrite Hg. reflexivity.
Qed.

Ltac loop_prim :=
  first [ apply loop_process_url
        | apply loop_is_url_visited
        | apply loop_extract_links
        | apply loop_load_queue
        | apply loop_modify_self; intros ?;
          first [ apply R_queue | apply R_visited | apply R_link_count
                | apply R_queue_file | apply R_log ]
        | apply loop_modify_locals; intros []; reflexivity ].

Lemma loop_queue_append {L} e : keeps (@on_state L R) (queue_append e).
Proof. unfold queue_append. loop_prim. Qed.

Lemma loop_consider_link link d : keeps (on_state R) (consider_link cfg link d).
Proof.
  unfold consider_link.
  keeps_tac ltac:(first [loop_prim | apply loop_queue_append]).
Qed.

Lemma loop_record_result result : keeps (on_state R) (record_result result).
Proof.
  unfold record_result, unpack3, append_result.
  keeps_tac ltac:(loop_prim).
Qed.

Lemma loop_follow_links result d : keeps (on_state R) (follow_links E cfg result d).
Proof.
  unfold follow_links, tuple_item.
  keeps_tac ltac:(first [loop_prim | apply loop_consider_link]).
Qed.

Lemma loop_crawl_iter : keeps (on_state R) (crawl_iter E cfg).
Proof.
  unfold crawl_iter, save_queue.
  keeps_tac ltac:(first [ loop_prim | apply loop_record_result
                        | apply loop_follow_links ]).
Qed.

Lemma loop_crawl_start {L} : keeps (@on_state L R) (crawl_start E cfg).
Proof.
  unfold crawl_start.
  keeps_tac ltac:(first [loop_prim | apply loop_queue_append]).
Qed.

Lemma loop_crawl_finish : keeps (on_state R) crawl_finish.
Proof.
  unfold crawl_finish, remove_queue_file.
  keeps_tac ltac:(loop_prim).
Qed.

Lemma loop_crawl_loop fuel f r f' :
  crawl_loop E cfg fuel f = Some (r, f') -> R (snd f) (snd f').
Proof.
  revert f. induction fuel as [|fuel IH]; intros f H; simpl in H.
  - destruct (loop_guard cfg f); [discriminate|]. injection H as _ <-. reflexivity.
  - destruct (loop_guard cfg f).
    + pose proof (loop_crawl_iter f) as Hit. unfold on_state in Hit.
      destruct (crawl_iter E cfg f) as [[[]|e] f1]; cbn [snd] in Hit.
      * etransitivity; [exact Hit | now apply IH].
      * injection H as _ <-. exact Hit.
    + injection H as _ <-. reflexivity.
Qed.

(** Whatever way [comprehensive_crawler] ends, the state it leaves is
    related to the state it was called in. *)
Lemma loop_comprehensive_crawler fuel s f :
  comprehensive_crawler E cfg fuel s = Some f -> R s (snd f).
Proof.
  unfold comprehensive_crawler. intros H.
  pose proof (loop_crawl_start (@nil pytuple, s)) as H1. unfold on_state in H1.
  assert (Hex : forall e g, R (snd g) (snd (crawl_except e g))).
  { intros e [rs g]. unfold crawl_except. cbn [fst snd]. apply R_log. }
  destruct (crawl_start E cfg ([], s)) as [[[]|e] f1]; cbn [snd] in H1.
  - destruct (crawl_loop E cfg fuel f1) as [[[[]|e] f2]|] eqn:Hloop; [| |discriminate].
    + pose proof (loop_crawl_loop _ _ _ _ Hloop) as H2.
      pose proof (loop_crawl_finish f2) as H3. unfold on_state in H3.
      destruct (crawl_finish f2) as [[[]|e] f3]; cbn [snd] in H3; injection H as <-.
      * etransitivity; [exact H1|]. etransitivity; eassumption.
      * etransitivity; [exact H1|]. etransitivity; [exact H2|].
        etransitivity; [exact H3 | apply Hex].
    + pose proof (loop_crawl_loop _ _ _ _ Hloop) as H2. injection H as <-.
      etransitivity; [exact H1|]. etransitivity; [exact H2 | apply Hex].
  - injection H as <-. etransitivity; [exact H1 | apply Hex].
Qed.

Lemma loop_on_completed task outcome :
  keeps (on_state R) (on_completed E cfg task outcome).
Proof.
  unfold on_completed, future_result, unpack2, tuple_item, yield, enqueue_link.
  destruct task as [url d].
  keeps_tac ltac:(first [ loop_prim | apply loop_queue_append
                        | apply loop_on_self; intros s; unfold logger_error, modify;
                          apply R_log ]).
Qed.

Lemma loop_run_in_pool task : keeps (on_state R) (run_in_pool E cfg task).
Proof.
  intros [ys s]. unfold run_in_pool, on_state. cbn [fst snd].
  pose proof (inv_process_url E cfg R (fst task)
                R_faults R_collection (fun s r _ => R_log s r)
                (fun s => R_insert s (fst task)) (fun s => R_update s (fst task))
                (fun s => R_fetch s (fst task)) (snd task)
                (set_faults foreign_thread_tape s)) as H.
  destruct (process_url E cfg (fst task) (snd task)
              (set_faults foreign_thread_tape s)) as [r s1].
  cbn [snd] in *.
  etransitivity; [apply R_faults|]. etransitivity; [exact H | apply R_faults].
Qed.

Lemma loop_comprehensive_crawler_threaded :
  keeps (on_state R) (comprehensive_crawler_threaded E cfg).
Proof.
  unfold comprehensive_crawler_threaded, ThreadPoolExecutor, save_queue,
    remove_queue_file.
  keeps_tac ltac:(first [ loop_prim | apply loop_crawl_start
                        | apply loop_run_in_pool | apply loop_on_completed ]).
Qed.

End LoopKeeps.

Lemma store_grows_same s s' : table s' = table s -> store_grows s s'.
Proof. intros H u r Hu. exists r. rewrite H. split; [exact Hu | reflexivity]. Qed.

Lemma store_grows_insert s url h d t :
  store_grows s (set_table (Sql.insert_or_ignore url h d t (table s)) s).
Proof.
  intros u r Hu. exists r. split; [|reflexivity].
  replace (table (set_table (Sql.insert_or_ignore url h d t (table s)) s))
    with (Sql.insert_or_ignore url h d t (table s)) by now destruct s.
  destruct (decide (url = u)) as [->|Hne].
  - now rewrite insert_or_ignore_lookup, Hu.
  - now rewrite insert_or_ignore_other.
Qed.

Lemma store_grows_update s url :
  store_grows s (set_table (Sql.update_processed url (table s)) s).
Proof.
  intros u r Hu.
  replace (table (set_table (Sql.update_processed url (table s)) s))
    with (Sql.update_processed url (table s)) by now destruct s.
  unfold Sql.update_processed.
  destruct (decide (url = u)) as [->|Hne].
  - rewrite lookup_alter_eq, Hu. eexists. split; [reflexivity|].
    unfold row_kept. simpl. auto.
  - rewrite lookup_alter_ne by exact Hne. exists r. split; [exact Hu | reflexivity].
Qed.

(** X11: [process_url] removes no row and overwrites none: every row keeps its
    content hash, depth and title, and a [processed] flag that is set stays
    set; and it creates no row for a URL other than its own. *)
Lemma process_url_store_grows E cfg url d s :
  store_grows s (snd (process_url E cfg url d s)) /\
  adds_only url s (snd (process_url E cfg url d s)).
Proof.
  split.
  - apply inv_process_url; try typeclasses eauto;
      auto using store_grows_insert, store_grows_update;
      intros; apply store_grows_same; now destruct s0.
  - apply inv_process_url; try typeclasses eauto.
    + intros s0 tape u _ H. now destruct s0.
    + intros s0 c u _ H. now destruct s0.
    + intros s0 r _ u _ H. now destruct s0.
    + intros s0 h0 d0 t0 u Hne H.
      replace (table (set_table (Sql.insert_or_ignore url h0 d0 t0 (table s0)) s0))
        with (Sql.insert_or_ignore url h0 d0 t0 (table s0)) by now destruct s0.
      rewrite insert_or_ignore_other by congruence. exact H.
    + intros s0 u Hne H.
      replace (table (set_table (Sql.update_processed url (table s0)) s0))
        with (Sql.update_processed url (table s0)) by now destruct s0.
      unfold Sql.update_processed. rewrite lookup_alter_ne by congruence. exact H.
    + intros s0 u _ H. now destruct s0.
Qed.

(** X23: A run of [comprehensive_crawler] removes no row of [url_metadata] and
    overwrites none, however the run ends. *)
Lemma sequential_crawler_store_grows E cfg fuel s f :
  comprehensive_crawler E cfg fuel s = Some f -> store_grows s (snd f).
Proof.
  intros H.
  apply (loop_comprehensive_crawler E cfg store_grows) with (fuel := fuel);
    auto using store_grows_insert, store_grows_update;
    intros; apply store_grows_same; now destruct s0.
Qed.

(** X24: A run of [comprehensive_crawler_threaded] removes no row of
    [url_metadata] and overwrites none. *)
Lemma threaded_crawler_store_grows E cfg s :
  store_grows s (snd (snd (comprehensive_crawler_threaded E cfg ([], s)))).
Proof.
  assert (K : keeps (on_state store_grows) (comprehensive_crawler_threaded E cfg)).
  { apply loop_comprehensive_crawler_threaded; try typeclasses eauto;
      auto using store_grows_insert, store_grows_update;
      intros; apply store_grows_same; now destruct s0. }
  exact (K ([], s)).
Qed.

(** * What [process_url] can raise and what it records *)

Lemma raises_only_ret {St A} (P : Exn -> Prop) (a : A) : raises_only P (@ret St A a).
Proof. intros s e s' H. discriminate. Qed.

Lemma raises_only_bind {St A B} (P : Exn -> Prop) (m : M St A) (k : A -> M St B) :
  raises_only P m -> (forall a, raises_only P (k a)) -> raises_only P (bind m k).
Proof.
  intros Hm Hk s e s' H. unfold bind in H.
  destruct (m s) as [[a|e0] s1] eqn:Hms.
  - eapply Hk; eassumption.
  - injection H as <- <-. eapply Hm; eassumption.
Qed.

Lemma raises_only_try {St A} (P : Exn -> Prop) (m : M St A) (h : Exn -> M St A) :
  (forall e, raises_only P (h e)) -> raises_only P (try_except m h).
Proof.
  intros Hh s e s' H. unfold try_except in H.
  destruct (m s) as [[a|e0] s1]; [discriminate|].
  eapply Hh; eassumption.
Qed.

Lemma raises_only_sqlite_call {A} (f : gmap string URLRecord -> A * gmap string URLRecord) :
  raises_only (eq SqliteError) (sqlite_call f).
Proof.
  intros s e s' H.
  destruct (sqlite_call_cases f s) as [[tape H']|[tape H']]; rewrite H' in H;
    congruence.
Qed.

Lemma raises_only_mono {St A} (P Q : Exn -> Prop) (m : M St A) :
  (forall e, P e -> Q e) -> raises_only P m -> raises_only Q m.
Proof. intros Hi Hm s e s' H. eapply Hi, Hm, H. Qed.

Lemma raises_only_logger P r : raises_only P (logger_error r).
Proof. intros s e s' H. discriminate. Qed.

Lemma is_already_indexed_never_raises E url :
  raises_only (fun _ => False) (is_already_indexed E url).
Proof.
  unfold is_already_indexed.
  apply raises_only_bind; [intros s e s' H; discriminate|]. intros s0.
  destruct (collection s0); [|apply raises_only_ret].
  assert (Hcaught : forall r, raises_only (fun _ => False)
            (@bind State unit bool (logger_error r) (fun _ => ret false))).
  { intros r. apply raises_only_bind; [apply raises_only_logger|].
    intros _. apply raises_only_ret. }
  apply raises_only_bind.
  - apply raises_only_try. intros e. apply Hcaught.
  - intros []; [apply raises_only_ret|].
    apply raises_only_try. intros e. apply Hcaught.
Qed.

(** X8: [store_in_chroma] never raises: whatever the embedding API, the
    collection and the database do, the error is logged and the call
    returns. *)
Lemma store_in_chroma_never_raises E cfg t c url d h s :
  exists s', store_in_chroma E cfg t c url d h s = (Ok tt, s').
Proof.
  assert (H : raises_only (fun _ => False) (store_in_chroma E cfg t c url d h)).
  { unfold store_in_chroma. apply raises_only_bind.
    - destruct (negb (d =? 0)).
      + apply is_already_indexed_never_raises.
      + apply raises_only_ret.
    - intros []; [apply raises_only_ret|].
      apply raises_only_try. intros e. apply raises_only_logger. }
  specialize (H s).
  destruct (store_in_chroma E cfg t c url d h s) as [[[]|e] s'].
  - eauto.
  - destruct (H e s' eq_refl).
Qed.

Lemma save_url_metadata_raises url h d t s e s' :
  save_url_metadata url h d t s = (Raise e, s') ->
  e = SqliteError \/ (e = OverflowError /\ sqlite_int h && sqlite_int d = false).
Proof.
  intros H. unfold save_url_metadata in H.
  match type of H with context [sqlite_exec ?f0] => set (f := f0) in H end.
  destruct (sqlite_exec_cases f s) as [[tape H']|[tape H']]; rewrite H' in H.
  - left. congruence.
  - subst f. cbv beta in H.
    destruct (sqlite_int h && sqlite_int d); cbn [fst] in H; [discriminate|].
    right. split; congruence.
Qed.

(** X10: An exception that leaves [process_url] is a database error of one
    of its own two statements, the rejection by the HTML parser of the page
    the browser returned, or the OverflowError of a depth that SQLite
    cannot store; a failing browser, embedding API or collection never
    makes it raise. *)
Lemma process_url_raises E cfg url d s e s' :
  process_url E cfg url d s = (Raise e, s') ->
  e = SqliteError \/
  e = ParserRejectedMarkup \/
  (e = OverflowError /\ sqlite_int d = false).
Proof.
  revert s e s'.
  change (raises_only
            (fun e => e = SqliteError \/ e = ParserRejectedMarkup \/
                      (e = OverflowError /\ sqlite_int d = false))
            (process_url E cfg url d)).
  unfold process_url. apply raises_only_bind.
  - destruct (negb (d =? 0)); [|apply raises_only_ret].
    eapply raises_only_mono; [|apply raises_only_sqlite_call].
    intros e <-. now left.
  - intros []; [apply raises_only_ret|].
    apply raises_only_bind; [intros s e s' H; discriminate|].
    intros [|html]; cbn [truthy]; [apply raises_only_ret|].
    destruct (str_truthy html); [|apply raises_only_ret].
    apply raises_only_bind.
    { unfold BeautifulSoup. destruct (html_parser E html).
      - apply raises_only_ret.
      - intros s e s' [= <- _]. auto. }
    intros soup.
    apply raises_only_bind.
    { unfold extract_info. apply raises_only_try. intros e0.
      apply raises_only_bind; [apply raises_only_logger|].
      intros _. apply raises_only_ret. }
    intros [t c].
    apply raises_only_bind.
    { intros s e s' H. apply save_url_metadata_raises in H.
      destruct H as [->|[-> Hb]]; [now left|].
      right. right. split; [reflexivity|].
      now rewrite str_hash_sqlite_int in Hb. }
    intros _.
    apply raises_only_bind; [|intros _; apply raises_only_ret].
    intros s e s' H.
    destruct (store_in_chroma_never_raises E cfg t c url d (str_hash E c) s) as [s1 H1].
    congruence.
Qed.

Lemma process_url_raises_witness :
  fst (process_url Demo.env (Demo.config 30 10) Demo.root (2 ^ 63) Demo.fresh)
  = Raise OverflowError /\
  sqlite_int (2 ^ 63) = false.
Proof.
  assert (H : process_url Demo.env (Demo.config 30 10) Demo.root (2 ^ 63) Demo.fresh
              = (Raise OverflowError, set_fetch_log [Demo.root] Demo.fresh))
    by (vm_compute; reflexivity).
  split; [now rewrite H|].
  destruct (process_url_raises _ _ _ _ _ _ _ H) as [He|[He|[_ Hd]]];
    [discriminate He | discriminate He | exact Hd].
Defined.

#[local] Instance table_kept_preorder : PreOrder table_kept.
Proof.
  split.
  - intros s. reflexivity.
  - intros s1 s2 s3 H12 H23. unfold table_kept in *. congruence.
Qed.

#[local] Instance fetch_log_kept_preorder : PreOrder fetch_log_kept.
Proof.
  split.
  - intros s. reflexivity.
  - intros s1 s2 s3 H12 H23. unfold fetch_log_kept in *. congruence.
Qed.

Lemma extract_info_returns soup s :
  exists t c s',
    extract_info soup s = (Ok (t, c), s') /\
    table s' = table s /\ fetch_log s' = fetch_log s /\ faults s' = faults s /\
    collection s' = collection s.
Proof.
  unfold extract_info, try_except, bind.
  destruct (soup_title soup) as [[t|]|]; unfold_m; do 3 eexists;
    (split; [reflexivity|]); destruct s; simpl; auto.
Qed.

Lemma store_in_chroma_store_grows E cfg t c url d h s :
  store_grows s (snd (store_in_chroma E cfg t c url d h s)).
Proof.
  apply inv_store_in_chroma; try typeclasses eauto;
    auto using store_grows_insert, store_grows_update;
    intros; apply store_grows_same; now destruct s0.
Qed.

(** X12: The row that [process_url] creates for a URL without one: it exists
    only when the browser returned content, it has the depth the call was
    given, and it has no title (the insert that carries the title comes
    second and is ignored). *)
Lemma process_url_new_row E cfg url d s r' :
  table s !! url = None ->
  table (snd (process_url E cfg url d s)) !! url = Some r' ->
  title r' = None /\
  depth r' = d /\
  truthy (of_option (browser E (List.length (fetch_log s)) url)) = true.
Proof.
  intros Hnone Hrow. unfold process_url in Hrow.
  destruct (process_url_guard_cases url d s) as (tape & Hs & Hr).
  cbv zeta in Hs, Hr.
  match type of Hrow with context [bind _ ?k0] => set (k := k0) in Hrow end.
  unfold bind in Hrow.
  destruct ((if negb (d =? 0) then is_url_visited url else ret false) s)
    as [g s1] eqn:Hg.
  cbn [fst snd] in Hs, Hr. subst s1.
  assert (Ht1 : table (set_faults tape s) = table s) by now destruct s.
  destruct Hr as [-> | ->].
  { cbn [snd] in Hrow. rewrite Ht1 in Hrow. congruence. }
  assert (Hsel : Sql.select_one url (table s) = false)
    by (unfold Sql.select_one; now rewrite Hnone).
  rewrite Hsel, andb_false_r in Hrow. subst k. cbv beta iota in Hrow.
  unfold fetch_with_headless_browser in Hrow.
  unfold bind at 1 in Hrow. unfold get at 1 in Hrow.
  unfold bind at 1 in Hrow. unfold bind at 1 in Hrow. unfold modify at 1 in Hrow.
  unfold ret at 1 in Hrow. cbv beta iota in Hrow.
  replace (fetch_log (set_faults tape s)) with (fetch_log s) in Hrow
    by now destruct s.
  set (s2 := set_fetch_log _ _) in Hrow.
  assert (Ht2 : table s2 = table s) by (subst s2; now destruct s).
  destruct (of_option (browser E (List.length (fetch_log s)) url)) as [|html] eqn:Hb.
  { cbn [truthy] in Hrow. unfold ret in Hrow. cbn [snd] in Hrow.
    rewrite Ht2 in Hrow. congruence. }
  cbn [truthy] in *. destruct (str_truthy html) eqn:Htr.
  2:{ unfold ret in Hrow. cbn [snd] in Hrow. rewrite Ht2 in Hrow. congruence. }
  unfold BeautifulSoup in Hrow. unfold bind at 1 in Hrow.
  destruct (html_parser E html) as [soup|].
  2:{ unfold raise in Hrow. cbn [snd] in Hrow. rewrite Ht2 in Hrow. congruence. }
  unfold ret at 1 in Hrow. cbv beta iota in Hrow.
  unfold bind at 1 in Hrow.
  destruct (extract_info_returns soup s2) as (t & c & s3 & He & Ht3 & _).
  rewrite He in Hrow. cbv beta iota in Hrow.
  unfold bind at 1 in Hrow.
  destruct (save_url_metadata_cases url (str_hash E c) d None s3)
    as (tape3 & [[e3 H3]|(_ & _ & H3)]); rewrite H3 in Hrow; cbn [fst snd] in Hrow.
  { replace (table (set_faults tape3 s3)) with (table s3) in Hrow
      by (now destruct s3).
    rewrite Ht3, Ht2 in Hrow. congruence. }
  unfold bind at 1 in Hrow.
  set (s4 := set_table _ _) in Hrow.
  pose proof (store_in_chroma_store_grows E cfg t c url d (str_hash E c) s4) as Hgrow.
  destruct (store_in_chroma_never_raises E cfg t c url d (str_hash E c) s4) as [s5 H5].
  rewrite H5 in Hrow, Hgrow. cbn [fst snd] in Hrow, Hgrow.
  assert (H4 : table s4 !! url = Some (mkRecord (str_hash E c) d None false)).
  { subst s4.
    replace (table (set_table (Sql.insert_or_ignore url (str_hash E c) d None (table s3))
                      (set_faults tape3 s3)))
      with (Sql.insert_or_ignore url (str_hash E c) d None (table s3))
      by (now destruct s3).
    rewrite insert_or_ignore_lookup, Ht3, Ht2, Hnone. reflexivity. }
  destruct (Hgrow url _ H4) as (r5 & Hr5 & K1 & K2 & K3 & _).
  unfold ret in Hrow. cbn [snd] in Hrow.
  rewrite Hr5 in Hrow. injection Hrow as <-. simpl in *.
  repeat split; congruence.
Qed.

Lemma process_url_new_row_witness :
  table Demo.fresh !! "https://ex.com/a"%string = None /\
  table (snd (process_url Demo.env (Demo.config 30 10) "https://ex.com/a" 4 Demo.fresh))
    !! "https://ex.com/a"%string = Some (mkRecord 0 4 None false) /\
  depth (mkRecord 0 4 None false) = 4.
Proof.
  assert (H0 : table Demo.fresh !! "https://ex.com/a"%string = None)
    by (vm_compute; reflexivity).
  assert (H1 : table (snd (process_url Demo.env (Demo.config 30 10)
                             "https://ex.com/a" 4 Demo.fresh))
               !! "https://ex.com/a"%string = Some (mkRecord 0 4 None false))
    by (vm_compute; reflexivity).
  split; [exact H0|]. split; [exact H1|].
  exact (proj1 (proj2 (process_url_new_row _ _ _ _ _ _ H0 H1))).
Defined.

(** X9: At a depth other than 0, on a connection that does not fail,
    [store_in_chroma] for a URL that has a row adds nothing to the
    collection and leaves the table as it is: the row makes
    [is_already_indexed] answer true (or, without a collection, the [add]
    fails and is logged). *)
Lemma store_in_chroma_nonzero_depth E cfg t c url d h s :
  d <> 0 ->
  faults s = [] ->
  is_Some (table s !! url) ->
  table (snd (store_in_chroma E cfg t c url d h s)) = table s /\
  collection (snd (store_in_chroma E cfg t c url d h s)) = collection s.
Proof.
  intros Hd Hf [r Hr].
  destruct s as [v n q tbl fl qf col fe lg]. simpl in Hf, Hr. subst fl.
  unfold store_in_chroma, is_already_indexed, is_url_visited, generate_embedding,
    save_url_metadata, collection_add, mark_url_processed, sqlite_call, sqlite_exec.
  destruct (Z.eqb_spec d 0) as [|_]; [contradiction|]. cbn [negb].
  unfold_m. unfold Sql.select_one, Sql.insert_or_ignore.
  cbn -[lookup insert alter sqlite_int]. rewrite ?Hr.
  destruct col as [ids|]; cbn -[lookup insert alter sqlite_int]; rewrite ?Hr; [auto|].
  destruct (sqlite_int h && sqlite_int d);
    destruct (skip_embedding cfg); cbn -[lookup insert alter sqlite_int];
    rewrite ?Hr; auto;
    destruct (embedding_truthy (embedding_fn E c)); cbn -[lookup insert alter sqlite_int];
    rewrite ?Hr; auto.
Qed.

Lemma store_in_chroma_nonzero_depth_witness :
  let s := Demo.seen "https://ex.com/a" in
  let s' := snd (store_in_chroma Demo.env (Demo.config 30 10) "A" "text"
                   "https://ex.com/a" 1 4 s) in
  1 <> 0 /\ faults s = [] /\ is_Some (table s !! "https://ex.com/a"%string) /\
  collection s' = collection s.
Proof.
  cbv zeta.
  assert (H1 : 1 <> 0) by discriminate.
  assert (H2 : is_Some (table (Demo.seen "https://ex.com/a") !! "https://ex.com/a"%string))
    by (exists (mkRecord 0 0 None false); vm_compute; reflexivity).
  split; [exact H1|]. split; [reflexivity|]. split; [exact H2|].
  exact (proj2 (store_in_chroma_nonzero_depth Demo.env (Demo.config 30 10) "A" "text"
                  "https://ex.com/a" 1 4 (Demo.seen "https://ex.com/a") H1 eq_refl H2)).
Defined.

Lemma is_url_visited_healthy url s :
  faults s = [] -> is_url_visited url s = (Ok (Sql.select_one url (table s)), s).
Proof.
  intros Hf. unfold is_url_visited. rewrite sqlite_call_healthy by exact Hf.
  cbn [fst snd]. now destruct s.
Qed.

(** X13: On a connection that does not fail, [process_url] called with a depth
    other than 0 never adds a document to the Chroma collection and never
    sets a [processed] flag: the only thing it can leave behind is an
    unprocessed row. *)
Lemma process_url_nonzero_depth_never_indexes E cfg url d s :
  d <> 0 ->
  faults s = [] ->
  collection (snd (process_url E cfg url d s)) = collection s /\
  (forall u r', table (snd (process_url E cfg url d s)) !! u = Some r' ->
     processed r' = true -> table s !! u = Some r').
Proof.
  intros Hd Hf.
  assert (Hmain : collection (snd (process_url E cfg url d s)) = collection s /\
            (table (snd (process_url E cfg url d s)) = table s \/
             (table s !! url = None /\
              exists h, table (snd (process_url E cfg url d s))
                        = Sql.insert_or_ignore url h d None (table s)))).
  { destruct (process_url E cfg url d s) as [res s'] eqn:Hp. cbn [snd].
    unfold process_url in Hp.
    destruct (Z.eqb_spec d 0) as [|_]; [contradiction|]. cbn [negb] in Hp.
    rewrite (bind_ok _ _ _ _ _ (is_url_visited_healthy url s Hf)) in Hp.
    destruct (Sql.select_one url (table s)) eqn:Hsel.
    { unfold ret in Hp. injection Hp as _ <-. auto. }
    assert (Hnone : table s !! url = None).
    { unfold Sql.select_one in Hsel. now destruct (table s !! url). }
    unfold fetch_with_headless_browser in Hp.
    unfold bind at 1 in Hp. unfold bind at 1 in Hp. unfold get at 1 in Hp.
    cbv beta iota in Hp.
    unfold bind at 1 in Hp. unfold modify at 1 in Hp. cbv beta iota in Hp.
    unfold ret at 1 in Hp. cbv beta iota in Hp.
    set (s2 := set_fetch_log _ s) in Hp.
    assert (H2 : table s2 = table s /\ collection s2 = collection s /\ faults s2 = [])
      by (subst s2; destruct s; simpl in *; auto).
    destruct H2 as (Ht2 & Hc2 & Hf2). clearbody s2.
    destruct (of_option (browser E (List.length (fetch_log s)) url)) as [|html].
    { cbn [truthy] in Hp. unfold ret in Hp. injection Hp as _ <-. auto. }
    cbn [truthy] in Hp. destruct (str_truthy html).
    2:{ unfold ret in Hp. injection Hp as _ <-. auto. }
    unfold BeautifulSoup in Hp. unfold bind at 1 in Hp.
    destruct (html_parser E html) as [soup|].
    2:{ unfold raise in Hp. injection Hp as _ <-. auto. }
    unfold ret at 1 in Hp.
    cbv beta iota in Hp. unfold bind at 1 in Hp.
    destruct (extract_info_returns soup s2)
      as (t & c & s3 & He & Ht3 & _ & Hf3 & Hc3).
    rewrite He in Hp. cbv beta iota in Hp.
    destruct (sqlite_int d) eqn:Hint.
    2:{ assert (Hb : sqlite_int (str_hash E c) && sqlite_int d = false)
          by (rewrite Hint; apply andb_false_r).
        rewrite (bind_raise _ _ _ _ _
                   (save_url_metadata_overflow url (str_hash E c) d None s3
                      ltac:(congruence) Hb)) in Hp.
        injection Hp as _ <-. split; [congruence|]. left. congruence. }
    rewrite (bind_ok _ _ _ _ _
               (save_url_metadata_healthy url (str_hash E c) d None s3
                  ltac:(congruence) (str_hash_sqlite_int E c) Hint))
      in Hp.
    set (s4 := set_table _ s3) in Hp.
    assert (H4 : table s4 = Sql.insert_or_ignore url (str_hash E c) d None (table s) /\
                 collection s4 = collection s /\ faults s4 = []).
    { subst s4. destruct s3; simpl in *. subst. rewrite Ht2. auto. }
    destruct H4 as (Ht4 & Hc4 & Hf4). clearbody s4.
    unfold bind at 1 in Hp.
    assert (Hsome : is_Some (table s4 !! url)).
    { rewrite Ht4, insert_or_ignore_lookup. eauto. }
    destruct (store_in_chroma_nonzero_depth E cfg t c url d (str_hash E c) s4 Hd Hf4 Hsome)
      as [Ht5 Hc5].
    destruct (store_in_chroma E cfg t c url d (str_hash E c) s4) as [[[]|e] s5];
      cbn [snd] in *; unfold ret in Hp; injection Hp as _ <-.
    - split; [congruence|]. right. split; [exact Hnone|].
      exists (str_hash E c). congruence.
    - split; [congruence|]. right. split; [exact Hnone|].
      exists (str_hash E c). congruence. }
  destruct Hmain as [Hc Ht]. split; [exact Hc|].
  intros u r' Hu Hp.
  destruct Ht as [Ht | (Hnone & h & Ht)]; rewrite Ht in Hu; [exact Hu|].
  destruct (decide (url = u)) as [<-|Hne].
  - rewrite insert_or_ignore_lookup, Hnone in Hu. injection Hu as <-. discriminate.
  - now rewrite insert_or_ignore_other in Hu.
Qed.

Lemma process_url_nonzero_depth_never_indexes_witness :
  1 <> 0 /\ faults Demo.fresh = [] /\
  collection (snd (process_url Demo.env (Demo.config 30 10) "https://ex.com/a" 1
                     Demo.fresh)) = collection Demo.fresh.
Proof.
  assert (H1 : 1 <> 0) by discriminate.
  split; [exact H1|]. split; [reflexivity|].
  exact (proj1 (process_url_nonzero_depth_never_indexes Demo.env (Demo.config 30 10)
                  "https://ex.com/a" 1 Demo.fresh H1 eq_refl)).
Defined.

(** * Whole runs of the sequential crawler *)

Section SequentialRuns.

Variable E : Env.
Variable cfg : Config.

(** An iteration that processes its entry is: pop it, add its URL to
    [visited], and then run the rest of the body. *)
Lemma crawl_iter_process_steps rs s url d rest :
  queue s = (url, d) :: rest ->
  (d >? max_depth cfg) || bool_decide (url ∈ visited s) = false ->
  crawl_iter E cfg (rs, s)
  = (result <- on_self (process_url E cfg url 0) ;;
     record_result result ;;
     follow_links E cfg result d ;;
     f <- get ;;
     on_self (save_queue E (queue (snd f))))
    (rs, set_visited ({[url]} ∪ visited s) (set_queue rest s)).
Proof.
  intros Hq Hskip. apply orb_false_iff in Hskip. destruct Hskip as [Hd Hv].
  unfold crawl_iter. unfold bind at 1. unfold get at 1.
  cbn [snd]. rewrite Hq. unfold bind at 1. unfold on_self at 1, modify at 1.
  cbn [fst snd]. rewrite Hd, Hv.
  unfold bind at 1. unfold on_self at 1, modify at 1. cbn [fst snd].
  replace (visited (set_queue rest s)) with (visited s) by now destruct s.
  reflexivity.
Qed.

(** How a run of [comprehensive_crawler] is made up: the start, some
    iterations that ran to their end, and then either the statements after
    the loop or one iteration that raised. *)
Lemma comprehensive_crawler_cases fuel s f :
  comprehensive_crawler E cfg fuel s = Some f ->
  exists f1 f2,
    crawl_start E cfg ([], s) = (Ok tt, f1) /\
    iterates E cfg f1 f2 /\
    ((loop_guard cfg f2 = false /\ crawl_finish f2 = (Ok tt, f)) \/
     (exists e f3, loop_guard cfg f2 = true /\
                   crawl_iter E cfg f2 = (Raise e, f3) /\
                   f = crawl_except e f3)).
Proof.
  unfold comprehensive_crawler. intros H.
  destruct (crawl_start_spec E cfg (@nil pytuple) s) as (s1 & Hst & _).
  rewrite Hst in H. exists ([], s1).
  destruct (crawl_loop E cfg fuel ([], s1)) as [[r f2]|] eqn:Hloop; [|discriminate].
  pose proof (crawl_loop_outcome E cfg fuel _ _ _ Hloop) as Hout.
  destruct r as [[]|e].
  - destruct Hout as [Hit Hg]. exists f2. split; [exact Hst|]. split; [exact Hit|].
    left. split; [exact Hg|].
    assert (Hfin : exists f3, crawl_finish f2 = (Ok tt, f3)).
    { unfold crawl_finish. unfold_m.
      destruct (negb (nonempty (queue (snd f2))) && queue_file_exists (snd f2)); eauto. }
    destruct Hfin as [f3 Hfin].
    rewrite Hfin in H. injection H as <-. exact Hfin.
  - destruct Hout as (f0 & Hit & Hg & Hr). exists f0.
    split; [exact Hst|]. split; [exact Hit|]. right.
    exists e, f2. injection H as <-. auto.
Qed.

End SequentialRuns.

#[local] Instance crawl_tail_kept_preorder : PreOrder crawl_tail_kept.
Proof.
  split.
  - intros s. unfold crawl_tail_kept. auto.
  - intros s1 s2 s3 (A1 & A2 & A3 & A4) (B1 & B2 & B3 & B4).
    unfold crawl_tail_kept. repeat split; congruence.
Qed.

#[local] Instance records_at_depth_zero_preorder : PreOrder records_at_depth_zero.
Proof.
  split.
  - intros s. split; [reflexivity|]. intros u r' H1 H2. congruence.
  - intros s1 s2 s3 [G12 N12] [G23 N23]. split; [etransitivity; eassumption|].
    intros u r3 H1 H3.
    destruct (table s2 !! u) as [r2|] eqn:H2.
    + destruct (N12 u r2 H1 H2) as [D T].
      destruct (G23 u r2 H2) as (r3' & H3' & K1 & K2 & K3 & _).
      rewrite H3 in H3'. injection H3' as <-. split; congruence.
    + eapply N23; eassumption.
Qed.

#[local] Instance fetches_fresh_preorder : PreOrder fetches_fresh.
Proof.
  split.
  - intros s. split; [reflexivity|]. exists []. rewrite app_nil_r.
    split; [reflexivity|]. split; [constructor|]. intros u Hu. inversion Hu.
  - intros s1 s2 s3 [V12 (l1 & F1 & N1 & I1)] [V23 (l2 & F2 & N2 & I2)].
    split; [etransitivity; eassumption|].
    exists (l1 ++ l2). split; [rewrite F2, F1; now rewrite app_assoc|].
    split.
    + apply NoDup_app. split; [exact N1|]. split; [|exact N2].
      intros u Hu1 Hu2. destruct (I1 u Hu1) as [_ Hin]. destruct (I2 u Hu2) as [Hnot _].
      contradiction.
    + intros u Hu. apply elem_of_app in Hu. destruct Hu as [Hu|Hu].
      * destruct (I1 u Hu). split; [assumption|]. now apply V23.
      * destruct (I2 u Hu) as [Hn Hi]. split; [|assumption].
        intros Hc. apply Hn. now apply V12.
Qed.

#[local] Instance fetches_counted_preorder : PreOrder fetches_counted.
Proof.
  split.
  - intros s. unfold fetches_counted. lia.
  - intros s1 s2 s3 H12 H23. unfold fetches_counted in *. lia.
Qed.

Section SequentialEffects.

Variable E : Env.
Variable cfg : Config.

(** X14: Called for the seed depth, [process_url] always calls the browser,
    exactly once, whatever happens afterwards. *)
Lemma process_url_seed_fetch url s :
  fetch_log (snd (process_url E cfg url 0 s)) = fetch_log s ++ [url].
Proof.
  unfold process_url. cbn [Z.eqb negb].
  unfold bind at 1. unfold ret at 1. cbv beta iota.
  unfold bind at 1. unfold fetch_with_headless_browser at 1.
  unfold bind at 1. unfold get at 1. cbv beta iota.
  unfold bind at 1. unfold modify at 1. cbv beta iota. unfold ret at 1.
  cbv beta iota.
  set (html := of_option _). set (s2 := set_fetch_log _ s).
  assert (H2 : fetch_log s2 = fetch_log s ++ [url]) by (subst s2; now destruct s).
  rewrite <- H2. clear H2. clearbody s2 html. revert s2.
  change (keeps fetch_log_kept
            (if truthy html
             then soup <- BeautifulSoup E html ;;
                  info <- extract_info soup ;;
                  (let '(title, content) := info in
                   save_url_metadata url (str_hash E content) 0 None ;;
                   store_in_chroma E cfg title content url 0 (str_hash E content) ;;
                   ret [PStr title; PStr content; html])
             else ret [PNone; PNone; html])).
  unfold BeautifulSoup.
  keeps_tac ltac:(first
    [ apply inv_extract_info
    | apply inv_save_url_metadata
    | apply inv_store_in_chroma ];
    try typeclasses eauto; intros; unfold fetch_log_kept;
    match goal with s0 : State |- _ => now destruct s0 end).
Qed.

Lemma crawl_iter_tail result d :
  keeps (on_state crawl_tail_kept)
    (record_result result ;;
     follow_links E cfg result d ;;
     f <- get ;;
     on_self (save_queue E (queue (snd f)))).
Proof.
  assert (Hx : forall s s', table s' = table s -> fetch_log s' = fetch_log s ->
                 visited s' = visited s -> collection s' = collection s ->
                 crawl_tail_kept s s').
  { intros s s' H1 H2 H3 H4. unfold crawl_tail_kept. auto. }
  unfold save_queue.
  keeps_tac ltac:(first
    [ apply loop_record_result
    | apply loop_follow_links
    | apply loop_modify_self ];
    try typeclasses eauto; intros; apply Hx;
    match goal with s0 : State |- _ => now destruct s0 end).
Qed.

(** One iteration that processes its entry: the browser is called for the
    URL of the entry and for nothing else, the URL joins [visited], and the
    table is what [process_url] left. *)
Lemma crawl_iter_effect rs s url d rest r f' :
  queue s = (url, d) :: rest ->
  (d >? max_depth cfg) || bool_decide (url ∈ visited s) = false ->
  crawl_iter E cfg (rs, s) = (r, f') ->
  let sA := set_visited ({[url]} ∪ visited s) (set_queue rest s) in
  fetch_log (snd f') = fetch_log s ++ [url] /\
  visited (snd f') = {[url]} ∪ visited s /\
  table (snd f') = table (snd (process_url E cfg url 0 sA)) /\
  collection (snd f') = collection (snd (process_url E cfg url 0 sA)).
Proof.
  intros Hq Hskip Hit sA.
  rewrite (crawl_iter_process_steps E cfg rs s url d rest Hq Hskip) in Hit.
  fold sA in Hit. unfold bind at 1 in Hit. unfold on_self at 1 in Hit.
  cbn [fst snd] in Hit.
  pose proof (process_url_seed_fetch url sA) as Hf.
  pose proof (process_url_session E cfg url 0 sA) as Hs.
  destruct (process_url E cfg url 0 sA) as [[t|e] sB]; cbn [snd] in *.
  - pose proof (crawl_iter_tail t d (rs, sB)) as Ht. rewrite Hit in Ht.
    unfold on_state in Ht. cbn [snd] in Ht.
    destruct Ht as (T1 & T2 & T3 & T4). destruct Hs as (S1 & _).
    rewrite T1, T2, T3, T4, Hf, S1. subst sA. destruct s; simpl. auto.
  - injection Hit as _ <-. cbn [snd]. destruct Hs as (S1 & _).
    rewrite Hf, S1. subst sA. destruct s; simpl. auto.
Qed.

End SequentialEffects.

(** A relation that every iteration of the loop respects, whether it ends
    or raises, and that does not look at the queue, the queue file or the
    log, holds between the start and the end of a run. *)
Section RunInvariant.

Variable E : Env.
Variable cfg : Config.
Variable R : State -> State -> Prop.
Context `{!PreOrder R}.

Hypothesis R_frame : forall s s',
  table s' = table s -> fetch_log s' = fetch_log s ->
  visited s' = visited s -> link_count s' = link_count s -> R s s'.
Hypothesis R_iter : forall f r f',
  loop_guard cfg f = true -> crawl_iter E cfg f = (r, f') -> R (snd f) (snd f').

Lemma iterates_invariant f f' : iterates E cfg f f' -> R (snd f) (snd f').
Proof.
  induction 1 as [f | f f1 f2 Hg Hit _ IH]; [reflexivity|].
  etransitivity; [eapply R_iter; eassumption | exact IH].
Qed.

Lemma run_invariant fuel s f :
  comprehensive_crawler E cfg fuel s = Some f -> R s (snd f).
Proof.
  intros H.
  destruct (comprehensive_crawler_cases E cfg fuel s f H)
    as (f1 & f2 & Hst & Hit & Hend).
  destruct (crawl_start_spec E cfg (@nil pytuple) s)
    as (s1 & Hst' & _ & _ & A1 & A2 & _ & A4 & A5 & _).
  rewrite Hst' in Hst. injection Hst as <-.
  etransitivity; [apply (R_frame s s1); assumption|].
  etransitivity; [apply (iterates_invariant _ _ Hit)|]. cbn [snd].
  destruct Hend as [[Hg Hfin] | (e & f3 & Hg & Hr & ->)].
  - unfold crawl_finish in Hfin. unfold_m.
    destruct (negb (nonempty (queue (snd f2))) && queue_file_exists (snd f2));
      injection Hfin as <-; cbn [snd].
    + unfold remove_queue_file. unfold_m. cbn [snd].
      apply R_frame; now destruct (snd f2).
    + reflexivity.
  - etransitivity; [eapply R_iter; eassumption|].
    unfold crawl_except. cbn [snd]. apply R_frame; now destruct (snd f3).
Qed.

End RunInvariant.

Section SequentialRunProperties.

Variable E : Env.
Variable cfg : Config.

Lemma crawl_iter_records f r f' :
  loop_guard cfg f = true ->
  crawl_iter E cfg f = (r, f') ->
  records_at_depth_zero (snd f) (snd f').
Proof.
  intros Hg Hit. destruct f as [rs s].
  destruct (loop_guard_true cfg _ Hg) as [(url & d & rest & Hq) _]. cbn [snd] in *.
  destruct ((d >? max_depth cfg) || bool_decide (url ∈ visited s)) eqn:Hskip.
  - rewrite (crawl_iter_skip E cfg rs s url d rest Hq Hskip) in Hit.
    injection Hit as _ <-. cbn [snd].
    assert (Ht : table (set_queue rest s) = table s) by now destruct s.
    split; [now apply store_grows_same|]. intros u r' H1 H2. congruence.
  - destruct (crawl_iter_effect E cfg rs s url d rest r f' Hq Hskip Hit)
      as (_ & _ & Ht & _).
    set (sA := set_visited _ _) in Ht.
    assert (HtA : table sA = table s) by (subst sA; now destruct s).
    destruct (process_url_store_grows E cfg url 0 sA) as [Hgrow Hadd].
    split.
    + intros u r0 Hu. rewrite <- HtA in Hu.
      destruct (Hgrow u r0 Hu) as (r1 & H1 & K). exists r1. now rewrite Ht.
    + intros u r' Hn Hu. rewrite Ht in Hu. rewrite <- HtA in Hn.
      destruct (decide (u = url)) as [->|Hne].
      * destruct (process_url_new_row E cfg url 0 sA r' Hn Hu) as (T & D & _). auto.
      * rewrite (Hadd u Hne Hn) in Hu. discriminate.
Qed.

(** X25: Every row that a run of [comprehensive_crawler] adds to [url_metadata]
    has depth 0, whatever the depth of the frontier entry was, and no
    title; the rows that were there are kept. *)
Lemma sequential_crawler_records_depth_zero fuel s f u r' :
  comprehensive_crawler E cfg fuel s = Some f ->
  table s !! u = None ->
  table (snd f) !! u = Some r' ->
  depth r' = 0 /\ title r' = None.
Proof.
  intros H Hn Hu.
  assert (HR : records_at_depth_zero s (snd f)).
  { apply (run_invariant E cfg records_at_depth_zero) with (fuel := fuel);
      [|apply crawl_iter_records|exact H].
    intros s0 s' Ht _ _ _. split; [now apply store_grows_same|].
    intros u0 r0 H1 H2. congruence. }
  destruct HR as [_ HN]. eapply HN; eassumption.
Qed.

Lemma crawl_iter_fetches_fresh f r f' :
  loop_guard cfg f = true ->
  crawl_iter E cfg f = (r, f') ->
  fetches_fresh (snd f) (snd f').
Proof.
  intros Hg Hit. destruct f as [rs s].
  destruct (loop_guard_true cfg _ Hg) as [(url & d & rest & Hq) _]. cbn [snd] in *.
  destruct ((d >? max_depth cfg) || bool_decide (url ∈ visited s)) eqn:Hskip.
  - rewrite (crawl_iter_skip E cfg rs s url d rest Hq Hskip) in Hit.
    injection Hit as _ <-. cbn [snd].
    replace (set_queue rest s) with (set_queue rest s) by reflexivity.
    split; [now destruct s|]. exists []. rewrite app_nil_r.
    split; [now destruct s|]. split; [constructor|]. intros u Hu. inversion Hu.
  - destruct (crawl_iter_effect E cfg rs s url d rest r f' Hq Hskip Hit)
      as (Hf & Hv & _).
    apply orb_false_iff in Hskip. destruct Hskip as [_ Hnv].
    apply bool_decide_eq_false in Hnv.
    split; [rewrite Hv; apply union_subseteq_r|].
    exists [url]. split; [exact Hf|]. split; [apply NoDup_singleton|].
    intros u Hu. apply list_elem_of_singleton in Hu. subst u.
    split; [exact Hnv|]. rewrite Hv. apply elem_of_union_l. now apply elem_of_singleton.
Qed.

Lemma iterates_fetches_counted f f' :
  iterates E cfg f f' -> fetches_counted (snd f) (snd f').
Proof.
  induction 1 as [f | f f1 f2 Hg Hit _ IH]; [reflexivity|].
  etransitivity; [|exact IH]. clear IH. destruct f as [rs s].
  destruct (loop_guard_true cfg _ Hg) as [(url & d & rest & Hq) _]. cbn [snd] in *.
  destruct ((d >? max_depth cfg) || bool_decide (url ∈ visited s)) eqn:Hskip.
  - rewrite (crawl_iter_skip E cfg rs s url d rest Hq Hskip) in Hit.
    injection Hit as <-. unfold fetches_counted. cbn [snd]. destruct s; simpl. lia.
  - destruct (crawl_iter_effect E cfg rs s url d rest _ f1 Hq Hskip Hit) as (Hf & _).
    destruct (crawl_iter_process E cfg rs s url d rest Hq Hskip)
      as (r & rs' & s' & H & _ & _ & Hr).
    rewrite H in Hit. injection Hit as -> <-. destruct Hr as (Hl & _).
    unfold fetches_counted. cbn [snd] in *. rewrite Hf, Hl, length_app. simpl. lia.
Qed.

(** X26: Within one run of [comprehensive_crawler] the browser is called at most
    once per URL, only for URLs that were not in [visited] when the run
    began, and at most as many times as the budget left
    ([max_links - link_count]). *)
Lemma sequential_crawler_fetches fuel s f :
  comprehensive_crawler E cfg fuel s = Some f ->
  link_count s <= max_links cfg ->
  exists l,
    fetch_log (snd f) = fetch_log s ++ l /\
    NoDup l /\
    (forall u, u ∈ l -> u ∉ visited s) /\
    Z.of_nat (List.length l) <= max_links cfg - link_count s.
Proof.
  intros H Hle.
  assert (HR : fetches_fresh s (snd f)).
  { apply (run_invariant E cfg fetches_fresh) with (fuel := fuel);
      [|apply crawl_iter_fetches_fresh|exact H].
    intros s0 s' _ Hf Hv _. split; [now rewrite Hv|].
    exists []. rewrite app_nil_r. split; [exact Hf|]. split; [constructor|].
    intros u Hu. inversion Hu. }
  destruct HR as [_ (l & Hl & Hnd & Hin)].
  exists l. split; [exact Hl|]. split; [exact Hnd|].
  split; [intros u Hu; now destruct (Hin u Hu)|].
  assert (Hlen : Z.of_nat (List.length l)
                 = Z.of_nat (List.length (fetch_log (snd f)))
                   - Z.of_nat (List.length (fetch_log s))).
  { rewrite Hl, length_app. lia. }
  rewrite Hlen. clear Hl Hnd Hin Hlen l.
  destruct (comprehensive_crawler_cases E cfg fuel s f H)
    as (f1 & f2 & Hst & Hit & Hend).
  destruct (crawl_start_spec E cfg (@nil pytuple) s)
    as (s1 & Hst' & _ & _ & _ & A2 & _ & _ & A5 & _).
  rewrite Hst' in Hst. injection Hst as <-.
  pose proof (iterates_fetches_counted _ _ Hit) as Hc.
  pose proof (iterates_budget E cfg _ _ Hit) as Hb.
  unfold fetches_counted in Hc. cbn [snd] in Hc, Hb.
  rewrite A2, A5 in Hc. rewrite A2 in Hb. specialize (Hb Hle).
  destruct Hend as [[Hg Hfin] | (e & f3 & Hg & Hr & ->)].
  - assert (Hsame : fetch_log (snd f) = fetch_log (snd f2)).
    { unfold crawl_finish in Hfin. unfold_m.
      destruct (negb (nonempty (queue (snd f2))) && queue_file_exists (snd f2));
        injection Hfin as <-; cbn [snd]; [|reflexivity].
      unfold remove_queue_file. unfold_m. cbn [snd]. now destruct (snd f2). }
    rewrite Hsame. lia.
  - destruct f2 as [rs2 s2]. cbn [snd] in *.
    destruct (loop_guard_true cfg _ Hg) as [(url & d & rest & Hq) Hlt]. cbn [snd] in *.
    destruct ((d >? max_depth cfg) || bool_decide (url ∈ visited s2)) eqn:Hskip.
    + rewrite (crawl_iter_skip E cfg rs2 s2 url d rest Hq Hskip) in Hr. discriminate.
    + destruct (crawl_iter_effect E cfg rs2 s2 url d rest _ f3 Hq Hskip Hr) as (Hf & _).
      replace (fetch_log (snd (crawl_except e f3))) with (fetch_log (snd f3))
        by (unfold crawl_except; cbn [snd]; now destruct (snd f3)).
      rewrite Hf, length_app. simpl. lia.
Qed.

End SequentialRunProperties.

(** * Failed fetches, discovered links and resumption *)

Section SequentialDetails.

Variable E : Env.
Variable cfg : Config.

(** X18: An entry whose fetch fails is still counted against the budget and
    still yields a result, [(None, None, None)]; nothing is recorded for it
    and no link is enqueued. *)
Lemma crawl_iter_failed_fetch rs s url d rest :
  queue s = (url, d) :: rest ->
  (d >? max_depth cfg) || bool_decide (url ∈ visited s) = false ->
  browser E (List.length (fetch_log s)) url = None ->
  exists s',
    crawl_iter E cfg (rs, s) = (Ok tt, (rs ++ [[PNone; PNone; PNone]], s')) /\
    link_count s' = link_count s + 1 /\
    queue s' = rest /\
    table s' = table s /\
    queue_file s' = Some (pickle_dumps E rest).
Proof.
  intros Hq Hskip Hb.
  rewrite (crawl_iter_process_steps E cfg rs s url d rest Hq Hskip).
  destruct s as [v n q tbl fl qf col fe lg]. simpl in Hq, Hb. subst q.
  unfold process_url, fetch_with_headless_browser, record_result, follow_links,
    extract_links, BeautifulSoup, save_queue, append_result, unpack3, tuple_item.
  unfold_m. cbn -[lookup insert alter union]. rewrite Hb.
  cbn -[lookup insert alter union].
  destruct ((n + 1 <? max_links cfg) && (d + 1 <=? max_depth cfg));
    cbn -[lookup insert alter union]; eexists; (split; [reflexivity|]);
    cbn; auto.
Qed.

Lemma set_queue_set_queue q1 q2 s : set_queue q2 (set_queue q1 s) = set_queue q2 s.
Proof. now destruct s. Qed.






End SequentialDetails.

Section Resumption.

Variable E : Env.
Variable cfg : Config.

Lemma load_queue_stored s : fst (load_queue E s) = Ok (stored_frontier E s).
Proof.
  unfold load_queue, stored_frontier. unfold_m.
  destruct (queue_file s) as [bytes|]; [|reflexivity].
  destruct (pickle_loads E bytes); reflexivity.
Qed.

(** X15: A crawl starts from what is on disk, or from the seed when that is
    nothing: no file, an unreadable file, or an empty queue. *)
Lemma initial_frontier_stored s :
  initial_frontier E cfg s = seeded cfg (stored_frontier E s).
Proof.
  unfold initial_frontier.
  destruct (crawl_start_spec E cfg (@nil pytuple) s) as (s1 & H & Hq & _).
  rewrite H. cbn [snd]. rewrite Hq, load_queue_stored. unfold seeded.
  now destruct (stored_frontier E s).
Qed.

(** Between iterations, either what is on disk is what is in memory, or
    there is budget left (so that the loop goes on, or stops on an empty
    queue). *)
Lemma iterates_snapshot f f' :
  (forall q, pickle_loads E (pickle_dumps E q) = Some q) ->
  iterates E cfg f f' ->
  seeded cfg (stored_frontier E (snd f)) = seeded cfg (queue (snd f)) \/
    link_count (snd f) < max_links cfg ->
  seeded cfg (stored_frontier E (snd f')) = seeded cfg (queue (snd f')) \/
    link_count (snd f') < max_links cfg.
Proof.
  intros Hp. induction 1 as [f | f f1 f2 Hg Hit _ IH]; intros H0; [exact H0|].
  apply IH. clear IH.
  destruct (loop_guard_true cfg _ Hg) as [_ Hlt].
  destruct (crawl_iter_progress E cfg f f1 Hg Hit) as [(H1 & _) | (_ & _ & H3)].
  - right. lia.
  - left. unfold stored_frontier. now rewrite H3, Hp.
Qed.

(** X29: After a run that ended without an error, a new scraper over the same
    disk starts from the queue the run left in memory, and from the seed
    when that queue was empty, provided that unpickling inverts pickling. *)
Lemma sequential_crawler_resumable fuel s f2 :
  (forall q, pickle_loads E (pickle_dumps E q) = Some q) ->
  crawl_loop E cfg fuel (snd (crawl_start E cfg ([], s))) = Some (Ok tt, f2) ->
  initial_frontier E cfg (restart (snd (snd (crawl_finish f2))))
  = seeded cfg (queue (snd f2)).
Proof.
  intros Hp Hloop.
  destruct (crawl_start_spec E cfg (@nil pytuple) s)
    as (s1 & Hst & Hq & Hne & _ & _ & Hfile & _).
  rewrite Hst in Hloop. cbn [snd] in Hloop.
  destruct (crawl_loop_outcome E cfg fuel _ _ _ Hloop) as [Hit Hg].
  assert (H1 : seeded cfg (stored_frontier E s1) = seeded cfg (queue s1)).
  { assert (Hs : stored_frontier E s1 = stored_frontier E s)
      by (unfold stored_frontier; now rewrite Hfile).
    rewrite Hs, Hq, load_queue_stored. unfold seeded.
    now destruct (stored_frontier E s). }
  pose proof (iterates_snapshot _ _ Hp Hit (or_introl H1)) as H2.
  rewrite initial_frontier_stored.
  assert (Hr : forall s0, stored_frontier E (restart s0) = stored_frontier E s0)
    by (intros s0; now destruct s0).
  rewrite Hr. unfold crawl_finish. unfold_m.
  destruct (loop_guard_false cfg _ Hg) as [Hempty|Hfull].
  - rewrite Hempty. cbn [nonempty negb andb].
    destruct (queue_file_exists (snd f2)) eqn:Hex; cbn [snd].
    + unfold remove_queue_file. unfold_m. cbn [snd].
      unfold stored_frontier. now destruct (snd f2).
    + unfold stored_frontier, queue_file_exists in *.
      now destruct (queue_file (snd f2)).
  - destruct H2 as [H2|H2]; [|lia].
    destruct (negb (nonempty (queue (snd f2))) && queue_file_exists (snd f2)) eqn:Hb;
      cbn [snd]; [|exact H2].
    apply andb_true_iff in Hb. destruct Hb as [Hb _].
    destruct (queue (snd f2)); [|discriminate].
    unfold remove_queue_file. unfold_m. cbn [snd].
    unfold stored_frontier. now destruct (snd f2).
Qed.

End Resumption.

(** * Scope and depth of what the sequential loop enqueues and fetches *)

#[local] Instance appends_preorder P : PreOrder (appends P).
Proof.
  split.
  - intros s. exists []. rewrite app_nil_r. split; [reflexivity | constructor].
  - intros s1 s2 s3 (l1 & A1 & A2) (l2 & B1 & B2).
    exists (l1 ++ l2). split; [rewrite B1, A1; now rewrite app_assoc|].
    apply Forall_app. now split.
Qed.

#[local] Instance results_counted_preorder : PreOrder results_counted.
Proof.
  split.
  - intros f. unfold results_counted. lia.
  - intros f1 f2 f3 H12 H23. unfold results_counted in *. lia.
Qed.

Lemma keeps_bind_returns {St A B} (R : St -> St -> Prop) `{!PreOrder R}
    (Q : A -> Prop) (m : M St A) (k : A -> M St B) :
  keeps R m -> returns Q m -> (forall a, Q a -> keeps R (k a)) ->
  keeps R (bind m k).
Proof.
  intros Hm Hq Hk s. unfold bind.
  specialize (Hm s). destruct (m s) as [[a|e] s1] eqn:Hms; cbn [snd] in *.
  - etransitivity; [exact Hm|]. apply Hk. eapply Hq. exact Hms.
  - exact Hm.
Qed.

Lemma returns_try {St A} (P : A -> Prop) (m : M St A) (h : Exn -> M St A) :
  returns P m -> (forall e, returns P (h e)) -> returns P (try_except m h).
Proof.
  intros Hm Hh s a s' H. unfold try_except in H.
  destruct (m s) as [[a0|e] s1] eqn:Hms.
  - injection H as <- <-. eapply Hm. exact Hms.
  - eapply Hh. exact H.
Qed.

Lemma returns_on_self {L A} (P : A -> Prop) (m : M State A) :
  returns P m -> returns P (@on_self L A m).
Proof.
  intros Hm [l s] a f' H. unfold on_self in H. cbn [fst snd] in H.
  destruct (m s) as [r s1] eqn:Hms. injection H as -> _. eapply Hm. exact Hms.
Qed.

Section Scope.

Variable E : Env.
Variable cfg : Config.

(** Every link that [extract_links] returns starts with [start_url]. *)
Lemma extract_links_in_scope page :
  returns (Forall (fun link => String.prefix (start_url cfg) link = true))
          (extract_links E cfg page).
Proof.
  unfold extract_links. apply returns_try.
  - apply returns_bind. intros soup. apply returns_bind. intros _.
    apply returns_ret. apply Forall_forall. intros x Hx.
    apply list_elem_of_In in Hx. apply filter_In in Hx. now destruct Hx.
  - intros e. apply returns_bind. intros _. apply returns_ret. constructor.
Qed.

Lemma appends_same P s s' : queue s' = queue s -> appends P s s'.
Proof.
  intros H. exists []. rewrite app_nil_r. split; [exact H | constructor].
Qed.

Lemma consider_link_appends link d :
  String.prefix (start_url cfg) link = true ->
  keeps (on_state (appends (fun e => String.prefix (start_url cfg) (fst e) = true
                                      /\ snd e = d + 1)))
        (consider_link cfg link d).
Proof.
  intros Hl. unfold consider_link, queue_append.
  keeps_tac ltac:(first
    [ apply loop_is_url_visited; try typeclasses eauto;
      intros; apply appends_same; now destruct s
    | apply loop_modify_self; intros s0; exists [(link, d + 1)];
      split; [now destruct s0 | repeat constructor; exact Hl] ]).
Qed.

Lemma follow_links_appends result d :
  keeps (on_state (appends (discovered cfg d))) (follow_links E cfg result d).
Proof.
  unfold follow_links.
  refine (keeps_bind _ _ _ _ _); [refine (keeps_get _)|]. intros f.
  destruct (link_count (snd f) <? max_links cfg); cbn [andb];
    [|refine (keeps_ret _ _)].
  destruct (Z.leb_spec (d + 1) (max_depth cfg)) as [Hd|_]; [|refine (keeps_ret _ _)].
  refine (keeps_bind _ _ _ _ _).
  { unfold tuple_item. keeps_tac fail. }
  intros page.
  refine (keeps_bind_returns _
            (Forall (fun link => String.prefix (start_url cfg) link = true)) _ _ _ _ _).
  - apply loop_extract_links; try typeclasses eauto;
      intros; apply appends_same; now destruct s.
  - apply returns_on_self, extract_links_in_scope.
  - intros links Hlinks. induction Hlinks as [|link links Hl _ IH]; cbn [for_each].
    + refine (keeps_ret _ _).
    + refine (keeps_bind _ _ _ _ _); [|intros _; exact IH].
      intros f0. destruct (consider_link_appends link d Hl f0) as (l & Hq & Hall).
      exists l. split; [exact Hq|].
      eapply Forall_impl; [exact Hall|]. intros e [H1 H2].
      unfold discovered. auto.
Qed.

(** One iteration, however it ends: the head of the queue is gone, and
    what was appended are links discovered on the page of the entry. *)
Lemma crawl_iter_queue rs s url d rest r f' :
  queue s = (url, d) :: rest ->
  crawl_iter E cfg (rs, s) = (r, f') ->
  exists l, queue (snd f') = rest ++ l /\ Forall (discovered cfg d) l.
Proof.
  intros Hq Hit.
  destruct ((d >? max_depth cfg) || bool_decide (url ∈ visited s)) eqn:Hskip.
  - rewrite (crawl_iter_skip E cfg rs s url d rest Hq Hskip) in Hit.
    injection Hit as _ <-. exists []. rewrite app_nil_r.
    split; [now destruct s | constructor].
  - rewrite (crawl_iter_process_steps E cfg rs s url d rest Hq Hskip) in Hit.
    set (sA := set_visited _ _) in Hit.
    assert (HqA : queue sA = rest) by (subst sA; now destruct s).
    clearbody sA.
    unfold bind at 1 in Hit. unfold on_self at 1 in Hit. cbn [fst snd] in Hit.
    pose proof (process_url_session E cfg url 0 sA) as Hs.
    destruct (process_url E cfg url 0 sA) as [[t|e] sB]; cbn [snd] in Hs;
      destruct Hs as (_ & _ & HqB & _).
    2:{ injection Hit as _ <-. exists []. rewrite app_nil_r. cbn [snd].
        split; [congruence | constructor]. }
    assert (K : keeps (on_state (appends (discovered cfg d)))
                  (record_result t ;;
                   follow_links E cfg t d ;;
                   f <- get ;; on_self (save_queue E (queue (snd f))))).
    { unfold save_queue.
      keeps_tac ltac:(first
        [ apply follow_links_appends
        | apply loop_record_result; try typeclasses eauto;
          intros; apply appends_same; now destruct s0
        | apply loop_modify_self; intros s0; apply appends_same; now destruct s0 ]). }
    specialize (K (rs, sB)). rewrite Hit in K. unfold on_state in K. cbn [snd] in K.
    destruct K as (l & Hl & Hall). exists l.
    split; [rewrite Hl, HqB, HqA; reflexivity | exact Hall].
Qed.

End Scope.

Section ScopeOfRuns.

Variable E : Env.
Variable cfg : Config.

Lemma discovered_entry_ok q0 d e : discovered cfg d e -> entry_ok cfg q0 e.
Proof. intros (H1 & H2 & H3). right. split; [exact H1 | lia]. Qed.

(** X27: What a run of [comprehensive_crawler] fetches and what it leaves in the
    queue: every URL handed to the browser is the URL of an entry of depth
    at most [max_depth] that either was in the frontier the run started
    from or is a discovered link that starts with [start_url]; and every
    entry left in the queue is of one of these two kinds. *)
Lemma sequential_crawler_scope fuel s f :
  comprehensive_crawler E cfg fuel s = Some f ->
  let q0 := initial_frontier E cfg s in
  Forall (entry_ok cfg q0) (queue (snd f)) /\
  forall u, u ∈ fetch_log (snd f) ->
    u ∈ fetch_log s \/
    exists d, d <= max_depth cfg /\ entry_ok cfg q0 (u, d).
Proof.
  intros H q0.
  set (I := fun st : State =>
         Forall (entry_ok cfg q0) (queue st) /\
         forall u, u ∈ fetch_log st ->
           u ∈ fetch_log s \/ exists d, d <= max_depth cfg /\ entry_ok cfg q0 (u, d)).
  change (I (snd f)).
  assert (Hframe : forall st st', queue st' = queue st -> fetch_log st' = fetch_log st ->
                     I st -> I st').
  { intros st st' Hq Hf [I1 I2]. split; [now rewrite Hq | now rewrite Hf]. }
  assert (Hiter : forall g r g', loop_guard cfg g = true ->
                    crawl_iter E cfg g = (r, g') -> I (snd g) -> I (snd g')).
  { intros [rs st] r g' Hg Hit [I1 I2].
    destruct (loop_guard_true cfg _ Hg) as [(url & d & rest & Hq) _]. cbn [snd] in *.
    rewrite Hq in I1. inversion I1 as [|e0 l0 Hhead Hrest]; subst.
    destruct (crawl_iter_queue E cfg rs st url d rest r g' Hq Hit) as (l & Hl & Hall).
    split.
    - rewrite Hl. apply Forall_app. split; [exact Hrest|].
      eapply Forall_impl; [exact Hall|]. intros e. apply discovered_entry_ok.
    - destruct ((d >? max_depth cfg) || bool_decide (url ∈ visited st)) eqn:Hskip.
      + rewrite (crawl_iter_skip E cfg rs st url d rest Hq Hskip) in Hit.
        injection Hit as _ <-. cbn [snd].
        replace (fetch_log (set_queue rest st)) with (fetch_log st) by now destruct st.
        exact I2.
      + destruct (crawl_iter_effect E cfg rs st url d rest r g' Hq Hskip Hit)
          as (Hf & _).
        intros u Hu. rewrite Hf in Hu. apply elem_of_app in Hu.
        destruct Hu as [Hu|Hu]; [now apply I2|].
        apply list_elem_of_singleton in Hu. subst u. right. exists d.
        apply orb_false_iff in Hskip. destruct Hskip as [Hd _].
        split; [|exact Hhead]. apply Z.gtb_ltb in Hd || idtac.
        destruct (Z.gtb_spec d (max_depth cfg)); [discriminate | lia]. }
  destruct (comprehensive_crawler_cases E cfg fuel s f H)
    as (f1 & f2 & Hst & Hit & Hend).
  assert (I1 : I (snd f1)).
  { subst q0 I. unfold initial_frontier. rewrite Hst. cbn [snd]. split.
    - apply Forall_forall. intros e He. now left.
    - destruct (crawl_start_spec E cfg (@nil pytuple) s)
        as (s1 & Hst' & _ & _ & _ & _ & _ & _ & A5 & _).
      rewrite Hst' in Hst. injection Hst as <-. cbn [snd]. rewrite A5. auto. }
  assert (I2 : I (snd f2)).
  { clear Hend Hst H. induction Hit as [g | g g1 g2 Hg Hstep _ IH]; [exact I1|].
    apply IH. eapply Hiter; eassumption. }
  destruct Hend as [[Hg Hfin] | (e & f3 & Hg & Hr & ->)].
  - unfold crawl_finish in Hfin. unfold_m.
    destruct (negb (nonempty (queue (snd f2))) && queue_file_exists (snd f2));
      injection Hfin as <-; cbn [snd]; [|exact I2].
    unfold remove_queue_file. unfold_m. cbn [snd].
    eapply Hframe; [| |exact I2]; now destruct (snd f2).
  - pose proof (Hiter _ _ _ Hg Hr I2) as I3.
    unfold crawl_except. cbn [snd].
    eapply Hframe; [| |exact I3]; now destruct (snd f3).
Qed.

Lemma crawl_iter_results_counted f r f' :
  loop_guard cfg f = true ->
  crawl_iter E cfg f = (r, f') ->
  results_counted f f'.
Proof.
  intros Hg Hit. destruct f as [rs s].
  destruct (loop_guard_true cfg _ Hg) as [(url & d & rest & Hq) _]. cbn [snd] in *.
  destruct ((d >? max_depth cfg) || bool_decide (url ∈ visited s)) eqn:Hskip.
  - rewrite (crawl_iter_skip E cfg rs s url d rest Hq Hskip) in Hit.
    injection Hit as _ <-. unfold results_counted. cbn [fst snd]. destruct s; simpl. lia.
  - rewrite (crawl_iter_process_steps E cfg rs s url d rest Hq Hskip) in Hit.
    set (sA := set_visited _ _) in Hit.
    assert (HlA : link_count sA = link_count s) by (subst sA; now destruct s).
    clearbody sA.
    unfold bind at 1 in Hit. unfold on_self at 1 in Hit. cbn [fst snd] in Hit.
    pose proof (process_url_session E cfg url 0 sA) as Hs.
    pose proof (process_url_arity E cfg url 0 sA) as Har.
    destruct (process_url E cfg url 0 sA) as [[t|e] sB]; cbn [snd] in Hs;
      destruct Hs as (_ & HlB & _).
    + destruct (Har t sB eq_refl) as (a & b & c & ->).
      unfold bind at 1 in Hit.
      change (record_result [a; b; c] (rs, sB))
        with (@Ok unit tt, (rs ++ [[a; b; c]], set_link_count (link_count sB + 1) sB))
        in Hit.
      cbv iota beta in Hit.
      set (sC := set_link_count _ sB) in Hit.
      assert (HlC : link_count sC = link_count sB + 1) by (subst sC; now destruct sB).
      clearbody sC.
      unfold bind at 1 in Hit.
      pose proof (follow_links_grows E cfg [a; b; c] d (rs ++ [[a; b; c]], sC)) as K.
      destruct (follow_links E cfg [a; b; c] d (rs ++ [[a; b; c]], sC))
        as [[[]|e] [rsD sD]]; unfold locals_kept, frontier_grows in K;
        cbn [fst snd] in K; destruct K as (K0 & _ & K2 & _).
      * unfold save_queue in Hit. unfold_m. cbn [fst snd] in Hit.
        injection Hit as _ <-. unfold results_counted. cbn [fst snd].
        replace (link_count (set_queue_file (Some (pickle_dumps E (queue sD))) sD))
          with (link_count sD) by now destruct sD.
        rewrite K0, K2, length_app. simpl. lia.
      * injection Hit as _ <-. unfold results_counted. cbn [fst snd].
        rewrite K0, K2, length_app. simpl. lia.
    + injection Hit as _ <-. unfold results_counted. cbn [fst snd]. lia.
Qed.

(** X28: The list that [comprehensive_crawler] returns has one item for every
    link it counted, whether the run ended normally or on an error; the
    items of failed fetches are among them. *)
Lemma sequential_crawler_results_counted fuel s f :
  comprehensive_crawler E cfg fuel s = Some f ->
  Z.of_nat (List.length (fst f)) = link_count (snd f) - link_count s.
Proof.
  intros H.
  destruct (comprehensive_crawler_cases E cfg fuel s f H)
    as (f1 & f2 & Hst & Hit & Hend).
  destruct (crawl_start_spec E cfg (@nil pytuple) s)
    as (s1 & Hst' & _ & _ & _ & A2 & _).
  rewrite Hst' in Hst. injection Hst as <-.
  assert (H2 : results_counted ([], s1) f2).
  { clear Hend H Hst'. induction Hit as [g | g g1 g2 Hg Hstep _ IH]; [reflexivity|].
    etransitivity; [eapply crawl_iter_results_counted; eassumption | exact IH]. }
  unfold results_counted in H2. cbn [fst snd List.length] in H2.
  destruct Hend as [[Hg Hfin] | (e & f3 & Hg & Hr & ->)].
  - unfold crawl_finish in Hfin. unfold_m.
    destruct (negb (nonempty (queue (snd f2))) && queue_file_exists (snd f2));
      injection Hfin as <-; cbn [fst snd]; [|lia].
    unfold remove_queue_file. unfold_m. cbn [fst snd].
    replace (link_count (set_queue_file None (snd f2))) with (link_count (snd f2))
      by now destruct (snd f2).
    lia.
  - pose proof (crawl_iter_results_counted _ _ _ Hg Hr) as H3.
    unfold results_counted in H3. unfold crawl_except. cbn [fst snd].
    replace (link_count (set_log (log (snd f3) ++ [ErrCrawling e]) (snd f3)))
      with (link_count (snd f3)) by now destruct (snd f3).
    lia.
Qed.

End ScopeOfRuns.

(** * The properties above on the demo web *)

Lemma crawl_iter_skip_witness :
  let cfg := Demo.config 30 2 in
  let s := set_queue [("https://ex.com/deep"%string, 7)] Demo.fresh in
  queue s = [("https://ex.com/deep"%string, 7)] /\
  (7 >? max_depth cfg) || bool_decide ("https://ex.com/deep"%string ∈ visited s) = true /\
  crawl_iter Demo.env cfg ([], s) = (Ok tt, ([], set_queue [] s)).
Proof.
  cbv zeta.
  split; [reflexivity|]. split; [reflexivity|].
  exact (crawl_iter_skip Demo.env (Demo.config 30 2) []
           (set_queue [("https://ex.com/deep"%string, 7)] Demo.fresh)
           "https://ex.com/deep" 7 [] eq_refl eq_refl).
Defined.

Lemma crawl_iter_process_witness :
  let cfg := Demo.config 30 10 in
  let s := set_queue [(Demo.root, 0)] Demo.fresh in
  queue s = [(Demo.root, 0)] /\
  (0 >? max_depth cfg) || bool_decide (Demo.root ∈ visited s) = false /\
  exists r rs' s',
    crawl_iter Demo.env cfg ([], s) = (r, (rs', s')) /\
    visited s' = {[Demo.root]} ∪ visited s.
Proof.
  cbv zeta.
  split; [reflexivity|]. split; [vm_compute; reflexivity|].
  destruct (crawl_iter_process Demo.env (Demo.config 30 10) []
              (set_queue [(Demo.root, 0)] Demo.fresh) Demo.root 0 []
              eq_refl ltac:(vm_compute; reflexivity))
    as (r & rs' & s' & H1 & H2 & _).
  exists r, rs', s'. split; [exact H1 | exact H2].
Defined.

Lemma crawl_iter_failed_fetch_witness :
  let cfg := Demo.config 30 10 in
  let s := set_queue [("https://other.com/b"%string, 1)] Demo.fresh in
  queue s = [("https://other.com/b"%string, 1)] /\
  (1 >? max_depth cfg) || bool_decide ("https://other.com/b"%string ∈ visited s) = false /\
  browser Demo.env (List.length (fetch_log s)) "https://other.com/b" = None /\
  exists s',
    crawl_iter Demo.env cfg ([], s) = (Ok tt, ([] ++ [[PNone; PNone; PNone]], s')) /\
    link_count s' = link_count s + 1.
Proof.
  cbv zeta.
  split; [reflexivity|]. split; [vm_compute; reflexivity|]. split; [reflexivity|].
  destruct (crawl_iter_failed_fetch Demo.env (Demo.config 30 10) []
              (set_queue [("https://other.com/b"%string, 1)] Demo.fresh)
              "https://other.com/b" 1 [] eq_refl ltac:(vm_compute; reflexivity) eq_refl)
    as (s' & H1 & H2 & _).
  exists s'. split; [exact H1 | exact H2].
Defined.


Lemma sequential_crawler_budget_witness :
  let cfg := Demo.config 2 10 in
  comprehensive_crawler Demo.env cfg 5 Demo.fresh = Some (demo_run cfg 5 Demo.fresh) /\
  link_count Demo.fresh <= max_links cfg /\
  link_count (snd (demo_run cfg 5 Demo.fresh)) <= max_links cfg.
Proof.
  cbv zeta.
  match goal with |- ?A /\ _ => assert (H : A) by (vm_compute; reflexivity) end.
  assert (H0 : link_count Demo.fresh <= max_links (Demo.config 2 10))
    by (vm_compute; discriminate).
  split; [exact H|]. split; [exact H0|].
  exact (sequential_crawler_budget Demo.env (Demo.config 2 10) 5 Demo.fresh _ H H0).
Defined.

Lemma sequential_crawler_exit_witness :
  let cfg := Demo.config 30 10 in
  let f1 := ([], set_queue [(Demo.root, 0)] Demo.fresh) : Frame in
  let f2 := default f1 (snd <$> crawl_loop Demo.env cfg 5 f1) in
  crawl_loop Demo.env cfg 5 f1 = Some (Ok tt, f2) /\
  link_count (snd f1) <= max_links cfg /\
  (queue (snd f2) = [] \/ link_count (snd f2) = max_links cfg).
Proof.
  cbv zeta.
  match goal with |- ?A /\ _ => assert (H : A) by (vm_compute; reflexivity) end.
  match goal with |- _ /\ ?B /\ _ => assert (H0 : B) by (vm_compute; discriminate) end.
  split; [exact H|]. split; [exact H0|].
  exact (proj1 (sequential_crawler_exit Demo.env (Demo.config 30 10) 5 _ _ H H0)).
Defined.

Lemma sequential_crawler_store_grows_witness :
  let cfg := Demo.config 30 10 in
  let s := Demo.seen Demo.root in
  comprehensive_crawler Demo.env cfg 5 s = Some (demo_run cfg 5 s) /\
  store_grows s (snd (demo_run cfg 5 s)).
Proof.
  cbv zeta.
  match goal with |- ?A /\ _ => assert (H : A) by (vm_compute; reflexivity) end.
  split; [exact H|].
  exact (sequential_crawler_store_grows Demo.env (Demo.config 30 10) 5 _ _ H).
Defined.

Lemma sequential_crawler_records_depth_zero_witness :
  let cfg := Demo.config 30 10 in
  let r := mkRecord 0 0 None true in
  comprehensive_crawler Demo.env cfg 5 Demo.fresh = Some (demo_run cfg 5 Demo.fresh) /\
  table Demo.fresh !! "https://ex.com/a"%string = None /\
  table (snd (demo_run cfg 5 Demo.fresh)) !! "https://ex.com/a"%string = Some r /\
  depth r = 0 /\ title r = None.
Proof.
  cbv zeta.
  match goal with |- ?A /\ _ => assert (H : A) by (vm_compute; reflexivity) end.
  match goal with |- _ /\ ?B /\ _ => assert (H0 : B) by (vm_compute; reflexivity) end.
  match goal with |- _ /\ _ /\ ?C /\ _ => assert (H1 : C) by (vm_compute; reflexivity) end.
  split; [exact H|]. split; [exact H0|]. split; [exact H1|].
  exact (sequential_crawler_records_depth_zero Demo.env (Demo.config 30 10) 5
           Demo.fresh _ _ _ H H0 H1).
Defined.

Lemma sequential_crawler_fetches_witness :
  let cfg := Demo.config 2 10 in
  comprehensive_crawler Demo.env cfg 5 Demo.fresh = Some (demo_run cfg 5 Demo.fresh) /\
  link_count Demo.fresh <= max_links cfg /\
  exists l,
    fetch_log (snd (demo_run cfg 5 Demo.fresh)) = fetch_log Demo.fresh ++ l /\
    NoDup l /\
    Z.of_nat (List.length l) <= max_links cfg - link_count Demo.fresh.
Proof.
  cbv zeta.
  match goal with |- ?A /\ _ => assert (H : A) by (vm_compute; reflexivity) end.
  assert (H0 : link_count Demo.fresh <= max_links (Demo.config 2 10))
    by (vm_compute; discriminate).
  split; [exact H|]. split; [exact H0|].
  destruct (sequential_crawler_fetches Demo.env (Demo.config 2 10) 5 Demo.fresh _ H H0)
    as (l & L1 & L2 & _ & L4).
  exists l. auto.
Defined.

Lemma sequential_crawler_resumable_witness :
  let cfg := Demo.config 1 10 in
  let q := [("https://ex.com/a"%string, 1); ("https://ex.com/c"%string, 1)] in
  let f1 := snd (crawl_start Demo.env cfg ([], Demo.resumed q)) in
  let f2 := default f1 (snd <$> crawl_loop Demo.env cfg 5 f1) in
  (forall q0, pickle_loads Demo.env (pickle_dumps Demo.env q0) = Some q0) /\
  crawl_loop Demo.env cfg 5 f1 = Some (Ok tt, f2) /\
  queue (snd f2) = [("https://ex.com/c"%string, 1)] /\
  initial_frontier Demo.env cfg (restart (snd (snd (crawl_finish f2))))
  = seeded cfg (queue (snd f2)).
Proof.
  cbv zeta.
  assert (Hp : forall q0, pickle_loads Demo.env (pickle_dumps Demo.env q0) = Some q0)
    by exact RefPickleFacts.loads_dumps.
  match goal with |- _ /\ ?A /\ _ => assert (H : A) by (vm_compute; reflexivity) end.
  split; [exact Hp|]. split; [exact H|]. split; [vm_compute; reflexivity|].
  exact (sequential_crawler_resumable Demo.env (Demo.config 1 10) 5 _ _ Hp H).
Defined.

Lemma sequential_crawler_scope_witness :
  let cfg := Demo.config 30 10 in
  comprehensive_crawler Demo.env cfg 5 Demo.fresh = Some (demo_run cfg 5 Demo.fresh) /\
  forall u, u ∈ fetch_log (snd (demo_run cfg 5 Demo.fresh)) ->
    u ∈ fetch_log Demo.fresh \/
    exists d, d <= max_depth cfg /\
              entry_ok cfg (initial_frontier Demo.env cfg Demo.fresh) (u, d).
Proof.
  cbv zeta.
  match goal with |- ?A /\ _ => assert (H : A) by (vm_compute; reflexivity) end.
  split; [exact H|].
  exact (proj2 (sequential_crawler_scope Demo.env (Demo.config 30 10) 5 Demo.fresh _ H)).
Defined.

Lemma sequential_crawler_results_counted_witness :
  let cfg := Demo.config 30 10 in
  comprehensive_crawler Demo.env cfg 5 Demo.fresh = Some (demo_run cfg 5 Demo.fresh) /\
  Z.of_nat (List.length (fst (demo_run cfg 5 Demo.fresh)))
  = link_count (snd (demo_run cfg 5 Demo.fresh)) - link_count Demo.fresh.
Proof.
  cbv zeta.
  match goal with |- ?A /\ _ => assert (H : A) by (vm_compute; reflexivity) end.
  split; [exact H|].
  exact (sequential_crawler_results_counted Demo.env (Demo.config 30 10) 5 Demo.fresh _ H).
Defined.

(** * scrape.py *)

(** X30: One run of scrape.py calls the browser at most five times, and never
    twice for the same URL. *)
Lemma scrape_fetches_at_most_five E fuel world f :
  scrape E fuel world = Some f ->
  exists l,
    fetch_log (snd f) = fetch_log world ++ l /\
    NoDup l /\
    (List.length l <= 5)%nat.
Proof.
  unfold scrape. intros H.
  destruct (sequential_crawler_fetches E scrape_config fuel (restart world) f H)
    as (l & L1 & L2 & _ & L4).
  { destruct world; simpl. lia. }
  exists l. split; [|split; [exact L2|]].
  - rewrite L1. now destruct world.
  - replace (max_links scrape_config - link_count (restart world)) with 5 in L4
      by (destruct world; reflexivity).
    lia.
Qed.

Lemma scrape_fetches_at_most_five_witness :
  let f := default ([], Demo.fresh) (scrape Demo.env 5 Demo.fresh) in
  scrape Demo.env 5 Demo.fresh = Some f /\
  exists l, fetch_log (snd f) = fetch_log Demo.fresh ++ l /\ (List.length l <= 5)%nat.
Proof.
  cbv zeta.
  match goal with |- ?A /\ _ => assert (H : A) by (vm_compute; reflexivity) end.
  split; [exact H|].
  destruct (scrape_fetches_at_most_five Demo.env 5 Demo.fresh _ H) as (l & L1 & _ & L3).
  exists l. auto.
Defined.
